(** * Batched ingestion, deduplication and retrieval pipeline

    A shallow embedding of the JavaScript sources of the archive server:
    the text chunker and the shared-embedding pipeline of
    [gemini-embeddings.js], the older chunker of [embeddings.js], the Pocket
    importer ([archiveSinglePage], [checkForDuplicates],
    [processPocketImport]) and the grouping and ranking step of the
    [POST /api/search] handler of [server.js].

    Conventions.
    - A JavaScript string is its sequence of UTF-16 code units ([jsstring]).
    - JavaScript numbers that the code only uses as integers (positions,
      sizes, counters, delays) are [Z]; [chunkSize/2] is compared after
      multiplying both sides by two.
    - The store, the extraction service and the embedding provider are
      outside the repository.  They are an explicit [World] (the tables the
      code reads and writes, a clock and a trace of the calls made) and an
      [Env] of oracles indexed by the clock, so that every answer of a
      collaborator, failures included, can be chosen freely.
    - An [async] function is a [Task]: it has returned, it has thrown, or
      it waits at an [await] for the answer of a collaborator.  The
      promises of a batch are all started before any of them settles, and
      the order in which their calls are answered is not fixed by the
      code: it is a parameter, the [schedule], and what is proved of an
      import is proved for every schedule.  The result of
      [Promise.allSettled] is in the order of the batch.
    - [console.log] and friends are not modelled, and [onProgress] is the
      default, which does nothing. *)

From Stdlib Require Import String Ascii.
From Stdlib Require Import ZArith NArith List Bool Lia.
From Stdlib Require Import QArith Lqa Permutation Sorted.
Import ListNotations.
Open Scope Z_scope.

(* ================================================================== *)
(** * JavaScript strings and arrays *)

Module JS.

Definition code_unit := N.
Definition jsstring := list code_unit.

(** A literal: the code units of an ASCII string. *)
Fixpoint js (s : string) : jsstring :=
  match s with
  | EmptyString => []
  | String c s' => N_of_ascii c :: js s'
  end.

Fixpoint jseqb (a b : jsstring) : bool :=
  match a, b with
  | [], [] => true
  | x :: a', y :: b' => N.eqb x y && jseqb a' b'
  | _, _ => false
  end.

(** Truthiness of a string: the empty string is the only falsy one. *)
Definition truthy (s : jsstring) : bool :=
  match s with [] => false | _ :: _ => true end.

(** [a || b] on strings. *)
Definition orElse (a b : jsstring) : jsstring :=
  if truthy a then a else b.

(** WhiteSpace and LineTerminator code units, the ones [trim] removes. *)
Definition is_space (c : code_unit) : bool :=
  ((9 <=? c) && (c <=? 13) || (c =? 32) || (c =? 160) || (c =? 5760)
   || (8192 <=? c) && (c <=? 8202) || (c =? 8232) || (c =? 8233)
   || (c =? 8239) || (c =? 8287) || (c =? 12288) || (c =? 65279))%N.

Fixpoint trimStart (s : jsstring) : jsstring :=
  match s with
  | [] => []
  | c :: s' => if is_space c then trimStart s' else s
  end.

Definition trim (s : jsstring) : jsstring :=
  rev (trimStart (rev (trimStart s))).

(** Relative index of [slice]: negative counts from the end, and the
    result is clamped to [0, len]. *)
Definition rel_index (len i : Z) : Z :=
  if i <? 0 then Z.max (len + i) 0 else Z.min i len.

(** [s.slice(start, end)] for strings and arrays alike. *)
Definition slice {A : Type} (l : list A) (start end_ : Z) : list A :=
  let len := Z.of_nat (length l) in
  let from := rel_index len start in
  let to := rel_index len end_ in
  firstn (Z.to_nat (to - from)) (skipn (Z.to_nat from) l).

Fixpoint starts_with (pat s : jsstring) : bool :=
  match pat, s with
  | [], _ => true
  | p :: pat', c :: s' => N.eqb p c && starts_with pat' s'
  | _ :: _, [] => false
  end.

(** Largest [k' <= k] at which [pat] occurs in [s], or -1. *)
Fixpoint lastIndexOf_from (s pat : jsstring) (k : nat) : Z :=
  if starts_with pat (skipn k s) then Z.of_nat k
  else match k with
       | O => -1
       | S k' => lastIndexOf_from s pat k'
       end.

(** [s.lastIndexOf(pat, position)]: the search starts at [position]
    clamped between 0 and [len - searchLen]. *)
Definition lastIndexOf (s pat : jsstring) (position : Z) : Z :=
  let len := Z.of_nat (length s) in
  let searchLen := Z.of_nat (length pat) in
  if len <? searchLen then -1
  else lastIndexOf_from s pat
         (Z.to_nat (Z.min (Z.max position 0) (len - searchLen))).

End JS.
Import JS.

(* ================================================================== *)
(** * The collaborators: store, extraction service, embedding provider *)

Definition row_id := positive.
Definition vector := list Q.

(** What the extraction collaborator returns for a page. *)
Record Extracted := mkExtracted {
  x_title : jsstring;
  x_description : jsstring;
  x_html : jsstring;
  x_text : jsstring;
  x_markdown : option jsstring;
  x_extractionMethod : option jsstring;
  x_wordCount : Z;
  x_readingTime : Z
}.

(** A row of the [archives] table. *)
Record ArchiveRow := mkArchiveRow {
  a_id : row_id;
  a_user_id : jsstring;
  a_url : jsstring;
  a_title : jsstring;
  a_description : jsstring;
  a_archived_html : jsstring;
  a_archived_text : jsstring;
  a_archived_markdown : option jsstring;
  a_extraction_method : jsstring;
  a_word_count : Z;
  a_reading_time : Z;
  a_tags : list jsstring
}.

(** A row of the [content_embeddings] table. *)
Record ContentRow := mkContentRow {
  c_id : row_id;
  c_content_hash : jsstring;
  c_url : jsstring;
  c_title : jsstring;
  c_chunk_index : nat;
  c_content : jsstring;
  c_embedding : vector
}.

(** A row of the [user_content] table. *)
Record LinkRow := mkLinkRow {
  l_user_id : jsstring;
  l_content_id : row_id;
  l_archive_id : row_id;
  l_tags : list jsstring
}.

(** The calls that leave the process, in the order they are made. *)
Inductive Event :=
| EvExtract (url : jsstring)
| EvInsertArchive (user_id url : jsstring)
| EvEmbed (text : jsstring)
| EvSleep (ms : Z).

Record World := mkWorld {
  archives : list ArchiveRow;
  content_embeddings : list ContentRow;
  user_content : list LinkRow;
  clock : nat;
  trace : list Event
}.

(** The answers of the collaborators.  The first argument is the clock of
    the world at the time of the call, so an answer may change from one
    call to the next. *)
Record Env := mkEnv {
  (** [extractWithFirecrawl]: a page, or [null]; it never throws. *)
  extractWithFirecrawl : nat -> jsstring -> option Extracted;
  (** The body of [puppeteerFallback] (fetch, cheerio, quality checks) for
      a url and an original title: a page, or the message of the error
      thrown. *)
  fallback_page : nat -> jsstring -> jsstring -> Extracted + jsstring;
  (** The error, if any, with which the store answers a call. *)
  store_error : nat -> option jsstring;
  (** Whether [GEMINI_API_KEY] is set. *)
  genAI : bool;
  (** [model.embedContent]: the values, or [None] when it throws. *)
  embedContent : nat -> jsstring -> option vector;
  (** SHA-256 as a hexadecimal string. *)
  sha256_hex : jsstring -> jsstring
}.

(* ------------------------------------------------------------------ *)
(** ** A state monad with exceptions *)

Inductive Outcome (A : Type) :=
| Ok (a : A)
| Throw (message : jsstring)
| Diverge.
Arguments Ok {A} a.
Arguments Throw {A} message.
Arguments Diverge {A}.

Definition M (A : Type) := World -> Outcome A * World.

Definition ret {A} (a : A) : M A := fun w => (Ok a, w).

Definition bind {A B} (m : M A) (k : A -> M B) : M B :=
  fun w =>
    match m w with
    | (Ok a, w') => k a w'
    | (Throw e, w') => (Throw e, w')
    | (Diverge, w') => (Diverge, w')
    end.

Definition throw {A} (message : jsstring) : M A := fun w => (Throw message, w).

Definition diverge {A} : M A := fun w => (Diverge, w).

(** [try { m } catch (error) { handler(error.message) }] *)
Definition try_catch {A} (m : M A) (handler : jsstring -> M A) : M A :=
  fun w =>
    match m w with
    | (Throw e, w') => handler e w'
    | r => r
    end.

(** The rest of a computation that does not touch the world. *)
Definition and_then {A B} (x : Outcome A) (k : A -> Outcome B)
    : Outcome B :=
  match x with
  | Ok a => k a
  | Throw message => Throw message
  | Diverge => Diverge
  end.

Declare Scope monad_scope.
Delimit Scope monad_scope with monad.
Notation "x <- m ;; k" := (bind m (fun x => k))
  (at level 61, m at next level, right associativity) : monad_scope.
Notation "' p <- m ;; k" := (bind m (fun x => let 'p := x in k))
  (at level 61, p pattern, m at next level, right associativity) : monad_scope.
Notation "m ;;; k" := (bind m (fun _ => k))
  (at level 61, right associativity) : monad_scope.
Open Scope monad_scope.

Definition tick : M nat :=
  fun w => (Ok (clock w),
            mkWorld (archives w) (content_embeddings w) (user_content w)
                    (S (clock w)) (trace w)).

Definition emit (e : Event) : M unit :=
  fun w => (Ok tt,
            mkWorld (archives w) (content_embeddings w) (user_content w)
                    (clock w) (trace w ++ [e])).

Definition get_world : M World := fun w => (Ok w, w).

Definition set_archives (rows : list ArchiveRow) : M unit :=
  fun w => (Ok tt,
            mkWorld rows (content_embeddings w) (user_content w)
                    (clock w) (trace w)).

Definition set_content_embeddings (rows : list ContentRow) : M unit :=
  fun w => (Ok tt,
            mkWorld (archives w) rows (user_content w) (clock w) (trace w)).

Definition set_user_content (rows : list LinkRow) : M unit :=
  fun w => (Ok tt,
            mkWorld (archives w) (content_embeddings w) rows
                    (clock w) (trace w)).

(** [await new Promise(resolve => setTimeout(resolve, ms))] *)
Definition sleep (ms : Z) : M unit := emit (EvSleep ms).

(* ------------------------------------------------------------------ *)
(** ** Asynchronous functions *)

(** An [async] function that has been called.  It has returned, it has
    thrown, or it is suspended at an [await]: the call it waits for has
    not been answered yet, and the function goes on with [resume] when
    the call is answered and with [rejected] when the call fails.  The
    call acts on the world at the time it is answered. *)
Inductive Task (A : Type) : Type :=
| Finished (value : A)
| Raised (message : jsstring)
| Awaiting (X : Type) (call : M X) (resume : X -> Task A)
           (rejected : jsstring -> Task A).
Arguments Finished {A} value.
Arguments Raised {A} message.
Arguments Awaiting {A X} call resume rejected.

(** [await call] *)
Definition await {X} (call : M X) : Task X := Awaiting call Finished Raised.

(** [const x = await t; k(x)], for an async function [t]. *)
Fixpoint task_bind {A B} (t : Task A) (k : A -> Task B) : Task B :=
  match t with
  | Finished a => k a
  | Raised message => Raised message
  | Awaiting call resume rejected =>
      Awaiting call (fun x => task_bind (resume x) k)
               (fun message => task_bind (rejected message) k)
  end.

(** [try { t } catch (error) { handler(error.message) }] *)
Fixpoint task_try {A} (t : Task A) (handler : jsstring -> Task A)
    : Task A :=
  match t with
  | Finished a => Finished a
  | Raised message => handler message
  | Awaiting call resume rejected =>
      Awaiting call (fun x => task_try (resume x) handler)
               (fun message => task_try (rejected message) handler)
  end.

Declare Scope task_scope.
Delimit Scope task_scope with task.
Notation "x <- t ;; k" := (task_bind t (fun x => k))
  (at level 61, t at next level, right associativity) : task_scope.
Notation "' p <- t ;; k" := (task_bind t (fun x => let 'p := x in k))
  (at level 61, p pattern, t at next level, right associativity)
  : task_scope.

(** The call a task waits for is answered: the task goes on to its next
    [await] or to its end.  A call that is never answered leaves the task
    waiting for ever. *)
Definition answer {A} (t : Task A) : M (Task A) :=
  match t with
  | Awaiting call resume rejected =>
      fun w =>
        match call w with
        | (Ok x, w') => (Ok (resume x), w')
        | (Throw message, w') => (Ok (rejected message), w')
        | (Diverge, w') => (Diverge, w')
        end
  | _ => ret t
  end.

(** A task that nothing else runs beside: its calls are answered one
    after the other. *)
Fixpoint run_task {A} (t : Task A) : M A :=
  match t with
  | Finished a => ret a
  | Raised message => throw message
  | Awaiting call resume rejected =>
      fun w =>
        match call w with
        | (Ok x, w') => run_task (resume x) w'
        | (Throw message, w') => run_task (rejected message) w'
        | (Diverge, w') => (Diverge, w')
        end
  end.

(* ------------------------------------------------------------------ *)
(** ** The store *)

(** The answer [{ data, error }] of a store call. *)
Definition Answer (A : Type) := (option A * option jsstring)%type.

(** The error of [.single()] when the query does not match exactly one
    row. *)
Definition PGRST116 : jsstring :=
  js "JSON object requested, multiple (or no) rows returned".

(** [.single()]: the row when exactly one matches, else no data and an
    error. *)
Definition single {A} (rows : list A) : Answer A :=
  match rows with
  | [r] => (Some r, None)
  | _ => (None, Some PGRST116)
  end.

Definition fresh_id {A} (id_of : A -> row_id) (rows : list A) : row_id :=
  Pos.succ (fold_right Pos.max 1%positive (map id_of rows)).

Definition archive_matches (user_id url : jsstring) (r : ArchiveRow) : bool :=
  jseqb (a_user_id r) user_id && jseqb (a_url r) url.

(** [from('archives').select(..).eq('user_id', u).eq('url', url).single()] *)
Definition select_archive_single (env : Env) (user_id url : jsstring)
    : M (Answer ArchiveRow) :=
  t <- tick ;;
  w <- get_world ;;
  match store_error env t with
  | Some e => ret (None, Some e)
  | None => ret (single (filter (archive_matches user_id url) (archives w)))
  end.

Definition has (set : list jsstring) (x : jsstring) : bool :=
  existsb (jseqb x) set.

(** [from('archives').select('url').eq('user_id', u).in('url', batch)] *)
Definition select_archive_urls_in (env : Env) (user_id : jsstring)
    (batch : list jsstring) : M (Answer (list jsstring)) :=
  t <- tick ;;
  w <- get_world ;;
  match store_error env t with
  | Some e => ret (None, Some e)
  | None =>
      ret (Some (map a_url
                   (filter (fun r => jseqb (a_user_id r) user_id
                                     && has batch (a_url r))
                           (archives w))),
           None)
  end.

(** [from('archives').insert(row).select().single()] *)
Definition insert_archive (env : Env)
    (row : row_id -> ArchiveRow) : M (Answer ArchiveRow) :=
  t <- tick ;;
  w <- get_world ;;
  match store_error env t with
  | Some e => ret (None, Some e)
  | None =>
      let r := row (fresh_id a_id (archives w)) in
      emit (EvInsertArchive (a_user_id r) (a_url r)) ;;;
      set_archives (archives w ++ [r]) ;;;
      ret (Some r, None)
  end.

Definition content_matches (content_hash : jsstring) (chunk_index : nat)
    (r : ContentRow) : bool :=
  jseqb (c_content_hash r) content_hash
  && Nat.eqb (c_chunk_index r) chunk_index.

(** [from('content_embeddings').select('id').eq('content_hash', h)
     .eq('chunk_index', i).single()] *)
Definition select_content_single (env : Env) (content_hash : jsstring)
    (chunk_index : nat) : M (Answer ContentRow) :=
  t <- tick ;;
  w <- get_world ;;
  match store_error env t with
  | Some e => ret (None, Some e)
  | None =>
      ret (single (filter (content_matches content_hash chunk_index)
                          (content_embeddings w)))
  end.

(** Modelled from the spec: the SQL function [get_or_create_content] is not
    among the sources.  The store offers "an atomic get-or-create operation
    keyed by content hash + chunk index": the id of the first row with that
    key when there is one, else the id of a row it creates. *)
Definition get_or_create_content (env : Env) (p_content_hash p_url
    p_title : jsstring) (p_chunk_index : nat) (p_content : jsstring)
    (p_embedding : vector) : M (Answer row_id) :=
  t <- tick ;;
  w <- get_world ;;
  match store_error env t with
  | Some e => ret (None, Some e)
  | None =>
      match filter (content_matches p_content_hash p_chunk_index)
                   (content_embeddings w) with
      | r :: _ => ret (Some (c_id r), None)
      | [] =>
          let id := fresh_id c_id (content_embeddings w) in
          set_content_embeddings
            (content_embeddings w ++
             [mkContentRow id p_content_hash p_url p_title p_chunk_index
                           p_content p_embedding]) ;;;
          ret (Some id, None)
      end
  end.

Definition link_matches (l r : LinkRow) : bool :=
  jseqb (l_user_id r) (l_user_id l)
  && Pos.eqb (l_content_id r) (l_content_id l)
  && Pos.eqb (l_archive_id r) (l_archive_id l).

(** [from('user_content').upsert(row,
     { onConflict: 'user_id,content_id,archive_id' })]: the error, if any. *)
Definition upsert_user_content (env : Env) (row : LinkRow)
    : M (option jsstring) :=
  t <- tick ;;
  w <- get_world ;;
  match store_error env t with
  | Some e => ret (Some e)
  | None =>
      (if existsb (link_matches row) (user_content w)
       then set_user_content
              (map (fun r => if link_matches row r then row else r)
                   (user_content w))
       else set_user_content (user_content w ++ [row])) ;;;
      ret None
  end.

(* ================================================================== *)
(** * The chunkers *)

Record Chunk := mkChunk { content : jsstring; index : nat }.

Definition ChunkState := (Z * list Chunk)%type.

Definition NEWLINE : jsstring := [10%N].
Definition DOUBLE_NEWLINE : jsstring := [10%N; 10%N].
Definition PERIOD : jsstring := [46%N].
Definition PERIOD_SPACE : jsstring := [46%N; 32%N].

(** The [while] loop shared by both chunkers: it runs [body] as long as
    [position < text.length]; [None] when the fuel is used up first. *)
Fixpoint chunk_loop (body : ChunkState -> ChunkState) (len : Z)
    (fuel : nat) (st : ChunkState) : option (list Chunk) :=
  match fuel with
  | O => None
  | S fuel' =>
      if fst st <? len then chunk_loop body len fuel' (body st)
      else Some (snd st)
  end.

Module Embeddings.

(** One iteration of the loop of [chunkText] in [embeddings.js]: only a
    period or a newline is a break point, and every chunk is pushed, the
    empty ones too. *)
Definition chunk_step (text : jsstring) (chunkSize overlap : Z)
    (st : ChunkState) : ChunkState :=
  let '(position, chunks) := st in
  let len := Z.of_nat (length text) in
  let endPosition := Z.min (position + chunkSize) len in
  let endPosition :=
    if endPosition <? len then
      let lastPeriod := lastIndexOf text PERIOD endPosition in
      let lastNewline := lastIndexOf text NEWLINE endPosition in
      let breakPoint := Z.max lastPeriod lastNewline in
      if 2 * position + chunkSize <? 2 * breakPoint
      then breakPoint + 1 else endPosition
    else endPosition in
  let chunks :=
    chunks ++ [mkChunk (trim (slice text position endPosition))
                       (length chunks)] in
  let position := endPosition - overlap in
  let position :=
    if position <=? Z.of_nat (length chunks) * overlap
    then Z.max endPosition (position + 1) else position in
  (position, chunks).

Definition chunkText (fuel : nat) (text : jsstring)
    (chunkSize overlap : Z) : option (list Chunk) :=
  chunk_loop (chunk_step text chunkSize overlap)
    (Z.of_nat (length text)) fuel (0, []).

End Embeddings.

Module GeminiEmbeddings.

(** One iteration of the loop of [chunkText] in [gemini-embeddings.js]. *)
Definition chunk_step (text : jsstring) (chunkSize overlap : Z)
    (st : ChunkState) : ChunkState :=
  let '(position, chunks) := st in
  let len := Z.of_nat (length text) in
  let endPosition := Z.min (position + chunkSize) len in
  let endPosition :=
    if endPosition <? len then
      let lastDoubleNewline := lastIndexOf text DOUBLE_NEWLINE endPosition in
      let lastPeriod := lastIndexOf text PERIOD_SPACE endPosition in
      let lastNewline := lastIndexOf text NEWLINE endPosition in
      let breakPoint :=
        Z.max (Z.max lastDoubleNewline lastPeriod) lastNewline in
      if 2 * position + chunkSize <? 2 * breakPoint
      then breakPoint + 1 else endPosition
    else endPosition in
  let chunkContent := trim (slice text position endPosition) in
  let chunks :=
    if truthy chunkContent
    then chunks ++ [mkChunk chunkContent (length chunks)]
    else chunks in
  let position := endPosition - overlap in
  let position :=
    if position <=? Z.of_nat (length chunks) * overlap
    then Z.max endPosition (position + 1) else position in
  (position, chunks).

Definition chunkText (fuel : nat) (text : jsstring)
    (chunkSize overlap : Z) : option (list Chunk) :=
  chunk_loop (chunk_step text chunkSize overlap)
    (Z.of_nat (length text)) fuel (0, []).

Definition DEFAULT_CHUNK_SIZE : Z := 1500.
Definition DEFAULT_OVERLAP : Z := 300.

(** [hashContent(url, content)] *)
Definition hashContent (env : Env) (url content : jsstring) : jsstring :=
  sha256_hex env (url ++ js ":" ++ content).

(** [generateEmbedding(text)]: the provider is called only when the key
    is configured, and an exception of the provider becomes [null]. *)
Definition generateEmbedding (env : Env) (text : jsstring)
    : M (option vector) :=
  if genAI env then
    let input := slice text 0 10000 in
    emit (EvEmbed input) ;;;
    t <- tick ;;
    ret (embedContent env t input)
  else ret None.

(** How one pass through the loop over the chunks ends: at [continue],
    or at the end of the body with the value of [contentId]. *)
Inductive ChunkOutcome :=
| Continue
| Completed (contentId : option row_id).

(** The part of the loop body that finds or creates the content row. *)
Definition find_or_embed (env : Env) (archive : ArchiveRow)
    (chunk : Chunk) : M ChunkOutcome :=
  let contentHash := hashContent env (a_url archive) (content chunk) in
  '(existingContent, _) <-
     select_content_single env contentHash (index chunk) ;;
  match existingContent with
  | Some existing => ret (Completed (Some (c_id existing)))
  | None =>
      embedding <- generateEmbedding env (content chunk) ;;
      match embedding with
      | Some values =>
          '(newContent, error) <-
             get_or_create_content env contentHash (a_url archive)
               (a_title archive) (index chunk) (content chunk) values ;;
          match error with
          | Some _ => ret Continue
          | None => ret (Completed newContent)
          end
      | None => ret (Completed None)
      end
  end.

(** The loop [for (const chunk of chunks)]. *)
Fixpoint embed_chunks (env : Env) (archive : ArchiveRow)
    (chunks : list Chunk) (contentIds : list row_id) : M (list row_id) :=
  match chunks with
  | [] => ret contentIds
  | chunk :: rest =>
      outcome <- find_or_embed env archive chunk ;;
      match outcome with
      | Continue => embed_chunks env archive rest contentIds
      | Completed contentId =>
          contentIds <-
            match contentId with
            | Some id =>
                upsert_user_content env
                  (mkLinkRow (a_user_id archive) id (a_id archive)
                             (a_tags archive)) ;;;
                ret (contentIds ++ [id])
            | None => ret contentIds
            end ;;
          sleep 50 ;;;
          embed_chunks env archive rest contentIds
      end
  end.

Definition fullText (archive : ArchiveRow) : jsstring :=
  a_title archive ++ DOUBLE_NEWLINE ++ a_description archive
  ++ DOUBLE_NEWLINE ++ a_archived_text archive.

(** [processArchiveWithSharedEmbeddings(archive, supabase)]: [None] is
    the [undefined] returned when the key is not configured. *)
Definition processArchiveWithSharedEmbeddings (env : Env) (fuel : nat)
    (archive : ArchiveRow) : M (option (list row_id)) :=
  if genAI env then
    try_catch
      (match chunkText fuel (fullText archive)
               DEFAULT_CHUNK_SIZE DEFAULT_OVERLAP with
       | None => diverge
       | Some chunks =>
           contentIds <- embed_chunks env archive chunks [] ;;
           ret (Some contentIds)
       end)
      (fun _ => ret (Some []))
  else ret None.

End GeminiEmbeddings.

(* ================================================================== *)
(** * firecrawl-extractor.js *)

Module FirecrawlExtractor.

(** [archivePageWithFirecrawl(url, fallbackFunction)] *)
Definition archivePageWithFirecrawl (env : Env) (url : jsstring)
    (fallbackFunction : jsstring -> M Extracted) : M Extracted :=
  emit (EvExtract url) ;;;
  t <- tick ;;
  match extractWithFirecrawl env t url with
  | Some firecrawlResult => ret firecrawlResult
  | None =>
      try_catch
        (puppeteerResult <- fallbackFunction url ;;
         ret (mkExtracted (x_title puppeteerResult)
                (x_description puppeteerResult) (x_html puppeteerResult)
                (x_text puppeteerResult) (x_markdown puppeteerResult)
                (Some (js "puppeteer-fallback"))
                (x_wordCount puppeteerResult)
                (x_readingTime puppeteerResult)))
        (fun message =>
           throw (js "Failed to extract content: " ++ message))
  end.

(** The same function with the points at which it waits, as the importer
    runs it beside the other items of a batch. *)
Module Async.

Definition archivePageWithFirecrawl (env : Env) (url : jsstring)
    (fallbackFunction : jsstring -> Task Extracted) : Task Extracted :=
  (firecrawlResult <-
     await (emit (EvExtract url) ;;;
            t <- tick ;;
            ret (extractWithFirecrawl env t url))%monad ;;
   match firecrawlResult with
   | Some firecrawlResult => Finished firecrawlResult
   | None =>
       task_try
         (puppeteerResult <- fallbackFunction url ;;
          Finished (mkExtracted (x_title puppeteerResult)
                      (x_description puppeteerResult)
                      (x_html puppeteerResult) (x_text puppeteerResult)
                      (x_markdown puppeteerResult)
                      (Some (js "puppeteer-fallback"))
                      (x_wordCount puppeteerResult)
                      (x_readingTime puppeteerResult)))
         (fun message =>
            Raised (js "Failed to extract content: " ++ message))
   end)%task.

End Async.

End FirecrawlExtractor.

(* ================================================================== *)
(** * pocket-import.js *)

Module PocketImport.
Import FirecrawlExtractor.

(** An entry of the parsed CSV. *)
Record UrlData := mkUrlData {
  u_url : jsstring;
  u_title : jsstring;
  u_tags : list jsstring
}.

Record ArchiveInfo := mkArchiveInfo {
  i_id : row_id;
  i_url : jsstring;
  i_title : jsstring;
  i_description : jsstring
}.

(** The three objects [archiveSinglePage] returns:
    [{success: true, skipped: true, archive}], [{success: true, archive}]
    and [{success: false, url, error}]. *)
Inductive ItemResult :=
| Skipped (archive : ArchiveInfo)
| Archived (archive : ArchiveInfo)
| Failed (url error : jsstring).

Definition success (r : ItemResult) : bool :=
  match r with Failed _ _ => false | _ => true end.

Definition skipped (r : ItemResult) : bool :=
  match r with Skipped _ => true | _ => false end.

Definition UNTITLED : jsstring := js "Untitled".

(** The closure [puppeteerFallback] of [archiveSinglePage]. *)
Definition puppeteerFallback (env : Env) (originalTitle url : jsstring)
    : M Extracted :=
  t <- tick ;;
  match fallback_page env t url originalTitle with
  | inl page => ret page
  | inr message => throw (js "Fallback extraction failed: " ++ message)
  end.

Definition archiveSinglePage (env : Env) (url userId originalTitle
    : jsstring) (tags : list jsstring) : M ItemResult :=
  try_catch
    ('(existingArchive, checkError) <-
        select_archive_single env userId url ;;
     match existingArchive with
     | Some existing =>
         ret (Skipped (mkArchiveInfo (a_id existing) (a_url existing)
                         (a_title existing) (js "Already archived")))
     | None =>
         archivedData <-
           archivePageWithFirecrawl env url
             (puppeteerFallback env originalTitle) ;;
         let title :=
           if negb (truthy (x_title archivedData))
              || jseqb (x_title archivedData) UNTITLED
           then orElse originalTitle UNTITLED
           else x_title archivedData in
         '(archive, insertError) <-
           insert_archive env (fun id =>
             mkArchiveRow id userId url title
               (x_description archivedData) (x_html archivedData)
               (x_text archivedData) (x_markdown archivedData)
               (match x_extractionMethod archivedData with
                | Some m => orElse m (js "firecrawl")
                | None => js "firecrawl"
                end)
               (x_wordCount archivedData) (x_readingTime archivedData)
               tags) ;;
         match insertError, archive with
         | Some e, _ => throw e
         | None, Some archive =>
             ret (Archived (mkArchiveInfo (a_id archive) (a_url archive)
                              (a_title archive) (a_description archive)))
         | None, None =>
             throw (js "Cannot read properties of null (reading 'id')")
         end
     end)
    (fun message => ret (Failed url message)).

(** [archiveSinglePage] and its closure with the points at which they
    wait: the existence check, the extraction, the fallback and the
    insert. *)
Module Async.

Definition puppeteerFallback (env : Env) (originalTitle url : jsstring)
    : Task Extracted :=
  (fetched <-
     await (t <- tick ;; ret (fallback_page env t url originalTitle))%monad ;;
   match fetched with
   | inl page => Finished page
   | inr message => Raised (js "Fallback extraction failed: " ++ message)
   end)%task.

Definition archiveSinglePage (env : Env) (url userId originalTitle
    : jsstring) (tags : list jsstring) : Task ItemResult :=
  task_try
    ('(existingArchive, checkError) <-
        await (select_archive_single env userId url) ;;
     match existingArchive with
     | Some existing =>
         Finished (Skipped (mkArchiveInfo (a_id existing) (a_url existing)
                              (a_title existing) (js "Already archived")))
     | None =>
         archivedData <-
           FirecrawlExtractor.Async.archivePageWithFirecrawl env url
             (puppeteerFallback env originalTitle) ;;
         let title :=
           if negb (truthy (x_title archivedData))
              || jseqb (x_title archivedData) UNTITLED
           then orElse originalTitle UNTITLED
           else x_title archivedData in
         '(archive, insertError) <-
           await (insert_archive env (fun id =>
             mkArchiveRow id userId url title
               (x_description archivedData) (x_html archivedData)
               (x_text archivedData) (x_markdown archivedData)
               (match x_extractionMethod archivedData with
                | Some m => orElse m (js "firecrawl")
                | None => js "firecrawl"
                end)
               (x_wordCount archivedData) (x_readingTime archivedData)
               tags)) ;;
         match insertError, archive with
         | Some e, _ => Raised e
         | None, Some archive =>
             Finished (Archived (mkArchiveInfo (a_id archive)
                                   (a_url archive) (a_title archive)
                                   (a_description archive)))
         | None, None =>
             Raised (js "Cannot read properties of null (reading 'id')")
         end
     end)%task
    (fun message => Finished (Failed url message)).

End Async.

Definition add (set : list jsstring) (x : jsstring) : list jsstring :=
  if has set x then set else set ++ [x].

(** The [for] loop of [checkForDuplicates]; its step is the constant
    100, so [length urlList] iterations are always enough. *)
Fixpoint check_batches (env : Env) (userId : jsstring)
    (urlList : list jsstring) (fuel : nat) (i : Z)
    (existingUrls : list jsstring) : M (list jsstring) :=
  match fuel with
  | O => ret existingUrls
  | S fuel' =>
      if i <? Z.of_nat (length urlList) then
        let batchSize := 100 in
        let batch := slice urlList i (i + batchSize) in
        '(existingArchives, error) <-
           select_archive_urls_in env userId batch ;;
        match error, existingArchives with
        | Some _, _ =>
            check_batches env userId urlList fuel' (i + batchSize)
              existingUrls
        | None, Some rows =>
            check_batches env userId urlList fuel' (i + batchSize)
              (fold_left add rows existingUrls)
        | None, None =>
            throw (js "Cannot read properties of null (reading 'forEach')")
        end
      else ret existingUrls
  end.

Definition checkForDuplicates (env : Env) (urls : list UrlData)
    (userId : jsstring) : M (list UrlData * list UrlData) :=
  try_catch
    (let urlList := map u_url urls in
     existingUrls <-
       check_batches env userId urlList (length urlList) 0 [] ;;
     let newUrls :=
       filter (fun item => negb (has existingUrls (u_url item))) urls in
     let duplicates :=
       filter (fun item => has existingUrls (u_url item)) urls in
     ret (newUrls, duplicates))
    (fun _ => ret (urls, [])).

Record Options := mkOptions {
  batchSize : Z;
  delayBetweenBatches : Z;
  delayBetweenRequests : Z;
  maxRetries : Z
}.

Definition defaultOptions : Options := mkOptions 10 500 200 2.

(** The object [results]. *)
Record ImportSummary := mkSummary {
  s_total : nat;
  s_successful : nat;
  s_failed : nat;
  s_results : list ItemResult;
  s_duplicates : nat;
  s_skipped : nat
}.

(** The [while (retries <= maxRetries)] loop of the callback given to
    [batch.map]; [None] is the initial [null] of [result].  Every pass
    either leaves the loop or adds one to [retries], so [maxRetries + 2]
    passes are always enough. *)
Fixpoint retry_loop (env : Env) (opts : Options) (userId : jsstring)
    (urlData : UrlData) (fuel : nat) (retries : Z)
    (result : option ItemResult) : Task (option ItemResult) :=
  match fuel with
  | O => (_ <- await (@diverge unit) ;; Finished result)%task
  | S fuel' =>
      if retries <=? maxRetries opts then
        task_try
          (r <- Async.archiveSinglePage env (u_url urlData) userId
                  (u_title urlData) (u_tags urlData) ;;
           Finished (Some r))%task
          (fun message =>
             let retries := retries + 1 in
             if retries <=? maxRetries opts then
               (_ <- await (sleep (delayBetweenRequests opts * retries)) ;;
                retry_loop env opts userId urlData fuel' retries result)%task
             else
               retry_loop env opts userId urlData fuel' retries
                 (Some (Failed (u_url urlData) message)))
      else Finished result
  end.

(** The callback given to [batch.map]. *)
Definition process_item (env : Env) (opts : Options) (userId : jsstring)
    (urlData : UrlData) : Task (UrlData * option ItemResult) :=
  (result <- retry_loop env opts userId urlData
               (S (S (Z.to_nat (maxRetries opts)))) 0 None ;;
   Finished (urlData, result))%task.

(** A settled promise. *)
Inductive Settled (A : Type) :=
| Fulfilled (value : A)
| Rejected (reason : jsstring).
Arguments Fulfilled {A} value.
Arguments Rejected {A} reason.

Definition pending {A} (t : Task A) : bool :=
  match t with
  | Awaiting _ _ _ => true
  | _ => false
  end.

(** The results of the promises, in their order, once none is pending. *)
Fixpoint outcomes {A} (promises : list (Task A))
    : option (list (Settled A)) :=
  match promises with
  | [] => Some []
  | Finished a :: rest => option_map (cons (Fulfilled a)) (outcomes rest)
  | Raised reason :: rest =>
      option_map (cons (Rejected reason)) (outcomes rest)
  | Awaiting _ _ _ :: _ => None
  end.

(** The call of the pending promise number [n], counted from 0 among the
    pending ones, is answered. *)
Fixpoint serve {A} (n : nat) (promises : list (Task A))
    : M (list (Task A)) :=
  match promises with
  | [] => ret []
  | t :: rest =>
      if pending t then
        match n with
        | O => t' <- answer t ;; ret (t' :: rest)
        | S n' => rest' <- serve n' rest ;; ret (t :: rest')
        end
      else
        rest' <- serve n rest ;; ret (t :: rest')
  end.

(** [await Promise.allSettled(promises)] for promises that have all been
    started.  One call is answered at a time; which of the pending
    promises is served next is up to the collaborators: [schedule t] is
    its number, among the pending ones, when the clock is [t] (a number
    past the last one stands for the last).  [fuel] bounds the number of
    calls answered. *)
Fixpoint allSettled {A} (schedule : nat -> nat) (fuel : nat)
    (promises : list (Task A)) : M (list (Settled A)) :=
  match fuel with
  | O => diverge
  | S fuel' =>
      match outcomes promises with
      | Some results => ret results
      | None =>
          w <- get_world ;;
          promises <-
            serve (Nat.min (Nat.pred (length (filter pending promises)))
                           (schedule (clock w)))
                  promises ;;
          allSettled schedule fuel' promises
      end
  end.

(** A number of calls no item waits for more than: every pass of the loop
    around [archiveSinglePage] waits for at most four calls and one
    pause, and there are at most [maxRetries + 2] passes. *)
Definition item_calls (opts : Options) : nat :=
  5 * (Z.to_nat (maxRetries opts) + 2).

(** The body of [for (const promiseResult of batchResults)]. *)
Definition account (results : ImportSummary)
    (promiseResult : Settled (UrlData * option ItemResult))
    : M ImportSummary :=
  match promiseResult with
  | Fulfilled (urlData, Some result) =>
      let results :=
        if success result then
          if skipped result
          then mkSummary (s_total results) (s_successful results)
                 (s_failed results) (s_results results)
                 (s_duplicates results) (s_skipped results + 1)
          else mkSummary (s_total results) (s_successful results + 1)
                 (s_failed results) (s_results results)
                 (s_duplicates results) (s_skipped results)
        else mkSummary (s_total results) (s_successful results)
               (s_failed results + 1) (s_results results)
               (s_duplicates results) (s_skipped results) in
      ret (mkSummary (s_total results) (s_successful results)
             (s_failed results)
             (s_results results ++ [result])
             (s_duplicates results) (s_skipped results))
  | Fulfilled (urlData, None) =>
      throw (js "Cannot read properties of null (reading 'success')")
  | Rejected reason =>
      ret (mkSummary (s_total results) (s_successful results)
             (s_failed results + 1)
             (s_results results ++
              [Failed (js "unknown") (orElse reason (js "Promise rejected"))])
             (s_duplicates results) (s_skipped results))
  end.

Fixpoint account_all (results : ImportSummary)
    (batchResults : list (Settled (UrlData * option ItemResult)))
    : M ImportSummary :=
  match batchResults with
  | [] => ret results
  | promiseResult :: rest =>
      results <- account results promiseResult ;;
      account_all results rest
  end.

(** The loop [for (let i = 0; i < urlsToProcess.length; i += batchSize)].
    [batch.map] starts every item of the batch, and the loop waits for
    all of them. *)
Fixpoint batch_loop (env : Env) (schedule : nat -> nat) (opts : Options)
    (userId : jsstring) (urlsToProcess : list UrlData) (fuel : nat) (i : Z)
    (results : ImportSummary) : M ImportSummary :=
  match fuel with
  | O => diverge
  | S fuel' =>
      if i <? Z.of_nat (length urlsToProcess) then
        let batch := slice urlsToProcess i (i + batchSize opts) in
        let batchPromises := map (process_item env opts userId) batch in
        batchResults <-
          allSettled schedule (S (length batch * item_calls opts))
            batchPromises ;;
        results <- account_all results batchResults ;;
        (if (i + batchSize opts <? Z.of_nat (length urlsToProcess))
            && (0 <? delayBetweenBatches opts)
         then sleep (delayBetweenBatches opts)
         else ret tt) ;;;
        batch_loop env schedule opts userId urlsToProcess fuel'
          (i + batchSize opts) results
      else ret results
  end.

(** [processPocketImport(urls, userId, options)], with the default
    [onProgress], which does nothing. *)
Definition processPocketImport (env : Env) (schedule : nat -> nat)
    (fuel : nat) (urls : list UrlData) (userId : jsstring) (opts : Options)
    : M ImportSummary :=
  '(newUrls, duplicates) <- checkForDuplicates env urls userId ;;
  let results :=
    mkSummary (length urls) 0 0 [] (length duplicates)
              (length duplicates) in
  let urlsToProcess := newUrls in
  batch_loop env schedule opts userId urlsToProcess fuel 0 results.

End PocketImport.

(* ================================================================== *)
(** * server.js: the options of [POST /api/pocket/import] *)

Module ImportEndpoint.
Import PocketImport.

(** The property [options] of the request body, for integer values;
    [None] is an absent property. *)
Record RequestOptions := mkRequestOptions {
  r_batchSize : option Z;
  r_delayBetweenBatches : option Z;
  r_delayBetweenRequests : option Z;
  r_maxRetries : option Z
}.

(** [x || d] on an optional number: an absent one and 0 give [d]. *)
Definition or_default (x : option Z) (d : Z) : Z :=
  match x with
  | Some n => if n =? 0 then d else n
  | None => d
  end.

Definition importOptions (options : RequestOptions) : Options :=
  mkOptions (or_default (r_batchSize options) 3)
            (or_default (r_delayBetweenBatches options) 2000)
            (or_default (r_delayBetweenRequests options) 1000)
            (or_default (r_maxRetries options) 2).

(** The import the handler starts after it has answered:
    [processPocketImport(urls, userId, importOptions)]. *)
Definition background_import (env : Env) (schedule : nat -> nat)
    (fuel : nat) (urls : list UrlData) (userId : jsstring)
    (options : RequestOptions) : M ImportSummary :=
  processPocketImport env schedule fuel urls userId (importOptions options).

End ImportEndpoint.

(* ================================================================== *)
(** * server.js: grouping and ranking of [POST /api/search] *)

Module Server.

(** ** Objects used as maps

    The own properties of an object, in creation order.  [Object.values]
    lists the properties whose key is an array index first, in ascending
    numeric order, and the others after them, in creation order. *)
Definition JSObject (V : Type) := list (jsstring * V).

Definition digit (c : code_unit) : option N :=
  if ((48 <=? c) && (c <=? 57))%N then Some (c - 48)%N else None.

Fixpoint parse_digits (s : jsstring) (acc : N) : option N :=
  match s with
  | [] => Some acc
  | c :: s' =>
      match digit c with
      | Some d => parse_digits s' (10 * acc + d)%N
      | None => None
      end
  end.

(** The array index a key denotes: a canonical decimal numeral below
    2^32 - 1. *)
Definition array_index (key : jsstring) : option N :=
  match key with
  | [] => None
  | [48%N] => Some 0%N
  | 48%N :: _ => None
  | _ =>
      match parse_digits key 0 with
      | Some n => if (n <? 4294967295)%N then Some n else None
      | None => None
      end
  end.

Definition is_array_index (key : jsstring) : bool :=
  match array_index key with Some _ => true | None => false end.

Fixpoint get {V} (o : JSObject V) (key : jsstring) : option V :=
  match o with
  | [] => None
  | (k, v) :: o' => if jseqb k key then Some v else get o' key
  end.

(** [o[key] = v]: an existing property keeps its place. *)
Fixpoint set {V} (o : JSObject V) (key : jsstring) (v : V) : JSObject V :=
  match o with
  | [] => [(key, v)]
  | (k, v') :: o' =>
      if jseqb k key then (k, v) :: o' else (k, v') :: set o' key v
  end.

Fixpoint insert_index {V} (n : N) (v : V) (l : list (N * V))
    : list (N * V) :=
  match l with
  | [] => [(n, v)]
  | (m, v') :: l' =>
      if (n <? m)%N then (n, v) :: l else (m, v') :: insert_index n v l'
  end.

Fixpoint index_properties {V} (o : JSObject V) : list (N * V) :=
  match o with
  | [] => []
  | (k, v) :: o' =>
      match array_index k with
      | Some n => insert_index n v (index_properties o')
      | None => index_properties o'
      end
  end.

Definition object_values {V} (o : JSObject V) : list V :=
  map snd (index_properties o)
  ++ map snd (filter (fun kv => negb (is_array_index (fst kv))) o).

(** ** The hits and the groups *)

(** A row returned by [hybridSearchWithSharedEmbeddings]; [None] is an
    absent field.  Identifiers are strings, as every property key is. *)
Record SearchHit := mkHit {
  h_archive_id : option jsstring;
  h_id : option jsstring;
  h_title : jsstring;
  h_description : jsstring;
  h_url : jsstring;
  h_tags : list jsstring;
  h_archived_text : jsstring;
  h_relevance_score : option Q;
  h_similarity : option Q;
  h_match_type : jsstring;
  h_chunk_id : option jsstring;
  h_content : jsstring;
  h_chunk_content : jsstring
}.

Record MatchingChunk := mkMatchingChunk {
  m_content : jsstring;
  m_similarity : Q
}.

Record SearchResultGroup := mkGroup {
  g_id : jsstring;
  g_title : jsstring;
  g_description : jsstring;
  g_url : jsstring;
  g_tags : list jsstring;
  relevance_score : Q;
  snippet : jsstring;
  matching_chunks : list MatchingChunk;
  match_type : jsstring
}.

(** Truthiness of an optional number: absent and zero are falsy. *)
Definition num_truthy (x : option Q) : bool :=
  match x with
  | Some q => negb (Qeq_bool q 0)
  | None => false
  end.

(** [x || 0] on an optional number. *)
Definition num_or_zero (x : option Q) : Q :=
  match x with
  | Some q => if num_truthy x then q else 0%Q
  | None => 0%Q
  end.

(** [result.archive_id || result.id], as a property key. *)
Definition archiveId (result : SearchHit) : jsstring :=
  let id :=
    match h_archive_id result with
    | Some a => if truthy a then Some a else h_id result
    | None => h_id result
    end in
  match id with
  | Some s => s
  | None => js "undefined"
  end.

(** The property names every object literal inherits from
    [Object.prototype]: reading one of them from an object that has no own
    property of that name yields a function or an object, not
    [undefined]. *)
Definition inherited (key : jsstring) : bool :=
  existsb (jseqb key)
    (map js ["constructor"; "__defineGetter__"; "__defineSetter__";
             "hasOwnProperty"; "__lookupGetter__"; "__lookupSetter__";
             "isPrototypeOf"; "propertyIsEnumerable"; "toString";
             "valueOf"; "__proto__"; "toLocaleString"]%string).

(** What [o[key]] reads from an object literal: the value of an own
    property, a value inherited from [Object.prototype], which is truthy
    and has no property of the groups, or [undefined]. *)
Inductive Property (V : Type) :=
| Own (value : V)
| Inherited
| Undefined.
Arguments Own {V} value.
Arguments Inherited {V}.
Arguments Undefined {V}.

Definition read {V} (o : JSObject V) (key : jsstring) : Property V :=
  match get o key with
  | Some v => Own v
  | None => if inherited key then Inherited else Undefined
  end.

(** The answer of the handler: [res.json({ .., results, .. })] or
    [res.status(code).json({ error })]. *)
Inductive Response :=
| Json (results : list SearchResultGroup)
| Error (status : Z) (error : jsstring).

Section Handler.

(** [extractSnippet] produces the text shown; the ranking never reads
    it. *)
Variable extractSnippet : jsstring -> jsstring -> Z -> jsstring.
(** [highlightTerms]: the text with the terms of the query marked, or the
    error it throws when a term of the query is not a regular
    expression. *)
Variable highlightTerms : jsstring -> jsstring -> Outcome jsstring.
(** The supplementary read of the [archives] row of an identifier: the
    hit completed with the row, or [None]. *)
Variable fetch_archive : jsstring -> SearchHit -> option SearchHit.

Variable query : jsstring.

(** The group created for the first hit of an archive. *)
Definition new_group (archiveId : jsstring) (result : SearchHit)
    : Outcome SearchResultGroup :=
  let archiveData :=
    if negb (truthy (h_archived_text result)) then
      match fetch_archive archiveId result with
      | Some data => data
      | None => result
      end
    else result in
  let snippet :=
    extractSnippet
      (orElse (h_archived_text archiveData) (h_description archiveData))
      query 300 in
  and_then (highlightTerms snippet query) (fun highlighted =>
  Ok (mkGroup archiveId
        (orElse (h_title archiveData) (js "Untitled"))
        (h_description archiveData) (h_url archiveData)
        (h_tags archiveData)
        (if num_truthy (h_relevance_score result)
         then num_or_zero (h_relevance_score result)
         else num_or_zero (h_similarity result))
        highlighted
        []
        (orElse (h_match_type result)
           (if num_truthy (h_similarity result)
            then js "semantic" else js "text")))).

(** [if (!groupedResults[archiveId]) { groupedResults[archiveId] = .. }] *)
Definition ensure_group (groupedResults : JSObject SearchResultGroup)
    (result : SearchHit) : Outcome (JSObject SearchResultGroup) :=
  let archiveId := archiveId result in
  match read groupedResults archiveId with
  | Undefined =>
      and_then (new_group archiveId result) (fun group =>
      Ok (set groupedResults archiveId group))
  | _ => Ok groupedResults
  end.

(** [if (result.chunk_id || result.content) { .. push(..) }]: the
    property [matching_chunks] is read before the argument of [push] is
    computed. *)
Definition add_matching_chunk
    (groupedResults : JSObject SearchResultGroup) (result : SearchHit)
    : Outcome (JSObject SearchResultGroup) :=
  let archiveId := archiveId result in
  match h_chunk_id result, truthy (h_content result) with
  | None, false => Ok groupedResults
  | _, _ =>
      let chunkContent :=
        orElse (h_content result) (h_chunk_content result) in
      if truthy chunkContent then
        match read groupedResults archiveId with
        | Own g =>
            and_then (highlightTerms (slice chunkContent 0 200) query)
              (fun content =>
            Ok (set groupedResults archiveId
                  (mkGroup (g_id g) (g_title g) (g_description g) (g_url g)
                     (g_tags g) (relevance_score g) (snippet g)
                     (matching_chunks g ++
                      [mkMatchingChunk content
                         (num_or_zero (h_similarity result))])
                     (match_type g))))
        | Inherited =>
            Throw (js "Cannot read properties of undefined (reading 'push')")
        | Undefined =>
            Throw (js "Cannot read properties of undefined (reading 'matching_chunks')")
        end
      else Ok groupedResults
  end.

(** The body of [for (const result of results)]. *)
Definition group_step (groupedResults : JSObject SearchResultGroup)
    (result : SearchHit) : Outcome (JSObject SearchResultGroup) :=
  and_then (ensure_group groupedResults result) (fun groupedResults =>
  add_matching_chunk groupedResults result).

Definition group_results (results : list SearchHit)
    : Outcome (JSObject SearchResultGroup) :=
  fold_left (fun groupedResults result =>
               and_then groupedResults (fun groupedResults =>
               group_step groupedResults result))
            results (Ok []).

(** The comparator [(a, b) => b.relevance_score - a.relevance_score]. *)
Definition by_relevance (a b : SearchResultGroup) : Q :=
  (relevance_score b - relevance_score a)%Q.

(** [Array.prototype.sort] is stable, and with a consistent comparator
    its result is the one of every stable sort; this one inserts the
    elements from the last to the first, each in front of the first
    element it must not follow. *)
Fixpoint sort_insert {A} (compareFn : A -> A -> Q) (x : A) (l : list A)
    : list A :=
  match l with
  | [] => [x]
  | y :: l' =>
      if Qle_bool (compareFn x y) 0 then x :: l
      else y :: sort_insert compareFn x l'
  end.

Fixpoint sort {A} (compareFn : A -> A -> Q) (l : list A) : list A :=
  match l with
  | [] => []
  | x :: l' => sort_insert compareFn x (sort compareFn l')
  end.

(** [Object.values(groupedResults).sort(..).slice(0, parseInt(limit))]
    for an integer [limit]. *)
Definition finalResults (results : list SearchHit) (limit : Z)
    : Outcome (list SearchResultGroup) :=
  and_then (group_results results) (fun groupedResults =>
  Ok (slice (sort by_relevance (object_values groupedResults)) 0 limit)).

(** The handler of [POST /api/search], for the hits that
    [hybridSearchWithSharedEmbeddings] has returned: it answers 400
    without a query or a user, 500 with the message of an error thrown
    on the way, and the groups otherwise. *)
Definition search (userId : jsstring) (results : list SearchHit)
    (limit : Z) : Outcome Response :=
  if negb (truthy query) || negb (truthy userId)
  then Ok (Error 400 (js "Query and userId are required"))
  else
    match finalResults results limit with
    | Ok finalResults => Ok (Json finalResults)
    | Throw message => Ok (Error 500 message)
    | Diverge => Diverge
    end.

End Handler.

End Server.

(* ================================================================== *)
(** * gemini-embeddings.js: the batch *)

Module GeminiBatch.
Import GeminiEmbeddings.

(** An element of the list [batchProcessEmbeddings] returns:
    [{ archiveId, contentIds, success }]. *)
Record BatchResult := mkBatchResult {
  b_archiveId : row_id;
  b_contentIds : list row_id;
  b_success : bool
}.

(** What reading [contentIds.length] throws when [contentIds] is
    [undefined]. *)
Definition LENGTH_OF_UNDEFINED : jsstring :=
  js "Cannot read properties of undefined (reading 'length')".

(** The loop [for (const archive of archives)] of
    [batchProcessEmbeddings(archives, supabase)], with the results pushed
    so far. *)
Fixpoint batch_results (env : Env) (fuel : nat)
    (archives : list ArchiveRow) (results : list BatchResult)
    : M (list BatchResult) :=
  match archives with
  | [] => ret results
  | archive :: rest =>
      contentIds <- processArchiveWithSharedEmbeddings env fuel archive ;;
      match contentIds with
      | None => throw LENGTH_OF_UNDEFINED
      | Some ids =>
          batch_results env fuel rest
            (results ++ [mkBatchResult (a_id archive) ids
                           (0 <? length ids)%nat])
      end
  end.

Definition batchProcessEmbeddings (env : Env) (fuel : nat)
    (archives : list ArchiveRow) : M (list BatchResult) :=
  batch_results env fuel archives [].

End GeminiBatch.

(* ================================================================== *)
(** * server.js: the snippet of a search result *)

Module Snippet.

Definition SPACE : jsstring := [32%N].
Definition ELLIPSIS : jsstring := js "...".

(** Smallest index from [k] on at which [pat] occurs, or -1; [s] is the
    part of the string that starts at [k]. *)
Fixpoint indexOf_from (s pat : jsstring) (k : nat) : Z :=
  if starts_with pat s then Z.of_nat k
  else match s with
       | [] => -1
       | _ :: s' => indexOf_from s' pat (S k)
       end.

(** [s.indexOf(pat, position)]: the search starts at [position] clamped
    between 0 and the length. *)
Definition indexOf (s pat : jsstring) (position : Z) : Z :=
  let start := Z.to_nat (Z.min (Z.max position 0) (Z.of_nat (length s))) in
  indexOf_from (skipn start s) pat start.

(** [s.includes(pat)] *)
Definition includes (s pat : jsstring) : bool := 0 <=? indexOf s pat 0.

(** [s.split(/\s+/)]: the pieces between the runs of white space; a run
    at either end leaves an empty piece there.  [piece] holds the current
    piece in reverse, [in_run] tells that the last code unit was white
    space. *)
Fixpoint split_loop (s : jsstring) (piece : jsstring) (in_run : bool)
    : list jsstring :=
  match s with
  | [] => [rev piece]
  | c :: s' =>
      if is_space c
      then if in_run then split_loop s' [] true
           else rev piece :: split_loop s' [] true
      else split_loop s' (c :: piece) false
  end.

Definition split_spaces (s : jsstring) : list jsstring :=
  split_loop s [] false.

(** The values of [i] in
    [for (let i = 0; i < text.length - 100; i += 50)]. *)
Definition positions (len : Z) : list Z :=
  map (fun j => 50 * Z.of_nat j)
      (seq 0 (Z.to_nat ((len - 100 + 49) / 50))).

Section Snippet.

(** [String.prototype.toLowerCase], the case mapping of Unicode. *)
Variable toLowerCase : jsstring -> jsstring.

(** [query.toLowerCase().split(/\s+/).filter(t => t.length > 2)] *)
Definition queryTerms (query : jsstring) : list jsstring :=
  filter (fun t => (2 <? length t)%nat) (split_spaces (toLowerCase query)).

(** [queryTerms.reduce((acc, term) =>
       acc + (window.includes(term) ? 1 : 0), 0)] *)
Definition score (terms : list jsstring) (window : jsstring) : Z :=
  fold_left (fun acc term => acc + (if includes window term then 1 else 0))
            terms 0.

(** The loop that looks for the best position: the state is
    [(bestPos, bestScore)]. *)
Definition best (terms : list jsstring) (textLower : jsstring)
    (maxLength len : Z) : Z * Z :=
  fold_left
    (fun st i =>
       let window := slice textLower i (i + maxLength) in
       let sc := score terms window in
       if snd st <? sc then (i, sc) else st)
    (positions len) (0, 0).

(** [extractSnippet(text, query, maxLength)] *)
Definition extractSnippet (text query : jsstring) (maxLength : Z)
    : jsstring :=
  if negb (truthy text) then []
  else
    let terms := queryTerms query in
    let textLower := toLowerCase text in
    let len := Z.of_nat (length text) in
    let bestPos := fst (best terms textLower maxLength len) in
    let start := Z.max 0 (bestPos - 50) in
    let end_ := Z.min len (start + maxLength) in
    let start :=
      if 0 <? start then
        let spacePos := indexOf text SPACE start in
        if negb (spacePos =? -1) && (spacePos <? start + 20)
        then spacePos + 1 else start
      else start in
    let end_ :=
      if end_ <? len then
        let spacePos := lastIndexOf text SPACE end_ in
        if negb (spacePos =? -1) && (end_ - 20 <? spacePos)
        then spacePos else end_
      else end_ in
    let snippet := trim (slice text start end_) in
    let snippet := if 0 <? start then ELLIPSIS ++ snippet else snippet in
    let snippet := if end_ <? len then snippet ++ ELLIPSIS else snippet in
    snippet.

End Snippet.

Section Highlight.

(** [new RegExp(pattern, 'gi')]: the message of the [SyntaxError] it
    throws for a pattern that is not a regular expression, if any. *)
Variable RegExp_error : jsstring -> option jsstring.
(** [text.replace(new RegExp(pattern, 'gi'), '**$1**')], for a pattern
    that is a regular expression. *)
Variable replace : jsstring -> jsstring -> jsstring.

(** The body of [terms.forEach(term => { .. })]: the term is put in the
    pattern as it is. *)
Definition highlight_term (highlighted : Outcome jsstring)
    (term : jsstring) : Outcome jsstring :=
  and_then highlighted (fun highlighted =>
  let pattern := js "(" ++ term ++ js ")" in
  match RegExp_error pattern with
  | Some message => Throw message
  | None => Ok (replace pattern highlighted)
  end).

(** [highlightTerms(text, query)] *)
Definition highlightTerms (text query : jsstring) : Outcome jsstring :=
  if negb (truthy text) || negb (truthy query) then Ok text
  else
    let terms :=
      filter (fun t => (2 <? length t)%nat) (split_spaces query) in
    fold_left highlight_term terms (Ok text).

End Highlight.

End Snippet.

(* ================================================================== *)
(** * server.js and dedupe-archives.js: the removal of duplicates *)

Module Dedupe.
Import Server.

(** [Object.keys(o)]: the keys that are array indices first, in ascending
    numeric order, then the others in creation order. *)
Definition object_keys {V} (o : JSObject V) : list jsstring :=
  map (fun entry => fst (snd entry))
      (index_properties (map (fun kv => (fst kv, kv)) o))
  ++ map fst (filter (fun kv => negb (is_array_index (fst kv))) o).

(** The body of [archives.forEach(archive => { .. })]:
    [if (!urlGroups[archive.url]) urlGroups[archive.url] = []] and
    [urlGroups[archive.url].push(archive)]. *)
Definition group_step (urlGroups : JSObject (list ArchiveRow))
    (archive : ArchiveRow) : JSObject (list ArchiveRow) :=
  let urlGroups :=
    match get urlGroups (a_url archive) with
    | Some _ => urlGroups
    | None => set urlGroups (a_url archive) []
    end in
  match get urlGroups (a_url archive) with
  | Some group => set urlGroups (a_url archive) (group ++ [archive])
  | None => urlGroups
  end.

Definition group_by_url (archives : list ArchiveRow)
    : JSObject (list ArchiveRow) :=
  fold_left group_step archives [].

(** The ids marked for deletion: for every url with more than one
    archive, all its archives but the first. *)
Definition idsToDelete (urlGroups : JSObject (list ArchiveRow))
    : list row_id :=
  let duplicateUrls :=
    filter (fun url =>
              match get urlGroups url with
              | Some group => (1 <? length group)%nat
              | None => false
              end)
           (object_keys urlGroups) in
  flat_map (fun url =>
              match get urlGroups url with
              | Some duplicates => map a_id (skipn 1 duplicates)
              | None => []
              end)
           duplicateUrls.

(** [from('archives').delete().in('id', batch)]: the error, if any. *)
Definition delete_archives_in (env : Env) (batch : list row_id)
    : M (option jsstring) :=
  t <- tick ;;
  w <- get_world ;;
  match store_error env t with
  | Some e => ret (Some e)
  | None =>
      set_archives
        (filter (fun r => negb (existsb (Pos.eqb (a_id r)) batch))
                (archives w)) ;;;
      ret None
  end.

(** [from('archives').select('*', { count: 'exact', head: true })
     .eq('user_id', userId)]: the count, or [None] for the [null] of a
    failed call. *)
Definition count_archives_of (env : Env) (userId : jsstring)
    : M (option nat) :=
  t <- tick ;;
  w <- get_world ;;
  match store_error env t with
  | Some _ => ret None
  | None =>
      ret (Some (length (filter (fun r => jseqb (a_user_id r) userId)
                                (archives w))))
  end.

(** The loop that deletes in batches of 100; its step is constant, so
    [length idsToDelete] iterations are always enough. *)
Fixpoint delete_batches (env : Env) (idsToDelete : list row_id)
    (fuel : nat) (i : Z) (deleted : nat) : M nat :=
  match fuel with
  | O => ret deleted
  | S fuel' =>
      if i <? Z.of_nat (length idsToDelete) then
        let batchSize := 100 in
        let batch := slice idsToDelete i (i + batchSize) in
        deleteError <- delete_archives_in env batch ;;
        match deleteError with
        | Some _ =>
            delete_batches env idsToDelete fuel' (i + batchSize) deleted
        | None =>
            delete_batches env idsToDelete fuel' (i + batchSize)
              (deleted + length batch)
        end
      else ret deleted
  end.

(** The answers of the endpoint [/api/admin/dedupe] to an administrator:
    [{ message: 'No duplicates found', totalArchives, duplicatesRemoved: 0 }],
    [{ message: 'Deduplication complete', originalCount,
       duplicatesRemoved, finalCount }] and the answer with status 500. *)
Inductive Response :=
| NoDuplicates (totalArchives : nat)
| Complete (originalCount duplicatesRemoved : nat)
           (finalCount : option nat)
| ServerError (message : jsstring).

Section Dedupe.

(** The order in which the store returns rows for
    [.order('created_at', { ascending: true })]. *)
Variable by_created_at : list ArchiveRow -> list ArchiveRow.

(** [from('archives').select('id, url, title, created_at')
     .eq('user_id', userId).order('created_at', { ascending: true })] *)
Definition select_archives_of (env : Env) (userId : jsstring)
    : M (Answer (list ArchiveRow)) :=
  t <- tick ;;
  w <- get_world ;;
  match store_error env t with
  | Some e => ret (None, Some e)
  | None =>
      ret (Some (by_created_at
                   (filter (fun r => jseqb (a_user_id r) userId)
                           (archives w))),
           None)
  end.

(** The handler of [/api/admin/dedupe] from the query of the archives on,
    that is for a user whose profile says [is_admin];
    [findAndRemoveDuplicates] of [dedupe-archives.js] runs the same
    steps. *)
Definition dedupe (env : Env) (userId : jsstring) : M Response :=
  try_catch
    ('(archives, error) <- select_archives_of env userId ;;
     match error, archives with
     | Some e, _ => throw e
     | None, None =>
         throw (js "Cannot read properties of null (reading 'length')")
     | None, Some archives =>
         let urlGroups := group_by_url archives in
         let idsToDelete := idsToDelete urlGroups in
         if (length idsToDelete =? 0)%nat
         then ret (NoDuplicates (length archives))
         else
           deleted <-
             delete_batches env idsToDelete (length idsToDelete) 0 0 ;;
           finalCount <- count_archives_of env userId ;;
           ret (Complete (length archives) deleted finalCount)
     end)
    (fun message => ret (ServerError message)).

End Dedupe.

End Dedupe.

(* ================================================================== *)
(** * pocket-import.js: the CSV export *)

Module PocketCSV.
Import PocketImport.

Definition LINE_FEED : code_unit := 10%N.
Definition COMMA : code_unit := 44%N.

(** [s.split(sep)] for a separator of one code unit: the pieces between
    the separators; [piece] holds the current piece in reverse. *)
Fixpoint split_on (sep : code_unit) (s : jsstring) (piece : jsstring)
    : list jsstring :=
  match s with
  | [] => [rev piece]
  | c :: s' =>
      if N.eqb c sep then rev piece :: split_on sep s' []
      else split_on sep s' (c :: piece)
  end.

Definition split (s : jsstring) (sep : code_unit) : list jsstring :=
  split_on sep s [].

(** A row as [csv-parser] hands it to the ['data'] handler, with the
    columns the handler reads for the entries of the importer; [None] is
    a column the row does not have. *)
Record CsvRow := mkCsvRow {
  f_url : option jsstring;
  f_title : option jsstring;
  f_tags : option jsstring
}.

(** The ['data'] handler of [parsePocketCSV], for the fields of an entry
    that the importer reads. *)
Definition on_data (results : list UrlData) (data : CsvRow)
    : list UrlData :=
  match f_url data with
  | Some url =>
      if truthy url && negb (jseqb url (js "URL"))
         && starts_with (js "http") url
      then
        results ++
        [mkUrlData (trim url)
           (match f_title data with
            | Some title => if truthy title then trim title else []
            | None => []
            end)
           (match f_tags data with
            | Some tags =>
                if truthy tags
                then filter truthy (map trim (split tags COMMA))
                else []
            | None => []
            end)]
      else results
  | None => results
  end.

(** What [parsePocketCSV] resolves to for the rows of the parser. *)
Definition parsed (rows : list CsvRow) : list UrlData :=
  fold_left on_data rows [].

Definition EMPTY_FILE : jsstring :=
  js "CSV file appears to be empty or has no data rows".
Definition NOT_AN_EXPORT : jsstring :=
  js "CSV file does not appear to be a Pocket export"
  ++ js " (missing URL and Title columns)".
Definition NO_URLS : jsstring := js "No valid URLs found in CSV file".

Section Validate.

(** [String.prototype.toLowerCase], the case mapping of Unicode. *)
Variable toLowerCase : jsstring -> jsstring.

(** [validatePocketCSV(csvContent)]: the message of the error thrown, or
    the value returned. *)
Definition validatePocketCSV (csvContent : jsstring) : jsstring + bool :=
  let lines := split csvContent LINE_FEED in
  if (length lines <? 2)%nat then inl EMPTY_FILE
  else
    let header := toLowerCase (nth 0 lines []) in
    if negb (Snippet.includes header (js "url"))
       || negb (Snippet.includes header (js "title"))
    then inl NOT_AN_EXPORT
    else
      let validUrls :=
        fold_left
          (fun validUrls i =>
             let line := nth i lines [] in
             if truthy line && Snippet.includes line (js "http")
             then S validUrls else validUrls)
          (seq 1 (Nat.min (length lines) 10 - 1)) O in
      if (validUrls =? 0)%nat then inl NO_URLS else inr true.

End Validate.

End PocketCSV.

(* ================================================================== *)
(** * Inputs used in the examples *)

Definition spaces (n : nat) : jsstring := repeat 32%N n.

Definition letters (n : nat) : jsstring := repeat 97%N n.

(** What [chunkText("abcdefghij", 20, 2)] returns. *)
Definition ten_letters_chunks : list Chunk :=
  [mkChunk (js "abcdefghij") 0; mkChunk (js "ij") 1;
   mkChunk (js "ij") 2; mkChunk (js "ij") 3].

(** The worlds and collaborators of the examples. *)
Definition empty_world : World := mkWorld [] [] [] 0 [].

Definition alice : jsstring := js "alice".
Definition bob : jsstring := js "bob".

Definition url_a : jsstring := js "http://a.example/".
Definition url_b : jsstring := js "http://b.example/".
Definition url_c : jsstring := js "http://c.example/".

Definition page : Extracted :=
  mkExtracted (js "A page") (js "About it") (js "<p>Text</p>")
    (js "Text of the page") None (Some (js "firecrawl")) 4 1.

(** Every collaborator answers, and every page can be extracted. *)
Definition env_ok : Env :=
  mkEnv (fun _ _ => Some page) (fun _ _ _ => inl page) (fun _ => None)
        true (fun _ _ => Some [1 # 2]) (fun s => s).

(** No page can be extracted, at any time. *)
Definition env_no_extraction : Env :=
  mkEnv (fun _ _ => None) (fun _ _ _ => inr (js "HTTP 500"))
        (fun _ => None) true (fun _ _ => Some [1 # 2]) (fun s => s).

(** Extraction fails until the clock reaches [n] and succeeds from then
    on. *)
Definition env_extraction_from (n : nat) : Env :=
  mkEnv (fun t _ => if Nat.ltb t n then None else Some page)
        (fun _ _ _ => inr (js "HTTP 500"))
        (fun _ => None) true (fun _ _ => Some [1 # 2]) (fun s => s).

(** The store fails the calls made before the clock reaches [n]. *)
Definition env_store_down_until (n : nat) : Env :=
  mkEnv (fun _ _ => Some page) (fun _ _ _ => inl page)
        (fun t => if Nat.ltb t n then Some (js "fetch failed") else None)
        true (fun _ _ => Some [1 # 2]) (fun s => s).

(** The store fails every call. *)
Definition env_store_down : Env :=
  mkEnv (fun _ _ => Some page) (fun _ _ _ => inl page)
        (fun _ => Some (js "fetch failed"))
        true (fun _ _ => Some [1 # 2]) (fun s => s).

(** The embedding provider is configured and never answers. *)
Definition env_no_embedding : Env :=
  mkEnv (fun _ _ => Some page) (fun _ _ _ => inl page) (fun _ => None)
        true (fun _ _ => None) (fun s => s).

Definition archive_of (id : row_id) (user_id url : jsstring) : ArchiveRow :=
  mkArchiveRow id user_id url (js "A page") (js "About it")
    (js "<p>Text</p>") (js "Text of the page") None (js "firecrawl") 4 1 [].

(** A table of three rows. *)
Definition three_rows : list PocketImport.UrlData :=
  [PocketImport.mkUrlData url_a (js "A") [];
   PocketImport.mkUrlData url_b (js "B") [js "news"];
   PocketImport.mkUrlData url_c (js "C") []].

(** The archive of [url_a] of a user, and a world that holds alice's. *)
Definition archive_a (id : row_id) (user_id : jsstring) : ArchiveRow :=
  archive_of id user_id url_a.

Definition world_archived : World :=
  mkWorld [archive_a 1%positive alice] [] [] 0 [].

(** A content row for the chunk "Text" of [url_a], and a world whose
    content store holds it. *)
Definition stored_row : ContentRow :=
  mkContentRow 7%positive
    (GeminiEmbeddings.hashContent env_ok url_a (js "Text"))
    url_a (js "A page") 0 (js "Text") [1 # 2].

Definition world_stored : World := mkWorld [] [stored_row] [] 0 [].

(** A world in which alice has archived [url_a]. *)
Definition world_a : World :=
  mkWorld [archive_of 1%positive alice url_a] [] [] 0 [].

(* ------------------------------------------------------------------ *)
(** ** What the collaborators answer *)

(** The row the existence check of [archiveSinglePage] obtains in a
    world. *)
Definition existing_archive (env : Env) (userId url : jsstring) (w : World)
    : option ArchiveRow :=
  match store_error env (clock w) with
  | Some _ => None
  | None => fst (single (filter (archive_matches userId url) (archives w)))
  end.

(** What an extraction started at clock [t] ends with, a page or the
    message of the error, and the clock after it. *)
Definition extraction_answer (env : Env) (url originalTitle : jsstring)
    (t : nat) : (Extracted + jsstring) * nat :=
  match extractWithFirecrawl env t url with
  | Some firecrawlResult => (inl firecrawlResult, S t)
  | None =>
      match fallback_page env (S t) url originalTitle with
      | inl p =>
          (inl (mkExtracted (x_title p) (x_description p) (x_html p)
                  (x_text p) (x_markdown p) (Some (js "puppeteer-fallback"))
                  (x_wordCount p) (x_readingTime p)),
           S (S t))
      | inr message =>
          (inr (js "Failed to extract content: "
                ++ js "Fallback extraction failed: " ++ message),
           S (S t))
      end
  end.

(** The row [archiveSinglePage] inserts for a page. *)
Definition row_for (userId url originalTitle : jsstring)
    (tags : list jsstring) (archivedData : Extracted) (id : row_id)
    : ArchiveRow :=
  mkArchiveRow id userId url
    (if negb (truthy (x_title archivedData))
        || jseqb (x_title archivedData) PocketImport.UNTITLED
     then orElse originalTitle PocketImport.UNTITLED
     else x_title archivedData)
    (x_description archivedData) (x_html archivedData)
    (x_text archivedData) (x_markdown archivedData)
    (match x_extractionMethod archivedData with
     | Some m => orElse m (js "firecrawl")
     | None => js "firecrawl"
     end)
    (x_wordCount archivedData) (x_readingTime archivedData) tags.

Definition info_of (r : ArchiveRow) : PocketImport.ArchiveInfo :=
  PocketImport.mkArchiveInfo (a_id r) (a_url r) (a_title r)
    (a_description r).

(** The number of extraction attempts and the pauses in a trace. *)
Definition extraction_attempts (url : jsstring) (tr : list Event) : nat :=
  length (filter (fun e => match e with
                           | EvExtract u => jseqb u url
                           | _ => false
                           end) tr).

Definition pauses (tr : list Event) : list Z :=
  flat_map (fun e => match e with EvSleep ms => [ms] | _ => [] end) tr.

Definition embed_calls (tr : list Event) : nat :=
  length (filter (fun e => match e with EvEmbed _ => true | _ => false end)
                 tr).

(* ------------------------------------------------------------------ *)
(** ** Runs of the importer *)

(** The summary after the result of one more item, as the loop over
    [batchResults] computes it. *)
Definition account_result (results : PocketImport.ImportSummary)
    (result : PocketImport.ItemResult) : PocketImport.ImportSummary :=
  PocketImport.mkSummary
    (PocketImport.s_total results)
    (if PocketImport.success result && negb (PocketImport.skipped result)
     then PocketImport.s_successful results + 1
     else PocketImport.s_successful results)
    (if PocketImport.success result
     then PocketImport.s_failed results
     else PocketImport.s_failed results + 1)
    (PocketImport.s_results results ++ [result])
    (PocketImport.s_duplicates results)
    (if PocketImport.success result && PocketImport.skipped result
     then PocketImport.s_skipped results + 1
     else PocketImport.s_skipped results).

(** The items of a summary that have been counted. *)
Definition counted (s : PocketImport.ImportSummary) : nat :=
  PocketImport.s_successful s + PocketImport.s_failed s
  + PocketImport.s_skipped s.

(** The user has a row for the url. *)
Definition archived_for (userId url : jsstring) (rows : list ArchiveRow)
    : Prop :=
  exists row, In row rows /\ archive_matches userId url row = true.

(** Whether the user has a row for the url. *)
Definition is_archived (userId : jsstring) (rows : list ArchiveRow)
    (url : jsstring) : bool :=
  existsb (archive_matches userId url) rows.

(** No user has two rows for one url. *)
Definition unique_archives (rows : list ArchiveRow) : Prop :=
  forall userId url,
    (length (filter (archive_matches userId url) rows) <= 1)%nat.

(** The world after a call that only moves the clock. *)
Definition tick_world (w : World) : World :=
  mkWorld (archives w) (content_embeddings w) (user_content w)
          (S (clock w)) (trace w).

(** The store answers every call. *)
Definition store_answers (env : Env) : Prop :=
  forall t, store_error env t = None.

(** The world after a pause. *)
Definition sleep_world (ms : Z) (w : World) : World :=
  mkWorld (archives w) (content_embeddings w) (user_content w) (clock w)
          (trace w ++ [EvSleep ms]).

(** How far an item of a batch has come: the call it waits for is its
    existence check, its extraction, its fallback or its insert, or it
    has its result. *)
Inductive Progress :=
| ToCheck
| ToExtract
| ToFetch
| ToInsert (archivedData : Extracted)
| Done (result : PocketImport.ItemResult).

Definition is_done (p : Progress) : bool :=
  match p with
  | Done _ => true
  | _ => false
  end.

(** The calls an item still waits for, at most. *)
Definition calls_left (p : Progress) : nat :=
  match p with
  | ToCheck => 4
  | ToExtract => 3
  | ToFetch => 2
  | ToInsert _ => 1
  | Done _ => 0
  end.

(** The world after an extraction has been asked for. *)
Definition asked_world (url : jsstring) (w : World) : World :=
  mkWorld (archives w) (content_embeddings w) (user_content w)
          (S (clock w)) (trace w ++ [EvExtract url]).

(** The world after a row has been inserted. *)
Definition inserted_world (row : ArchiveRow) (w : World) : World :=
  mkWorld (archives w ++ [row]) (content_embeddings w) (user_content w)
          (S (clock w))
          (trace w ++ [EvInsertArchive (a_user_id row) (a_url row)]).

(** The page the fallback yields, as [archivePageWithFirecrawl] returns
    it. *)
Definition fallback_result (p : Extracted) : Extracted :=
  mkExtracted (x_title p) (x_description p) (x_html p) (x_text p)
    (x_markdown p) (Some (js "puppeteer-fallback")) (x_wordCount p)
    (x_readingTime p).

(** An item and the world after the call the item waits for has been
    answered. *)
Definition advance (env : Env) (userId : jsstring)
    (u : PocketImport.UrlData) (p : Progress) (w : World)
    : Progress * World :=
  match p with
  | ToCheck =>
      (match existing_archive env userId (PocketImport.u_url u) w with
       | Some existing =>
           Done (PocketImport.Skipped
                   (PocketImport.mkArchiveInfo (a_id existing)
                      (a_url existing) (a_title existing)
                      (js "Already archived")))
       | None => ToExtract
       end,
       tick_world w)
  | ToExtract =>
      (match extractWithFirecrawl env (clock w) (PocketImport.u_url u) with
       | Some archivedData => ToInsert archivedData
       | None => ToFetch
       end,
       asked_world (PocketImport.u_url u) w)
  | ToFetch =>
      (match fallback_page env (clock w) (PocketImport.u_url u)
               (PocketImport.u_title u) with
       | inl page => ToInsert (fallback_result page)
       | inr message =>
           Done (PocketImport.Failed (PocketImport.u_url u)
                   (js "Failed to extract content: "
                    ++ js "Fallback extraction failed: " ++ message))
       end,
       tick_world w)
  | ToInsert archivedData =>
      match store_error env (clock w) with
      | Some e =>
          (Done (PocketImport.Failed (PocketImport.u_url u) e), tick_world w)
      | None =>
          let row :=
            row_for userId (PocketImport.u_url u) (PocketImport.u_title u)
              (PocketImport.u_tags u) archivedData
              (fresh_id a_id (archives w)) in
          (Done (PocketImport.Archived (info_of row)), inserted_world row w)
      end
  | Done result => (Done result, w)
  end.

(** The insert of [archiveSinglePage] for a page, and its [catch]. *)
Definition insert_page (env : Env) (userId : jsstring)
    (u : PocketImport.UrlData) (archivedData : Extracted)
    : Task PocketImport.ItemResult :=
  ('(archive, insertError) <-
      await (insert_archive env
               (row_for userId (PocketImport.u_url u)
                  (PocketImport.u_title u) (PocketImport.u_tags u)
                  archivedData)) ;;
   match insertError, archive with
   | Some e, _ => Raised e
   | None, Some archive =>
       Finished (PocketImport.Archived (info_of archive))
   | None, None =>
       Raised (js "Cannot read properties of null (reading 'id')")
   end)%task.

Definition caught (u : PocketImport.UrlData)
    (t : Task PocketImport.ItemResult) : Task PocketImport.ItemResult :=
  task_try t
    (fun message =>
       Finished (PocketImport.Failed (PocketImport.u_url u) message)).

(** [archiveSinglePage] for an item, from the point the item has
    reached. *)
Definition attempt_from (env : Env) (userId : jsstring)
    (u : PocketImport.UrlData) (p : Progress)
    : Task PocketImport.ItemResult :=
  match p with
  | ToCheck =>
      PocketImport.Async.archiveSinglePage env (PocketImport.u_url u)
        userId (PocketImport.u_title u) (PocketImport.u_tags u)
  | ToExtract =>
      caught u
        (archivedData <-
           FirecrawlExtractor.Async.archivePageWithFirecrawl env
             (PocketImport.u_url u)
             (PocketImport.Async.puppeteerFallback env
                (PocketImport.u_title u)) ;;
         insert_page env userId u archivedData)%task
  | ToFetch =>
      caught u
        (archivedData <-
           task_try
             (puppeteerResult <-
                PocketImport.Async.puppeteerFallback env
                  (PocketImport.u_title u) (PocketImport.u_url u) ;;
              Finished (fallback_result puppeteerResult))
             (fun message =>
                Raised (js "Failed to extract content: " ++ message)) ;;
         insert_page env userId u archivedData)%task
  | ToInsert archivedData => caught u (insert_page env userId u archivedData)
  | Done result => Finished result
  end.

(** The [catch] of the loop around [archiveSinglePage], in its first
    pass. *)
Definition retry_handler (env : Env) (opts : PocketImport.Options)
    (userId : jsstring) (u : PocketImport.UrlData) (message : jsstring)
    : Task (option PocketImport.ItemResult) :=
  let retries := 0 + 1 in
  if retries <=? PocketImport.maxRetries opts then
    (_ <- await (sleep (PocketImport.delayBetweenRequests opts * retries)) ;;
     PocketImport.retry_loop env opts userId u
       (S (Z.to_nat (PocketImport.maxRetries opts))) retries None)%task
  else
    PocketImport.retry_loop env opts userId u
      (S (Z.to_nat (PocketImport.maxRetries opts))) retries
      (Some (PocketImport.Failed (PocketImport.u_url u) message)).

(** The promise of an item of a batch that has come to a point of its
    first attempt. *)
Definition promise_of (env : Env) (userId : jsstring)
    (handler : jsstring -> Task (option PocketImport.ItemResult))
    (item : PocketImport.UrlData * Progress)
    : Task (PocketImport.UrlData * option PocketImport.ItemResult) :=
  (result <-
     task_try
       (r <- attempt_from env userId (fst item) (snd item) ;;
        Finished (Some r))
       handler ;;
   Finished (fst item, result))%task.

(** The items of a batch when the batch is started, and when all have
    their results. *)
Definition unstarted (items : list PocketImport.UrlData)
    : list (PocketImport.UrlData * Progress) :=
  map (fun u => (u, ToCheck)) items.

Definition settled_with (items : list PocketImport.UrlData)
    (rs : list PocketImport.ItemResult)
    : list (PocketImport.UrlData * Progress) :=
  combine items (map Done rs).

(** The promises of the items of a batch, the number of items that have
    not their result yet, and the calls the items still wait for, at
    most. *)
Definition promises (env : Env) (userId : jsstring)
    (handler : PocketImport.UrlData -> jsstring
               -> Task (option PocketImport.ItemResult))
    (items : list (PocketImport.UrlData * Progress))
    : list (Task (PocketImport.UrlData * option PocketImport.ItemResult)) :=
  map (fun item => promise_of env userId (handler (fst item)) item) items.

Definition waiting (items : list (PocketImport.UrlData * Progress)) : nat :=
  length (filter (fun item => negb (is_done (snd item))) items).

Definition calls_of (items : list (PocketImport.UrlData * Progress))
    : nat :=
  list_sum (map (fun item => calls_left (snd item)) items).

(** An item for which an extraction has been asked for, and an item
    whose row has been inserted. *)
Definition asked (p : Progress) : bool :=
  match p with
  | ToCheck | ToExtract | Done (PocketImport.Skipped _) => false
  | _ => true
  end.

Definition stored (p : Progress) : bool :=
  match p with
  | Done (PocketImport.Archived _) => true
  | _ => false
  end.

(** The number of items that have come to a point. *)
Definition count_at (at_point : Progress -> bool)
    (items : list (PocketImport.UrlData * Progress)) : nat :=
  length (filter (fun item => at_point (snd item)) items).

(** An item whose existence check has found no row and whose row has not
    been inserted; and an item whose calls have all been answered well so
    far. *)
Definition in_flight (p : Progress) : bool :=
  match p with
  | ToExtract | ToFetch | ToInsert _ => true
  | _ => false
  end.

Definition on_track (p : Progress) : bool :=
  match p with
  | ToCheck | ToExtract | ToInsert _ | Done (PocketImport.Archived _) => true
  | _ => false
  end.

(** The extraction service returns a page whenever it is asked. *)
Definition extraction_answers (env : Env) : Prop :=
  forall t url, extractWithFirecrawl env t url <> None.

(** [run_steps env userId items w items' w']: from world [w], calls of
    the items are answered in some order, with pauses in between, and
    leave the items at [items'] and the world at [w']. *)
Inductive run_steps (env : Env) (userId : jsstring)
    : list (PocketImport.UrlData * Progress) -> World
      -> list (PocketImport.UrlData * Progress) -> World -> Prop :=
| steps_none items w : run_steps env userId items w items w
| steps_call pre u p post w items' w' :
    is_done p = false ->
    run_steps env userId
      (pre ++ (u, fst (advance env userId u p w)) :: post)
      (snd (advance env userId u p w)) items' w' ->
    run_steps env userId (pre ++ (u, p) :: post) w items' w'
| steps_pause ms items w items' w' :
    run_steps env userId items (sleep_world ms w) items' w' ->
    run_steps env userId items w items' w'.

(** [items_run env userId items w rs w']: from world [w], the items are
    archived, their calls answered in some order, with pauses in
    between, giving the results [rs], in the order of the items, and
    leaving world [w']. *)
Definition items_run (env : Env) (userId : jsstring)
    (items : list PocketImport.UrlData) (w : World)
    (rs : list PocketImport.ItemResult) (w' : World) : Prop :=
  length rs = length items
  /\ run_steps env userId (unstarted items) w (settled_with items rs) w'.

(** Schedules: the first pending promise is always served, so the items
    are taken one after the other; or the pending promises are served in
    turn. *)
Definition one_by_one : nat -> nat := fun _ => O.

Definition in_turn : nat -> nat := fun t => Nat.modulo t 2.

(* ------------------------------------------------------------------ *)
(** ** The content store *)

(** The rows of the content store with the identity of a chunk of a
    document of the given url. *)
Definition content_rows (env : Env) (url : jsstring) (chunk : Chunk)
    (rows : list ContentRow) : list ContentRow :=
  filter (content_matches
            (GeminiEmbeddings.hashContent env url (content chunk))
            (index chunk))
         rows.

(** The row the look-up of the pipeline obtains for a chunk. *)
Definition existing_content (env : Env) (url : jsstring) (chunk : Chunk)
    (w : World) : option ContentRow :=
  match store_error env (clock w) with
  | Some _ => None
  | None => fst (single (content_rows env url chunk (content_embeddings w)))
  end.

(** No identity has two rows. *)
Definition unique_content (rows : list ContentRow) : Prop :=
  forall content_hash chunk_index,
    (length (filter (content_matches content_hash chunk_index) rows)
     <= 1)%nat.


(** The link the pipeline writes for a content row. *)
Definition link_of (archive : ArchiveRow) (id : row_id) : LinkRow :=
  mkLinkRow (a_user_id archive) id (a_id archive) (a_tags archive).

(* ------------------------------------------------------------------ *)
(** ** The search results *)

(** The comparator [(a, b) => score(b) - score(a)]. *)
Definition descending {A : Type} (score : A -> Q) (a b : A) : Q :=
  (score b - score a)%Q.

(** The keys in the order in which they are first seen. *)
Definition first_seen (keys : list jsstring) : list jsstring :=
  fold_left (fun seen k =>
               if existsb (fun k' => jseqb k' k) seen then seen
               else seen ++ [k])
            keys [].

(** [a] may stand before [b] in a ranking by decreasing relevance. *)
Definition ranks_before (a b : Server.SearchResultGroup) : Prop :=
  (Server.relevance_score b <= Server.relevance_score a)%Q.

(** The groups of a list whose relevance is [q]. *)
Definition with_score (q : Q) (groups : list Server.SearchResultGroup)
    : list Server.SearchResultGroup :=
  filter (fun g => Qeq_bool (Server.relevance_score g) q) groups.

(** A hit of an archive with a relevance. *)
Definition hit (id : string) (score : Q) : Server.SearchHit :=
  Server.mkHit (Some (js id)) None (js "A page") (js "About it")
    (js "http://a.example/") [] (js "Text of the page") (Some score) None
    (js "text") None [] [].

(** Hits of three archives with names for identifiers, and hits of two
    archives with numbers for identifiers. *)
Definition named_hits : list Server.SearchHit :=
  [hit "b" (1 # 2); hit "a" (1 # 2); hit "c" (3 # 4); hit "b" (9 # 10)].

Definition numbered_hits : list Server.SearchHit :=
  [hit "2" (1 # 2); hit "1" (1 # 2)].

Definition no_snippet (text query : jsstring) (maxLength : Z) : jsstring :=
  [].

(** A regular expression engine that accepts every pattern and marks
    nothing, one that rejects one pattern, and [highlightTerms] with
    them. *)
Definition every_pattern (pattern : jsstring) : option jsstring := None.

Definition all_but (rejected message pattern : jsstring)
    : option jsstring :=
  if jseqb pattern rejected then Some message else None.

Definition no_marks (pattern text : jsstring) : jsstring := text.

Definition no_highlight : jsstring -> jsstring -> Outcome jsstring :=
  Snippet.highlightTerms every_pattern no_marks.

Definition no_fetch (id : jsstring) (result : Server.SearchHit)
    : option Server.SearchHit := None.

(* ------------------------------------------------------------------ *)
(** ** Accounting of a run *)

(** The url a result is about. *)
Definition result_url (r : PocketImport.ItemResult) : jsstring :=
  match r with
  | PocketImport.Skipped archive => PocketImport.i_url archive
  | PocketImport.Archived archive => PocketImport.i_url archive
  | PocketImport.Failed url _ => url
  end.

(** Whether a result is the one of a row that was created. *)
Definition created (r : PocketImport.ItemResult) : bool :=
  PocketImport.success r && negb (PocketImport.skipped r).

(** The number of calls of the extraction collaborator in a trace. *)
Definition extractions (tr : list Event) : nat :=
  length (filter (fun e => match e with EvExtract _ => true | _ => false end)
                 tr).

(** The number of batches of width [batchSize] in [n] items. *)
Definition batches (n : nat) (batchSize : Z) : Z :=
  (Z.of_nat n + batchSize - 1) / batchSize.

(** A number of passes that is enough for the loop of the chunker of
    [gemini-embeddings.js] to end from a position with [k] chunks, for a
    text of [len] code units that does not end in white space and an
    overlap of at least 1 and at most half the chunk size. *)
Definition gemini_budget (len overlap position : Z) (k : nat) : Z :=
  if len <=? position then 1
  else if position <? len - overlap
       then len - overlap - position + len + 3
       else if position =? len - overlap
            then Z.max 0 (len - Z.of_nat k) + 2
            else Z.max 0 (len - Z.of_nat k) + 3.

(** A number of passes that is enough for the loop of the chunker of
    [embeddings.js] to end from a position with [k] chunks: while there
    are fewer chunks than code units a pass may move the position back,
    afterwards every pass moves it forward. *)
Definition openai_budget (len position : Z) (k : nat) : Z :=
  if Z.of_nat k <? len
  then len - Z.of_nat k + len + 1
  else Z.max 0 (len - position) + 1.

(** A string that is empty or starts with a character that is not white
    space. *)
Definition head_ok (s : jsstring) : Prop :=
  match s with
  | [] => True
  | c :: _ => is_space c = false
  end.

(* ------------------------------------------------------------------ *)
(** ** The groups of the search results *)

(** A group with other matching chunks. *)
Definition with_chunks (g : Server.SearchResultGroup)
    (chunks : list Server.MatchingChunk) : Server.SearchResultGroup :=
  Server.mkGroup (Server.g_id g) (Server.g_title g)
    (Server.g_description g) (Server.g_url g) (Server.g_tags g)
    (Server.relevance_score g) (Server.snippet g) chunks
    (Server.match_type g).

(** The text [highlightTerms] returns, when it returns. *)
Definition shown (highlightTerms : jsstring -> jsstring -> Outcome jsstring)
    (text query : jsstring) : jsstring :=
  match highlightTerms text query with
  | Ok highlighted => highlighted
  | _ => []
  end.

(** The hits that can have a group: those whose identifier is not a name
    inherited from [Object.prototype]. *)
Definition proper_hits (results : list Server.SearchHit)
    : list Server.SearchHit :=
  filter (fun h => negb (Server.inherited (Server.archiveId h))) results.

(** The group the handler makes for the first hit of an archive, for the
    text that [highlightTerms] returns. *)
Definition first_group
    (extractSnippet : jsstring -> jsstring -> Z -> jsstring)
    (highlight : jsstring -> jsstring -> jsstring)
    (fetch_archive : jsstring -> Server.SearchHit
                     -> option Server.SearchHit)
    (query archiveId : jsstring) (result : Server.SearchHit)
    : Server.SearchResultGroup :=
  let archiveData :=
    if negb (truthy (Server.h_archived_text result)) then
      match fetch_archive archiveId result with
      | Some data => data
      | None => result
      end
    else result in
  let snippet :=
    extractSnippet
      (orElse (Server.h_archived_text archiveData)
         (Server.h_description archiveData))
      query 300 in
  Server.mkGroup archiveId
    (orElse (Server.h_title archiveData) (js "Untitled"))
    (Server.h_description archiveData) (Server.h_url archiveData)
    (Server.h_tags archiveData)
    (if Server.num_truthy (Server.h_relevance_score result)
     then Server.num_or_zero (Server.h_relevance_score result)
     else Server.num_or_zero (Server.h_similarity result))
    (highlight snippet query)
    []
    (orElse (Server.h_match_type result)
       (if Server.num_truthy (Server.h_similarity result)
        then js "semantic" else js "text")).

(** The matching chunk a hit contributes to the group of its archive, if
    any. *)
Definition chunks_of (highlight : jsstring -> jsstring -> jsstring)
    (query : jsstring) (result : Server.SearchHit)
    : list Server.MatchingChunk :=
  match Server.h_chunk_id result, truthy (Server.h_content result) with
  | None, false => []
  | _, _ =>
      let chunkContent :=
        orElse (Server.h_content result) (Server.h_chunk_content result) in
      if truthy chunkContent
      then [Server.mkMatchingChunk
              (highlight (slice chunkContent 0 200) query)
              (Server.num_or_zero (Server.h_similarity result))]
      else []
  end.

(** The object of groups after one more hit, when nothing is thrown: the
    group of a new archive is added, and the chunk of the hit goes to the
    group of its archive. *)
Definition grouped_step
    (extractSnippet : jsstring -> jsstring -> Z -> jsstring)
    (highlight : jsstring -> jsstring -> jsstring)
    (fetch_archive : jsstring -> Server.SearchHit
                     -> option Server.SearchHit)
    (query : jsstring)
    (groupedResults : Server.JSObject Server.SearchResultGroup)
    (result : Server.SearchHit)
    : Server.JSObject Server.SearchResultGroup :=
  let archiveId := Server.archiveId result in
  let groupedResults :=
    match Server.get groupedResults archiveId with
    | Some _ => groupedResults
    | None =>
        Server.set groupedResults archiveId
          (first_group extractSnippet highlight fetch_archive query
             archiveId result)
    end in
  match chunks_of highlight query result,
        Server.get groupedResults archiveId with
  | (_ :: _) as chunks, Some g =>
      Server.set groupedResults archiveId
        (with_chunks g (Server.matching_chunks g ++ chunks))
  | _, _ => groupedResults
  end.

Definition grouped
    (extractSnippet : jsstring -> jsstring -> Z -> jsstring)
    (highlight : jsstring -> jsstring -> jsstring)
    (fetch_archive : jsstring -> Server.SearchHit
                     -> option Server.SearchHit)
    (query : jsstring) (results : list Server.SearchHit)
    : Server.JSObject Server.SearchResultGroup :=
  fold_left (grouped_step extractSnippet highlight fetch_archive query)
            results [].


(** The rows of a url, in the order of the rows. *)
Definition url_hits (url : jsstring) (rows : list ArchiveRow)
    : list ArchiveRow :=
  filter (fun r => jseqb (a_url r) url) rows.

(** A group of an object of groups: a url without rows has no group. *)
Definition group_of {A} (rows : list A) : option (list A) :=
  match rows with
  | [] => None
  | _ :: _ => Some rows
  end.

(** The rows of a user. *)
Definition owned_by (userId : jsstring) (r : ArchiveRow) : bool :=
  jseqb (a_user_id r) userId.

(** The rows that are not marked by one of the ids. *)
Definition without_ids (ids : list row_id) (rows : list ArchiveRow)
    : list ArchiveRow :=
  filter (fun r => negb (existsb (Pos.eqb (a_id r)) ids)) rows.

(** A table with four rows: two of alice for [url_a], one of alice for
    [url_b] and one of bob for [url_a]. *)
Definition table_with_copies : list ArchiveRow :=
  [archive_of 1%positive alice url_a; archive_of 2%positive alice url_b;
   archive_of 3%positive alice url_a; archive_of 4%positive bob url_a].

(** An optional number that is absent or not negative. *)
Definition nonnegative (x : option Z) : Prop :=
  match x with
  | Some n => 0 <= n
  | None => True
  end.

Definition contiguous (chunks : list Chunk) : Prop :=
  map index chunks = seq 0 (length chunks).

(* ================================================================== *)
(** * The chunkers: termination, indices, short texts *)

Lemma jseqb_refl (s : jsstring) : jseqb s s = true.
Proof.
  induction s as [|c s IH]; simpl; [reflexivity|].
  rewrite N.eqb_refl. exact IH.
Qed.

Lemma jseqb_eq (a b : jsstring) : jseqb a b = true <-> a = b.
Proof.
  split; [|intros ->; apply jseqb_refl].
  revert b. induction a as [|x a IH]; intros [|y b] H; simpl in H;
    try discriminate; [reflexivity|].
  apply andb_true_iff in H. destruct H as [Hx Hab].
  apply N.eqb_eq in Hx. f_equal; auto.
Qed.

Section ChunkLoop.

Variable body : ChunkState -> ChunkState.
Variable len : Z.

(** A state the body maps to itself, inside the text, is never left. *)
Lemma chunk_loop_fixed_point (st : ChunkState) :
  body st = st -> fst st < len ->
  forall fuel, chunk_loop body len fuel st = None.
Proof.
  intros Hfix Hlt fuel.
  induction fuel as [|fuel IH]; simpl; [reflexivity|].
  apply Z.ltb_lt in Hlt. rewrite Hlt, Hfix. exact IH.
Qed.

(** More fuel never changes a result. *)
Lemma chunk_loop_more_fuel (fuel : nat) :
  forall st chunks,
    chunk_loop body len fuel st = Some chunks ->
    chunk_loop body len (S fuel) st = Some chunks.
Proof.
  induction fuel as [|fuel IH]; intros st chunks H; [discriminate|].
  simpl in H. change (chunk_loop body len (S (S fuel)) st)
    with (if fst st <? len then chunk_loop body len (S fuel) (body st)
          else Some (snd st)).
  destruct (fst st <? len); [apply IH|]; exact H.
Qed.

(** A property of the chunk list that every pass keeps holds of the
    result. *)
Lemma chunk_loop_invariant (P : list Chunk -> Prop) :
  (forall st, P (snd st) -> P (snd (body st))) ->
  forall fuel st chunks,
    P (snd st) ->
    chunk_loop body len fuel st = Some chunks -> P chunks.
Proof.
  intros Hstep fuel.
  induction fuel as [|fuel IH]; intros st chunks HP H; [discriminate|].
  simpl in H. destruct (fst st <? len).
  - apply (IH (body st)); auto.
  - injection H as <-. exact HP.
Qed.

End ChunkLoop.

Lemma contiguous_push (chunks : list Chunk) (c : jsstring) :
  contiguous chunks -> contiguous (chunks ++ [mkChunk c (length chunks)]).
Proof.
  unfold contiguous. intros H.
  rewrite map_app, length_app, H. simpl.
  rewrite Nat.add_1_r, seq_S. reflexivity.
Qed.

Lemma gemini_step_contiguous text chunkSize overlap (st : ChunkState) :
  contiguous (snd st) ->
  contiguous (snd (GeminiEmbeddings.chunk_step text chunkSize overlap st)).
Proof.
  destruct st as [position chunks]. unfold GeminiEmbeddings.chunk_step.
  cbv zeta. intros H.
  match goal with
  | |- context [truthy ?c] => destruct (truthy c)
  end; simpl; auto using contiguous_push.
Qed.

Lemma openai_step_contiguous text chunkSize overlap (st : ChunkState) :
  contiguous (snd st) ->
  contiguous (snd (Embeddings.chunk_step text chunkSize overlap st)).
Proof.
  destruct st as [position chunks]. unfold Embeddings.chunk_step.
  cbv zeta. intros H. simpl. auto using contiguous_push.
Qed.

(** The indices are contiguous after any number of passes, whether the
    loop ends or not. *)
Lemma gemini_iter_contiguous text chunkSize overlap (n : nat) :
  contiguous
    (snd (Nat.iter n (GeminiEmbeddings.chunk_step text chunkSize overlap)
            (0, []))).
Proof.
  induction n as [|n IH]; simpl.
  - reflexivity.
  - apply gemini_step_contiguous, IH.
Qed.

Lemma openai_chunkText_contiguous fuel text chunkSize overlap chunks :
  Embeddings.chunkText fuel text chunkSize overlap = Some chunks ->
  contiguous chunks.
Proof.
  unfold Embeddings.chunkText. intros H.
  eapply chunk_loop_invariant with (P := contiguous); [| |exact H].
  - apply openai_step_contiguous.
  - reflexivity.
Qed.

(** C6.  Whenever [chunkText] returns, the indices of the chunks are
    0, 1, .., n-1 in the order of the list. *)
Theorem chunkText_indices_contiguous fuel text chunkSize overlap chunks :
  GeminiEmbeddings.chunkText fuel text chunkSize overlap = Some chunks ->
  map index chunks = seq 0 (length chunks).
Proof.
  unfold GeminiEmbeddings.chunkText. intros H.
  eapply chunk_loop_invariant with (P := contiguous); [| |exact H].
  - apply gemini_step_contiguous.
  - reflexivity.
Qed.

Lemma chunkText_indices_contiguous_witness :
  GeminiEmbeddings.chunkText 10 (js "abcdefghij") 20 2
    = Some ten_letters_chunks
  /\ map index ten_letters_chunks = seq 0 (length ten_letters_chunks).
Proof.
  split; [vm_compute; reflexivity|].
  apply (chunkText_indices_contiguous 10 (js "abcdefghij") 20 2).
  vm_compute; reflexivity.
Defined.

(** C5.  On a text of 100 spaces with [chunkSize = 1] and [overlap = 1]
    the loop of [chunkText] never ends: after the first pass the position
    is 1, no chunk has been pushed, and the next pass leaves the position
    at 1, which is not a strict increase, so no amount of fuel is enough. *)
Theorem chunkText_loops_on_spaces :
  (forall fuel, GeminiEmbeddings.chunkText fuel (spaces 100) 1 1 = None)
  /\ GeminiEmbeddings.chunk_step (spaces 100) 1 1 (0, []) = (1, [])
  /\ GeminiEmbeddings.chunk_step (spaces 100) 1 1 (1, []) = (1, []).
Proof.
  assert (H0 : GeminiEmbeddings.chunk_step (spaces 100) 1 1 (0, [])
               = (1, [])) by (vm_compute; reflexivity).
  assert (H1 : GeminiEmbeddings.chunk_step (spaces 100) 1 1 (1, [])
               = (1, [])) by (vm_compute; reflexivity).
  split; [|split; assumption].
  intros [|fuel]; [reflexivity|].
  unfold GeminiEmbeddings.chunkText.
  change (chunk_loop (GeminiEmbeddings.chunk_step (spaces 100) 1 1)
            (Z.of_nat (length (spaces 100))) fuel
            (GeminiEmbeddings.chunk_step (spaces 100) 1 1 (0, [])) = None).
  rewrite H0. apply chunk_loop_fixed_point; [exact H1|].
  vm_compute; reflexivity.
Qed.

(** The same happens with the default sizes, 1500 and 300, on a text that
    ends in 400 spaces: the position stays at 1100. *)
Lemma chunkText_loops_with_defaults :
  forall fuel,
    GeminiEmbeddings.chunkText fuel (letters 1000 ++ spaces 400)
      GeminiEmbeddings.DEFAULT_CHUNK_SIZE GeminiEmbeddings.DEFAULT_OVERLAP
    = None.
Proof.
  set (text := letters 1000 ++ spaces 400).
  assert (H0 : GeminiEmbeddings.chunk_step text 1500 300 (0, [])
               = (1100, [mkChunk (letters 1000) 0]))
    by (vm_compute; reflexivity).
  assert (H1 : GeminiEmbeddings.chunk_step text 1500 300
                 (1100, [mkChunk (letters 1000) 0])
               = (1100, [mkChunk (letters 1000) 0]))
    by (vm_compute; reflexivity).
  intros [|fuel]; [reflexivity|].
  unfold GeminiEmbeddings.chunkText, GeminiEmbeddings.DEFAULT_CHUNK_SIZE,
    GeminiEmbeddings.DEFAULT_OVERLAP.
  change (chunk_loop (GeminiEmbeddings.chunk_step text 1500 300)
            (Z.of_nat (length text)) fuel
            (GeminiEmbeddings.chunk_step text 1500 300 (0, [])) = None).
  rewrite H0. apply chunk_loop_fixed_point; [exact H1|].
  vm_compute; reflexivity.
Qed.

(** The chunker of [embeddings.js] pushes the empty chunks too, and on the
    100 spaces it ends, with 100 chunks. *)
Lemma openai_chunkText_ends_on_spaces :
  option_map (@length Chunk) (Embeddings.chunkText 101 (spaces 100) 1 1)
  = Some 100%nat.
Proof. vm_compute; reflexivity. Qed.

(** On 100 letters, where every chunk is pushed, [chunkText] ends too. *)
Lemma chunkText_ends_on_letters :
  option_map (@length Chunk)
    (GeminiEmbeddings.chunkText 101 (letters 100) 1 1)
  = Some 100%nat.
Proof. vm_compute; reflexivity. Qed.

(* ------------------------------------------------------------------ *)
(** ** Texts shorter than the chunk size *)

Lemma slice_all {A} (l : list A) :
  slice l 0 (Z.of_nat (length l)) = l.
Proof.
  unfold slice, rel_index. simpl (0 <? 0).
  destruct (Z.of_nat (length l) <? 0) eqn:E; [apply Z.ltb_lt in E; lia|].
  rewrite Z.min_id, Z.min_l by lia.
  rewrite Z.sub_0_r, Nat2Z.id. simpl. apply firstn_all.
Qed.

Lemma chunk_loop_S body len fuel st :
  chunk_loop body len (S fuel) st
  = if fst st <? len then chunk_loop body len fuel (body st)
    else Some (snd st).
Proof. reflexivity. Qed.

(** A property of the state that every pass inside the text keeps holds
    when the loop ends. *)
Lemma chunk_loop_state_invariant body len (P : ChunkState -> Prop) :
  (forall st, fst st < len -> P st -> P (body st)) ->
  forall fuel st chunks,
    P st -> chunk_loop body len fuel st = Some chunks ->
    exists position, P (position, chunks) /\ len <= position.
Proof.
  intros Hstep fuel.
  induction fuel as [|fuel IH]; intros st chunks HP H; [discriminate|].
  simpl in H. destruct (fst st <? len) eqn:E.
  - apply Z.ltb_lt in E. apply (IH (body st)); auto.
  - apply Z.ltb_ge in E. injection H as <-. exists (fst st).
    destruct st. auto.
Qed.

(** The first pass over a short text pushes the trimmed text and moves the
    position to the end of the text or beyond. *)
Lemma gemini_first_step_short text chunkSize overlap :
  truthy (trim text) = true ->
  Z.of_nat (length text) < chunkSize ->
  overlap <= 0 \/ Z.of_nat (length text) <= 2 * overlap ->
  exists position,
    GeminiEmbeddings.chunk_step text chunkSize overlap (0, [])
    = (position, [mkChunk (trim text) 0])
    /\ Z.of_nat (length text) <= position.
Proof.
  intros Htrim Hlen Hov.
  unfold GeminiEmbeddings.chunk_step. cbv zeta.
  rewrite Z.add_0_l, Z.min_r by lia.
  rewrite Z.ltb_irrefl, slice_all, Htrim.
  cbn [length app]. change (Z.of_nat 1) with 1. rewrite Z.mul_1_l.
  destruct (Z.of_nat (length text) - overlap <=? overlap) eqn:E;
    eexists; (split; [reflexivity|]).
  - lia.
  - apply Z.leb_gt in E. lia.
Qed.

(** With an overlap that is positive and less than half the length of the
    text, the first pass over a short text pushes the trimmed text and
    moves the position back by the overlap: the clamp does not fire. *)
Lemma gemini_first_step_back text chunkSize overlap :
  truthy (trim text) = true ->
  Z.of_nat (length text) < chunkSize ->
  2 * overlap < Z.of_nat (length text) ->
  GeminiEmbeddings.chunk_step text chunkSize overlap (0, [])
  = (Z.of_nat (length text) - overlap, [mkChunk (trim text) 0]).
Proof.
  intros Htrim Hlen Hov.
  unfold GeminiEmbeddings.chunk_step. cbv zeta.
  rewrite Z.add_0_l, Z.min_r by lia.
  rewrite Z.ltb_irrefl, slice_all, Htrim.
  cbn [length app]. change (Z.of_nat 1) with 1. rewrite Z.mul_1_l.
  replace (Z.of_nat (length text) - overlap <=? overlap) with false
    by (symmetry; apply Z.leb_gt; lia).
  reflexivity.
Qed.

(** A pass of the loop keeps the chunks it has and pushes at most one. *)
Lemma gemini_step_pushes text chunkSize overlap (st : ChunkState) :
  snd (GeminiEmbeddings.chunk_step text chunkSize overlap st) = snd st
  \/ exists c,
       snd (GeminiEmbeddings.chunk_step text chunkSize overlap st)
       = snd st ++ [c].
Proof.
  destruct st as [position chunks]. unfold GeminiEmbeddings.chunk_step.
  cbv zeta.
  match goal with
  | |- context [truthy ?c] => destruct (truthy c)
  end; simpl; eauto.
Qed.

(** The pass after the first one starts inside the text again, at the
    last [overlap] characters: when they are blank the state does not
    change, otherwise a second chunk is pushed. *)
Lemma gemini_second_step_short text chunkSize overlap c :
  Z.of_nat (length text) < chunkSize ->
  0 < overlap ->
  2 * overlap < Z.of_nat (length text) ->
  let st := (Z.of_nat (length text) - overlap, [c]) in
  GeminiEmbeddings.chunk_step text chunkSize overlap st = st
  \/ exists second,
       snd (GeminiEmbeddings.chunk_step text chunkSize overlap st)
       = [c; second].
Proof.
  intros Hlen Hpos Hov st. subst st.
  unfold GeminiEmbeddings.chunk_step. cbv zeta.
  rewrite Z.min_r by lia. rewrite Z.ltb_irrefl.
  destruct (truthy (trim (slice text (Z.of_nat (length text) - overlap)
                            (Z.of_nat (length text))))).
  - right. eexists. reflexivity.
  - left. cbn [length]. change (Z.of_nat 1) with 1. rewrite Z.mul_1_l.
    replace (Z.of_nat (length text) - overlap <=? overlap) with false
      by (symmetry; apply Z.leb_gt; lia).
    reflexivity.
Qed.

(** C7.  A text shorter than [chunkSize] does not always give one chunk.
    For a text with a character that is not white space, shorter than
    [chunkSize], and an overlap that is positive and less than half the
    length of the text, [chunkText] never returns one chunk: whenever it
    returns, the trimmed text is followed by at least one more chunk.
    With the defaults 1500 and 300, 700 letters give two chunks, the text
    and its last 300 letters; the ten letters with 20 and 2 give four
    chunks. *)
Theorem chunkText_short_text_more_chunks :
  (forall fuel text chunkSize overlap chunks,
     truthy (trim text) = true ->
     Z.of_nat (length text) < chunkSize ->
     0 < overlap ->
     2 * overlap < Z.of_nat (length text) ->
     GeminiEmbeddings.chunkText fuel text chunkSize overlap = Some chunks ->
     exists second others,
       chunks = mkChunk (trim text) 0 :: second :: others)
  /\ (letters 700 <> []
      /\ Z.of_nat (length (letters 700))
         < GeminiEmbeddings.DEFAULT_CHUNK_SIZE
      /\ GeminiEmbeddings.chunkText 3 (letters 700)
           GeminiEmbeddings.DEFAULT_CHUNK_SIZE
           GeminiEmbeddings.DEFAULT_OVERLAP
         = Some [mkChunk (letters 700) 0; mkChunk (letters 300) 1])
  /\ (js "abcdefghij" <> []
      /\ Z.of_nat (length (js "abcdefghij")) < 20
      /\ GeminiEmbeddings.chunkText 5 (js "abcdefghij") 20 2
         = Some ten_letters_chunks
      /\ length ten_letters_chunks = 4%nat).
Proof.
  split; [|split].
  - intros fuel text chunkSize overlap chunks Htrim Hlen Hpos Hov H.
    assert (Hne : 0 < Z.of_nat (length text)).
    { destruct text; [discriminate Htrim|]. simpl length. lia. }
    destruct fuel as [|fuel]; [discriminate H|].
    unfold GeminiEmbeddings.chunkText in H.
    rewrite chunk_loop_S in H. cbn [fst] in H.
    replace (0 <? Z.of_nat (length text)) with true in H
      by (symmetry; apply Z.ltb_lt; lia).
    rewrite (gemini_first_step_back _ _ _ Htrim Hlen Hov) in H.
    set (first := mkChunk (trim text) 0) in *.
    set (back_or_more := fun st : ChunkState =>
           st = (Z.of_nat (length text) - overlap, [first])
           \/ exists second others, snd st = first :: second :: others).
    assert (Hstep : forall st,
               fst st < Z.of_nat (length text) -> back_or_more st ->
               back_or_more
                 (GeminiEmbeddings.chunk_step text chunkSize overlap st)).
    { intros st _ [->|(second & others & Hst)].
      - destruct (gemini_second_step_short text chunkSize overlap first
                    Hlen Hpos Hov) as [Hsame|(second & Hsnd)].
        + left. exact Hsame.
        + right. exists second, []. exact Hsnd.
      - right.
        destruct (gemini_step_pushes text chunkSize overlap st)
          as [Hsame|(c & Hpush)].
        + rewrite Hsame, Hst. eauto.
        + rewrite Hpush, Hst. cbn [app]. eauto. }
    destruct (chunk_loop_state_invariant _ _ back_or_more Hstep fuel _
                chunks (or_introl eq_refl) H)
      as (position & [Hst|Hst] & Hend).
    + injection Hst as Hposition _. lia.
    + exact Hst.
  - split; [discriminate|]. split; vm_compute; reflexivity.
  - split; [discriminate|]. split; [vm_compute; reflexivity|].
    split; [vm_compute; reflexivity|reflexivity].
Qed.

Lemma chunkText_short_text_more_chunks_witness :
  truthy (trim (js "abcdefghij")) = true
  /\ Z.of_nat (length (js "abcdefghij")) < 20
  /\ 0 < 2
  /\ 2 * 2 < Z.of_nat (length (js "abcdefghij"))
  /\ GeminiEmbeddings.chunkText 5 (js "abcdefghij") 20 2
     = Some ten_letters_chunks
  /\ exists second others,
       ten_letters_chunks
       = mkChunk (trim (js "abcdefghij")) 0 :: second :: others.
Proof.
  assert (H1 : truthy (trim (js "abcdefghij")) = true) by reflexivity.
  assert (H2 : Z.of_nat (length (js "abcdefghij")) < 20)
    by (vm_compute; reflexivity).
  assert (H3 : 0 < 2) by lia.
  assert (H4 : 2 * 2 < Z.of_nat (length (js "abcdefghij")))
    by (vm_compute; reflexivity).
  assert (H5 : GeminiEmbeddings.chunkText 5 (js "abcdefghij") 20 2
               = Some ten_letters_chunks) by (vm_compute; reflexivity).
  split; [exact H1|]. split; [exact H2|]. split; [exact H3|].
  split; [exact H4|]. split; [exact H5|].
  exact (proj1 chunkText_short_text_more_chunks 5%nat (js "abcdefghij") 20 2
           ten_letters_chunks H1 H2 H3 H4 H5).
Defined.

(** X29.  Where a short text does give one chunk.  A text with a
    character that is not white space, shorter than [chunkSize], and with
    [overlap <= 0] or [text.length <= 2 * overlap], gives exactly one
    chunk, within two passes of the loop: the trimmed text, with
    index 0. *)
Theorem chunkText_short_text_one_chunk fuel text chunkSize overlap :
  truthy (trim text) = true ->
  Z.of_nat (length text) < chunkSize ->
  overlap <= 0 \/ Z.of_nat (length text) <= 2 * overlap ->
  GeminiEmbeddings.chunkText (S (S fuel)) text chunkSize overlap
  = Some [mkChunk (trim text) 0].
Proof.
  intros Htrim Hlen Hov.
  assert (Hne : 0 < Z.of_nat (length text)).
  { destruct text; [discriminate Htrim|]. simpl length. lia. }
  destruct (gemini_first_step_short text chunkSize overlap Htrim Hlen Hov)
    as (position & Hstep & Hpos).
  unfold GeminiEmbeddings.chunkText.
  rewrite chunk_loop_S. cbn [fst].
  replace (0 <? Z.of_nat (length text)) with true
    by (symmetry; apply Z.ltb_lt; lia).
  rewrite Hstep, chunk_loop_S. cbn [fst snd].
  replace (position <? Z.of_nat (length text)) with false
    by (symmetry; apply Z.ltb_ge; lia).
  reflexivity.
Qed.

Lemma chunkText_short_text_one_chunk_witness :
  truthy (trim (js " hello ")) = true
  /\ Z.of_nat (length (js " hello ")) < 1500
  /\ (300 <= 0 \/ Z.of_nat (length (js " hello ")) <= 2 * 300)
  /\ GeminiEmbeddings.chunkText 2 (js " hello ") 1500 300
     = Some [mkChunk (js "hello") 0].
Proof.
  assert (H1 : truthy (trim (js " hello ")) = true) by reflexivity.
  assert (H2 : Z.of_nat (length (js " hello ")) < 1500)
    by (vm_compute; reflexivity).
  assert (H3 : 300 <= 0 \/ Z.of_nat (length (js " hello ")) <= 2 * 300)
    by (right; vm_compute; discriminate).
  split; [exact H1|]. split; [exact H2|]. split; [exact H3|].
  exact (chunkText_short_text_one_chunk 0 (js " hello ") 1500 300 H1 H2 H3).
Defined.

(** A text of spaces only, shorter than the chunk size: one space gives
    no chunk. *)
Lemma chunkText_one_space :
  spaces 1 <> []
  /\ Z.of_nat (length (spaces 1)) < 1500
  /\ GeminiEmbeddings.chunkText 2 (spaces 1) 1500 300 = Some [].
Proof.
  split; [discriminate|]. split; vm_compute; reflexivity.
Qed.

(* ================================================================== *)
(** * The importer *)

Import PocketImport.

(** The three ways in which [archiveSinglePage] ends. *)
Lemma archiveSinglePage_cases env url userId originalTitle tags w :
  exists r w',
    archiveSinglePage env url userId originalTitle tags w = (Ok r, w')
    /\ match existing_archive env userId url w with
       | Some existing =>
           r = Skipped (mkArchiveInfo (a_id existing) (a_url existing)
                          (a_title existing) (js "Already archived"))
           /\ archives w' = archives w /\ trace w' = trace w
       | None =>
           match extraction_answer env url originalTitle (S (clock w)) with
           | (inr message, _) =>
               r = Failed url message /\ archives w' = archives w
           | (inl archivedData, t) =>
               match store_error env t with
               | Some e => r = Failed url e /\ archives w' = archives w
               | None =>
                   let row := row_for userId url originalTitle tags
                                archivedData (fresh_id a_id (archives w)) in
                   r = Archived (info_of row)
                   /\ archives w' = archives w ++ [row]
               end
           end
       end.
Proof.
  unfold archiveSinglePage, existing_archive, extraction_answer,
    select_archive_single, FirecrawlExtractor.archivePageWithFirecrawl,
    puppeteerFallback, insert_archive, try_catch, bind, tick, get_world,
    emit, set_archives, ret, throw.
  cbn [clock archives trace content_embeddings user_content].
  destruct (store_error env (clock w)) as [e0|] eqn:E0.
  2: destruct (single (filter (archive_matches userId url) (archives w)))
        as [[existing|] err] eqn:Es.
  all: cbn [fst clock archives trace content_embeddings user_content].
  2: do 2 eexists; split; [reflexivity|]; auto.
  all: destruct (extractWithFirecrawl env (S (clock w)) url) as [fr|] eqn:E1.
  all: repeat
         (cbn [fst clock archives trace content_embeddings user_content];
          match goal with
          | |- context [match store_error ?e ?t with _ => _ end] =>
              destruct (store_error e t) eqn:?
          | |- context [match fallback_page ?e ?t ?u ?o with _ => _ end] =>
              destruct (fallback_page e t u o) eqn:?
          end).
  all: cbn [fst clock archives trace content_embeddings user_content].
  all: do 2 eexists; (split; [reflexivity|]); auto.
Qed.

(** C10 fails as stated.  Alice has archived [url_a]; the existence check
    of [archiveSinglePage] is answered with an error, which the code does
    not look at, the page is extracted and a second row is inserted: the
    object returned is neither the skipped one nor the failure one. *)
Lemma archiveSinglePage_counterexample :
  exists archive w',
    archiveSinglePage (env_store_down_until 1) url_a alice (js "A page") []
      world_a = (Ok (Archived archive), w')
    /\ length (filter (archive_matches alice url_a) (archives world_a))
       = 1%nat
    /\ store_error (env_store_down_until 1) (clock world_a)
       = Some (js "fetch failed")
    /\ length (filter (archive_matches alice url_a) (archives w')) = 2%nat.
Proof.
  do 2 eexists. split; [vm_compute; reflexivity|].
  repeat split.
Qed.

(** The events [archiveSinglePage] adds to the trace: none, an extraction,
    or an extraction and an insert. *)
Lemma archiveSinglePage_trace env url userId originalTitle tags w :
  exists r w',
    archiveSinglePage env url userId originalTitle tags w = (Ok r, w')
    /\ (trace w' = trace w
        \/ trace w' = trace w ++ [EvExtract url]
        \/ trace w' = trace w ++ [EvExtract url]
                      ++ [EvInsertArchive userId url]).
Proof.
  unfold archiveSinglePage, select_archive_single,
    FirecrawlExtractor.archivePageWithFirecrawl,
    puppeteerFallback, insert_archive, try_catch, bind, tick, get_world,
    emit, set_archives, ret, throw.
  cbn [clock archives trace content_embeddings user_content].
  destruct (store_error env (clock w)) as [e0|] eqn:E0.
  2: destruct (single (filter (archive_matches userId url) (archives w)))
        as [[existing|] err] eqn:Es.
  all: cbn [fst clock archives trace content_embeddings user_content].
  2: do 2 eexists; split; [reflexivity|]; auto.
  all: destruct (extractWithFirecrawl env (S (clock w)) url) as [fr|] eqn:E1.
  all: repeat
         (cbn [fst clock archives trace content_embeddings user_content];
          match goal with
          | |- context [match store_error ?e ?t with _ => _ end] =>
              destruct (store_error e t) eqn:?
          | |- context [match fallback_page ?e ?t ?u ?o with _ => _ end] =>
              destruct (fallback_page e t u o) eqn:?
          end).
  all: cbn [fst clock archives trace content_embeddings user_content
            a_user_id a_url].
  all: do 2 eexists; (split; [reflexivity|]); rewrite <- ?app_assoc; auto.
Qed.

(** C10, as the code has it.  [archiveSinglePage] always resolves to one of
    its three objects.  When the existence check obtains a row, the
    object is the skipped one and nothing is inserted or extracted; a
    check that fails, or matches no row or several, counts as no row.
    Then a failed extraction and a failed insert give the failure object
    with the url and the message, and leave the table as it is, and
    otherwise the row is appended to the table. *)
Theorem archiveSinglePage_resolves env url userId originalTitle tags w :
  exists r w',
    archiveSinglePage env url userId originalTitle tags w = (Ok r, w')
    /\ (trace w' = trace w
        \/ trace w' = trace w ++ [EvExtract url]
        \/ trace w' = trace w ++ [EvExtract url]
                      ++ [EvInsertArchive userId url])
    /\ match existing_archive env userId url w with
       | Some existing =>
           r = Skipped (mkArchiveInfo (a_id existing) (a_url existing)
                          (a_title existing) (js "Already archived"))
           /\ archives w' = archives w /\ trace w' = trace w
       | None =>
           match extraction_answer env url originalTitle (S (clock w)) with
           | (inr message, _) =>
               r = Failed url message /\ archives w' = archives w
           | (inl archivedData, t) =>
               match store_error env t with
               | Some e => r = Failed url e /\ archives w' = archives w
               | None =>
                   let row := row_for userId url originalTitle tags
                                archivedData (fresh_id a_id (archives w)) in
                   r = Archived (info_of row)
                   /\ archives w' = archives w ++ [row]
               end
           end
       end.
Proof.
  destruct (archiveSinglePage_cases env url userId originalTitle tags w)
    as (r & w' & Hr & Hcases).
  destruct (archiveSinglePage_trace env url userId originalTitle tags w)
    as (r0 & w0 & Hr0 & Htrace).
  rewrite Hr in Hr0. injection Hr0 as <- <-.
  exists r, w'. split; [exact Hr|].
  split; [exact Htrace|exact Hcases].
Qed.

(** An import that runs one item only answers the calls of
    [archiveSinglePage] one after the other: the function with its
    points of waiting and the function run as a whole agree. *)
Lemma archiveSinglePage_alone env url userId originalTitle tags w :
  run_task (Async.archiveSinglePage env url userId originalTitle tags) w
  = archiveSinglePage env url userId originalTitle tags w.
Proof.
  unfold Async.archiveSinglePage, archiveSinglePage,
    FirecrawlExtractor.Async.archivePageWithFirecrawl,
    FirecrawlExtractor.archivePageWithFirecrawl,
    Async.puppeteerFallback, puppeteerFallback, await,
    select_archive_single, insert_archive, try_catch, bind, tick,
    get_world, emit, set_archives, ret, throw.
  cbn [task_bind task_try run_task clock archives trace content_embeddings
       user_content].
  destruct (store_error env (clock w)) as [e0|] eqn:E0.
  2: destruct (single (filter (archive_matches userId url) (archives w)))
        as [[existing|] err] eqn:Es.
  all: cbn [task_bind task_try run_task fst clock archives trace
            content_embeddings user_content].
  2: reflexivity.
  all: destruct (extractWithFirecrawl env (S (clock w)) url) as [fr|] eqn:E1.
  all: repeat
         (cbn [task_bind task_try run_task fst clock archives trace
               content_embeddings user_content];
          match goal with
          | |- context [match store_error ?e ?t with _ => _ end] =>
              destruct (store_error e t) eqn:?
          | |- context [match fallback_page ?e ?t ?u ?o with _ => _ end] =>
              destruct (fallback_page e t u o) eqn:?
          end).
  all: reflexivity.
Qed.


Lemma extraction_attempts_app url tr1 tr2 :
  extraction_attempts url (tr1 ++ tr2)
  = (extraction_attempts url tr1 + extraction_attempts url tr2)%nat.
Proof.
  unfold extraction_attempts. rewrite filter_app, length_app. reflexivity.
Qed.

Lemma pauses_app tr1 tr2 : pauses (tr1 ++ tr2) = pauses tr1 ++ pauses tr2.
Proof. unfold pauses. apply flat_map_app. Qed.

(* ------------------------------------------------------------------ *)
(** ** The promise of an item *)

(** With [0 <= maxRetries] the callback given to [batch.map] enters its
    loop and calls [archiveSinglePage]. *)
Lemma process_item_promise env opts userId u :
  0 <= maxRetries opts ->
  process_item env opts userId u
  = promise_of env userId (retry_handler env opts userId u) (u, ToCheck).
Proof.
  intros Hmax. unfold process_item, promise_of, retry_handler.
  cbn [retry_loop fst snd attempt_from].
  replace (0 <=? maxRetries opts) with true
    by (symmetry; apply Z.leb_le; exact Hmax).
  reflexivity.
Qed.

(** [archiveSinglePage] catches every error itself: whatever the call an
    item waits for is answered, the item moves on as [advance] says and
    the [catch] of the loop around the attempt is not entered. *)
Lemma answer_promise env userId handler u p w :
  is_done p = false ->
  answer (promise_of env userId handler (u, p)) w
  = (Ok (promise_of env userId handler
           (u, fst (advance env userId u p w))),
     snd (advance env userId u p w)).
Proof.
  intros Hp. destruct p as [| | |archivedData|r]; [| | | |discriminate Hp].
  - unfold promise_of, advance, existing_archive.
    cbn [fst snd attempt_from].
    unfold Async.archiveSinglePage, await, select_archive_single, bind,
      tick, get_world, ret.
    cbn [task_bind task_try answer clock archives].
    destruct (store_error env (clock w)) as [e|]; [reflexivity|].
    destruct (single (filter (archive_matches userId (u_url u))
                             (archives w))) as [[existing|] err];
      reflexivity.
  - unfold promise_of, advance. cbn [fst snd attempt_from].
    unfold caught, FirecrawlExtractor.Async.archivePageWithFirecrawl,
      await, bind, tick, emit, ret.
    cbn [task_bind task_try answer clock archives trace].
    destruct (extractWithFirecrawl env (clock w) (u_url u)); reflexivity.
  - unfold promise_of, advance. cbn [fst snd attempt_from].
    unfold caught, Async.puppeteerFallback, await, bind, tick, ret.
    cbn [task_bind task_try answer clock archives trace].
    destruct (fallback_page env (clock w) (u_url u) (u_title u));
      reflexivity.
  - unfold promise_of, advance. cbn [fst snd attempt_from].
    unfold caught, insert_page, await, insert_archive, bind, tick,
      get_world, emit, set_archives, ret.
    cbn [task_bind task_try answer clock archives trace].
    destruct (store_error env (clock w)); reflexivity.
Qed.

Lemma pending_promise env userId handler u p :
  pending (promise_of env userId handler (u, p)) = negb (is_done p).
Proof.
  destruct p; reflexivity.
Qed.

(** The items that have their results. *)
Lemma settled_items (items : list (UrlData * Progress)) :
  Forall (fun item => is_done (snd item) = true) items ->
  exists rs,
    length rs = length items
    /\ items = settled_with (map fst items) rs.
Proof.
  induction 1 as [|[u p] items Hp _ (rs & Hlen & IH)].
  - exists []. split; reflexivity.
  - destruct p as [| | | |r]; try discriminate Hp.
    exists (r :: rs). split; [simpl; lia|].
    unfold settled_with in *. cbn [map combine fst]. rewrite <- IH.
    reflexivity.
Qed.

Section Pool.

Variable env : Env.
Variable userId : jsstring.
Variable handler : UrlData -> jsstring -> Task (option ItemResult).

Lemma waiting_promises items :
  length (filter pending (promises env userId handler items)) = waiting items.
Proof.
  unfold waiting, promises.
  induction items as [|[u p] items IH]; [reflexivity|].
  cbn [map filter fst snd]. rewrite pending_promise.
  destruct (negb (is_done p)); cbn [length]; rewrite IH; reflexivity.
Qed.

Lemma outcomes_waiting items :
  waiting items <> O -> outcomes (promises env userId handler items) = None.
Proof.
  unfold waiting, promises.
  induction items as [|[u p] items IH]; intros H; [simpl in H; congruence|].
  cbn [map filter fst snd] in *.
  destruct p; cbn [is_done negb length] in H; try reflexivity.
  cbn [promise_of attempt_from task_bind task_try fst snd outcomes].
  unfold promises in IH. rewrite (IH H). reflexivity.
Qed.

Lemma outcomes_settled us : forall rs,
  length rs = length us ->
  outcomes (promises env userId handler (settled_with us rs))
  = Some (map (fun ur => Fulfilled (fst ur, Some (snd ur)))
              (combine us rs)).
Proof.
  unfold promises, settled_with.
  induction us as [|u us IH]; intros [|r rs] Hlen; try discriminate Hlen;
    [reflexivity|].
  cbn [map combine fst snd promise_of attempt_from task_bind task_try
       outcomes].
  rewrite IH by (simpl in Hlen; lia). reflexivity.
Qed.

Lemma waiting_none items :
  waiting items = O -> Forall (fun item => is_done (snd item) = true) items.
Proof.
  unfold waiting. induction items as [|[u p] items IH]; intros H;
    constructor.
  - cbn [filter snd] in *. destruct (is_done p); [reflexivity|].
    discriminate H.
  - apply IH. cbn [filter snd] in H.
    destruct (is_done p); cbn [negb length] in H; [exact H|discriminate H].
Qed.

(** Serving a pending promise answers the call of one item that has not
    its result yet, and leaves the others as they are. *)
Lemma serve_promises items : forall n w,
  (n < waiting items)%nat ->
  exists pre u p post,
    items = pre ++ (u, p) :: post
    /\ is_done p = false
    /\ serve n (promises env userId handler items) w
       = (Ok (promises env userId handler (pre ++ (u, fst (advance env userId u p w)) :: post)),
          snd (advance env userId u p w)).
Proof.
  unfold waiting, promises.
  induction items as [|[u p] items IH]; intros n w Hn;
    [simpl in Hn; lia|].
  cbn [map filter fst snd serve] in *. rewrite pending_promise.
  destruct (is_done p) eqn:Ep; cbn [negb length] in *.
  - destruct (IH n w Hn) as (pre & u' & p' & post & -> & Hp' & Hs).
    exists ((u, p) :: pre), u', p', post.
    split; [reflexivity|]. split; [exact Hp'|].
    unfold bind. rewrite Hs. reflexivity.
  - destruct n as [|n].
    + exists [], u, p, items. split; [reflexivity|]. split; [exact Ep|].
      unfold bind. rewrite (answer_promise _ _ _ _ _ _ Ep). reflexivity.
    + destruct (IH n w ltac:(lia)) as (pre & u' & p' & post & -> & Hp' & Hs).
      exists ((u, p) :: pre), u', p', post.
      split; [reflexivity|]. split; [exact Hp'|].
      unfold bind. rewrite Hs. reflexivity.
Qed.

Lemma calls_of_app a b : calls_of (a ++ b) = (calls_of a + calls_of b)%nat.
Proof. unfold calls_of. rewrite map_app, list_sum_app. reflexivity. Qed.

Lemma calls_of_cons item items :
  calls_of (item :: items) = (calls_left (snd item) + calls_of items)%nat.
Proof. reflexivity. Qed.

Lemma advance_calls_left u p w :
  is_done p = false ->
  (calls_left (fst (advance env userId u p w)) < calls_left p)%nat.
Proof.
  intros Hp. destruct p; try discriminate Hp; cbn [advance fst calls_left].
  - destruct (existing_archive env userId (u_url u) w);
      cbn [calls_left]; lia.
  - destruct (extractWithFirecrawl env (clock w) (u_url u));
      cbn [calls_left]; lia.
  - destruct (fallback_page env (clock w) (u_url u) (u_title u));
      cbn [calls_left]; lia.
  - destruct (store_error env (clock w)); cbn [fst calls_left]; lia.
Qed.

Lemma advance_first pre u p post w :
  map fst (pre ++ (u, fst (advance env userId u p w)) :: post)
  = map fst (pre ++ (u, p) :: post).
Proof. rewrite !map_app. reflexivity. Qed.

Variable schedule : nat -> nat.

(** A batch whose promises have been started: every promise settles,
    whatever the schedule, and what holds of the items and the world
    whenever a call is answered holds when [Promise.allSettled]
    resolves.  The results are those of the items, in their order. *)
Lemma allSettled_promises
    (I : list (UrlData * Progress) -> World -> Prop) :
  (forall pre u p post w,
     I (pre ++ (u, p) :: post) w -> is_done p = false ->
     I (pre ++ (u, fst (advance env userId u p w)) :: post)
       (snd (advance env userId u p w))) ->
  forall fuel items w,
    I items w -> (calls_of items < fuel)%nat ->
    exists rs w',
      allSettled schedule fuel (promises env userId handler items) w
      = (Ok (map (fun ur => Fulfilled (fst ur, Some (snd ur)))
                 (combine (map fst items) rs)), w')
      /\ length rs = length items
      /\ I (settled_with (map fst items) rs) w'.
Proof.
  intros Hstep. induction fuel as [|fuel IH]; intros items w HI Hfuel;
    [lia|].
  cbn [allSettled].
  destruct (waiting items) as [|k] eqn:Ew.
  - apply waiting_none in Ew. apply settled_items in Ew.
    destruct Ew as (rs & Hlen & Hitems).
    exists rs, w. rewrite <- Hitems. split; [|split; assumption].
    replace (outcomes (promises env userId handler items))
      with (outcomes (promises env userId handler
                        (settled_with (map fst items) rs)))
      by (rewrite <- Hitems; reflexivity).
    rewrite outcomes_settled by (rewrite length_map; exact Hlen).
    reflexivity.
  - rewrite outcomes_waiting by lia.
    unfold bind at 1, get_world. rewrite waiting_promises, Ew.
    cbn [Nat.pred].
    destruct (serve_promises items (Nat.min k (schedule (clock w))) w
                ltac:(lia))
      as (pre & u & p & post & -> & Hp & Hs).
    unfold bind at 1. rewrite Hs.
    destruct (IH _ _ (Hstep _ _ _ _ _ HI Hp)) as (rs & w' & Hrun & Hlen & HI').
    + pose proof (advance_calls_left u p w Hp).
      rewrite calls_of_app, calls_of_cons in *. cbn [snd] in *. lia.
    + exists rs, w'. rewrite advance_first in Hrun, HI'.
      split; [exact Hrun|]. split; [|exact HI'].
      rewrite Hlen, !length_app. reflexivity.
Qed.

End Pool.

(* ------------------------------------------------------------------ *)
(** ** One batch *)

Lemma account_fulfilled s u r w :
  account s (Fulfilled (u, Some r)) w = (Ok (account_result s r), w).
Proof.
  unfold account, account_result, ret.
  destruct r; reflexivity.
Qed.

Lemma account_all_fulfilled batch : forall rs s w,
  length rs = length batch ->
  account_all s (map (fun ur => Fulfilled (fst ur, Some (snd ur)))
                     (combine batch rs)) w
  = (Ok (fold_left account_result rs s), w).
Proof.
  induction batch as [|u batch IH]; intros [|r rs] s w Hlen;
    try discriminate; [reflexivity|].
  cbn [combine map account_all fst snd fold_left].
  unfold bind. rewrite account_fulfilled. apply IH.
  simpl in Hlen. lia.
Qed.

Lemma run_steps_trans env userId a w b w1 c w2 :
  run_steps env userId a w b w1 ->
  run_steps env userId b w1 c w2 ->
  run_steps env userId a w c w2.
Proof.
  intros H1 H2. induction H1.
  - exact H2.
  - eapply steps_call; eauto.
  - eapply steps_pause; eauto.
Qed.

Lemma unstarted_first items : map fst (unstarted items) = items.
Proof.
  unfold unstarted. rewrite map_map. cbn [fst]. apply map_id.
Qed.

Lemma unstarted_app a b : unstarted (a ++ b) = unstarted a ++ unstarted b.
Proof. apply map_app. Qed.

Lemma settled_with_app a : forall rs1 b rs2,
  length rs1 = length a ->
  settled_with (a ++ b) (rs1 ++ rs2)
  = settled_with a rs1 ++ settled_with b rs2.
Proof.
  unfold settled_with.
  induction a as [|u a IH]; intros [|r rs1] b rs2 Hlen;
    try discriminate Hlen; [reflexivity|].
  cbn [app map combine]. rewrite IH by (simpl in Hlen; lia). reflexivity.
Qed.

Lemma calls_of_unstarted items :
  calls_of (unstarted items) = (4 * length items)%nat.
Proof.
  unfold calls_of, unstarted. rewrite map_map. cbn [snd calls_left].
  induction items as [|u items IH]; [reflexivity|].
  cbn [map list_sum length] in *. cbn [list_sum] in IH. simpl. 
  simpl in IH. rewrite IH. lia.
Qed.

Lemma process_item_promises env opts userId batch :
  0 <= maxRetries opts ->
  map (process_item env opts userId) batch
  = promises env userId (retry_handler env opts userId) (unstarted batch).
Proof.
  intros Hmax. unfold promises, unstarted. rewrite map_map.
  apply map_ext. intros u. cbn [fst].
  apply process_item_promise. exact Hmax.
Qed.

Lemma run_steps_then_call env userId start w0 pre u p post w :
  run_steps env userId start w0 (pre ++ (u, p) :: post) w ->
  is_done p = false ->
  run_steps env userId start w0
    (pre ++ (u, fst (advance env userId u p w)) :: post)
    (snd (advance env userId u p w)).
Proof.
  intros H Hp. eapply run_steps_trans; [exact H|].
  apply steps_call; [exact Hp|]. apply steps_none.
Qed.

Lemma run_steps_then_pause env userId start w0 items w ms :
  run_steps env userId start w0 items w ->
  run_steps env userId start w0 items (sleep_world ms w).
Proof.
  intros H. eapply run_steps_trans; [exact H|].
  apply steps_pause with (ms := ms). apply steps_none.
Qed.

(** A batch, with [0 <= maxRetries]: whatever the schedule, every promise
    is fulfilled with the result of its item, after the calls of the
    items of the batch have been answered in some order. *)
Lemma allSettled_items env schedule opts userId start w0 before batch
    after w :
  0 <= maxRetries opts ->
  run_steps env userId start w0 (before ++ unstarted batch ++ after) w ->
  exists rs w',
    allSettled schedule (S (length batch * item_calls opts))
      (map (process_item env opts userId) batch) w
    = (Ok (map (fun ur => Fulfilled (fst ur, Some (snd ur)))
               (combine batch rs)), w')
    /\ length rs = length batch
    /\ run_steps env userId start w0
         (before ++ settled_with batch rs ++ after) w'.
Proof.
  intros Hmax Hrun.
  rewrite (process_item_promises env opts userId batch Hmax).
  destruct (allSettled_promises env userId (retry_handler env opts userId)
              schedule
              (fun items w1 =>
                 run_steps env userId start w0 (before ++ items ++ after)
                   w1))
    with (fuel := S (length batch * item_calls opts))
         (items := unstarted batch) (w := w)
    as (rs & w' & Hall & Hlen & Hrun').
  - intros pre u p post w1 H Hp.
    rewrite <- app_assoc, app_assoc in H. cbn [app] in H.
    rewrite <- app_assoc, app_assoc. cbn [app].
    apply run_steps_then_call; assumption.
  - exact Hrun.
  - rewrite calls_of_unstarted. unfold item_calls. nia.
  - rewrite unstarted_first in Hall, Hrun'.
    unfold unstarted in Hlen. rewrite length_map in Hlen.
    exists rs, w'. auto.
Qed.

(* ------------------------------------------------------------------ *)
(** ** The loop over the batches *)

Lemma bind_Ok {A B} (m : M A) (k : A -> M B) w b w' :
  bind m k w = (Ok b, w') ->
  exists a w1, m w = (Ok a, w1) /\ k a w1 = (Ok b, w').
Proof.
  unfold bind. destruct (m w) as [[a| |] w1]; intros H;
    try discriminate. eauto.
Qed.

Lemma slice_window {A} (l : list A) (i n : Z) :
  0 <= i -> 0 <= n ->
  slice l i (i + n) = firstn (Z.to_nat n) (skipn (Z.to_nat i) l).
Proof.
  intros Hi Hn. unfold slice, rel_index.
  replace (i <? 0) with false by (symmetry; apply Z.ltb_ge; lia).
  replace (i + n <? 0) with false by (symmetry; apply Z.ltb_ge; lia).
  set (len := Z.of_nat (length l)).
  destruct (Z.le_gt_cases len i) as [Hge|Hlt].
  - rewrite (Z.min_r i len) by lia.
    rewrite !skipn_all2 by lia. rewrite !firstn_nil. reflexivity.
  - rewrite (Z.min_l i len) by lia.
    destruct (Z.le_gt_cases (i + n) len) as [Hin|Hout].
    + rewrite Z.min_l by lia. f_equal. lia.
    + rewrite Z.min_r by lia.
      rewrite !firstn_all2; [reflexivity| |]; rewrite length_skipn; lia.
Qed.

Lemma skipn_window {A} (l : list A) (i n : Z) :
  0 <= i -> 0 <= n ->
  skipn (Z.to_nat i) l
  = slice l i (i + n) ++ skipn (Z.to_nat (i + n)) l.
Proof.
  intros Hi Hn. rewrite slice_window by assumption.
  replace (Z.to_nat (i + n)) with (Z.to_nat n + Z.to_nat i)%nat by lia.
  rewrite <- skipn_skipn. symmetry. apply firstn_skipn.
Qed.

Section BatchLoop.

Variable env : Env.
Variable schedule : nat -> nat.
Variable opts : Options.
Variable userId : jsstring.
Variable l : list UrlData.

Hypothesis Hbatch : 1 <= batchSize opts.
Hypothesis Hmax : 0 <= maxRetries opts.

(** With a positive batch size and [0 <= maxRetries], the loop either
    runs out of fuel or returns the summary of a run of the remaining
    items. *)
Lemma batch_loop_run start w0 (fuel : nat) : forall i s w before,
  0 <= i ->
  run_steps env userId start w0
    (before ++ unstarted (skipn (Z.to_nat i) l)) w ->
  (Z.of_nat fuel <= Z.max 0 (Z.of_nat (length l) - i)
   /\ exists w',
        batch_loop env schedule opts userId l fuel i s w = (Diverge, w'))
  \/ (exists rs w',
        batch_loop env schedule opts userId l fuel i s w
        = (Ok (fold_left account_result rs s), w')
        /\ length rs = length (skipn (Z.to_nat i) l)
        /\ run_steps env userId start w0
             (before ++ settled_with (skipn (Z.to_nat i) l) rs) w').
Proof.
  induction fuel as [|fuel IH]; intros i s w before Hi Hrun.
  - left. split; [lia|]. eexists. reflexivity.
  - destruct (i <? Z.of_nat (length l)) eqn:Ei.
    + rewrite (skipn_window l i (batchSize opts)) in Hrun by lia.
      rewrite unstarted_app in Hrun.
      destruct (allSettled_items env schedule opts userId start w0 before
                  (slice l i (i + batchSize opts)) _ w Hmax Hrun)
        as (rs1 & w1 & Hall & Hlen1 & Hrun1).
      set (pause := if (i + batchSize opts <? Z.of_nat (length l))
                       && (0 <? delayBetweenBatches opts)
                    then sleep (delayBetweenBatches opts) else ret tt).
      assert (Hpause : exists w2,
                 pause w1 = (Ok tt, w2)
                 /\ run_steps env userId start w0
                      (before ++ settled_with
                                   (slice l i (i + batchSize opts)) rs1
                       ++ unstarted
                            (skipn (Z.to_nat (i + batchSize opts)) l)) w2).
      { subst pause.
        destruct ((i + batchSize opts <? Z.of_nat (length l))
                  && (0 <? delayBetweenBatches opts)).
        - eexists. split; [reflexivity|].
          apply (run_steps_then_pause _ _ _ _ _ _ (delayBetweenBatches opts)
                   Hrun1).
        - exists w1. split; [reflexivity|exact Hrun1]. }
      destruct Hpause as (w2 & Hp & Hrun2).
      assert (Heq : batch_loop env schedule opts userId l (S fuel) i s w
                    = batch_loop env schedule opts userId l fuel
                        (i + batchSize opts)
                        (fold_left account_result rs1 s) w2).
      { cbn [batch_loop]. rewrite Ei. cbv zeta.
        unfold bind at 1. rewrite Hall.
        unfold bind at 1. rewrite (account_all_fulfilled _ _ _ _ Hlen1).
        unfold bind at 1. fold pause. rewrite Hp. reflexivity. }
      rewrite Heq. apply Z.ltb_lt in Ei.
      rewrite app_assoc in Hrun2.
      destruct (IH (i + batchSize opts) (fold_left account_result rs1 s)
                   w2 _ ltac:(lia) Hrun2)
        as [[Hfuel [w' Hdiv]]|(rs2 & w' & Hok & Hlen2 & Hrun3)].
      * left. split; [lia|]. exists w'. exact Hdiv.
      * right. exists (rs1 ++ rs2), w'. split; [|split].
        -- rewrite fold_left_app. exact Hok.
        -- rewrite (skipn_window l i (batchSize opts)) by lia.
           rewrite !length_app. lia.
        -- rewrite (skipn_window l i (batchSize opts)) by lia.
           rewrite settled_with_app by exact Hlen1.
           rewrite app_assoc. exact Hrun3.
    + cbn [batch_loop]. rewrite Ei.
      apply Z.ltb_ge in Ei. right. exists [], w. split; [reflexivity|].
      rewrite skipn_all2 in * by lia. split; [reflexivity|exact Hrun].
Qed.

End BatchLoop.

(** A batch size that is not positive: the index never moves forward and
    the loop does not return. *)
Lemma batch_loop_stuck env schedule opts userId l :
  batchSize opts <= 0 -> l <> [] ->
  forall fuel i s w s' w',
    i <= 0 ->
    batch_loop env schedule opts userId l fuel i s w <> (Ok s', w').
Proof.
  intros Hbs Hl. induction fuel as [|fuel IH]; intros i s w s' w' Hi H.
  - discriminate H.
  - cbn [batch_loop] in H.
    replace (i <? Z.of_nat (length l)) with true in H
      by (symmetry; apply Z.ltb_lt; destruct l; [congruence|simpl; lia]).
    cbv zeta in H.
    apply bind_Ok in H as (a & w1 & _ & H).
    apply bind_Ok in H as (s1 & w2 & _ & H).
    apply bind_Ok in H as (? & w3 & _ & H).
    apply IH in H; [exact H|lia].
Qed.

(** A negative [maxRetries]: the loop around [archiveSinglePage] is not
    entered and every promise is fulfilled at once with a [result] that
    is [null]. *)
Lemma allSettled_null env schedule opts userId batch fuel w :
  maxRetries opts < 0 ->
  allSettled schedule (S fuel) (map (process_item env opts userId) batch) w
  = (Ok (map (fun u => Fulfilled (u, None)) batch), w).
Proof.
  intros Hmax. cbn [allSettled].
  assert (H : outcomes (map (process_item env opts userId) batch)
              = Some (map (fun u => Fulfilled (u, None)) batch)).
  { induction batch as [|u batch IH]; [reflexivity|].
    cbn [map]. unfold process_item at 1. cbn [retry_loop].
    replace (0 <=? maxRetries opts) with false
      by (symmetry; apply Z.leb_gt; exact Hmax).
    cbn [task_bind outcomes]. rewrite IH. reflexivity. }
  rewrite H. reflexivity.
Qed.

(** A negative [maxRetries]: reading [result.success] throws. *)
Lemma batch_loop_null_result env schedule opts userId l :
  1 <= batchSize opts -> maxRetries opts < 0 -> l <> [] ->
  forall fuel s w,
    batch_loop env schedule opts userId l (S fuel) 0 s w
    = (Throw (js "Cannot read properties of null (reading 'success')"), w).
Proof.
  intros Hbs Hmax Hl fuel s w.
  destruct l as [|u l']; [congruence|].
  cbn [batch_loop].
  replace (0 <? Z.of_nat (length (u :: l'))) with true
    by (symmetry; apply Z.ltb_lt; simpl; lia).
  cbv zeta. rewrite slice_window by lia.
  destruct (Z.to_nat (batchSize opts)) as [|n] eqn:En; [lia|].
  cbn [skipn Z.to_nat firstn].
  unfold bind at 1. rewrite (allSettled_null env schedule opts userId _ _ _ Hmax).
  reflexivity.
Qed.

(** Whatever the options and the schedule, a run of the loop that
    returns has archived every item once and has counted every result,
    in the order of the items. *)
Lemma batch_loop_returns env schedule opts userId l fuel s w s' w' :
  batch_loop env schedule opts userId l fuel 0 s w = (Ok s', w') ->
  exists rs,
    s' = fold_left account_result rs s /\ items_run env userId l w rs w'.
Proof.
  intros H. destruct l as [|u l'] eqn:El.
  - destruct fuel; [discriminate H|]. injection H as <- <-.
    exists []. split; [reflexivity|]. split; [reflexivity|constructor].
  - rewrite <- El in *. assert (Hl : l <> []) by (rewrite El; discriminate).
    destruct (Z_le_gt_dec 1 (batchSize opts)) as [Hbs|Hbs].
    + destruct (Z_le_gt_dec 0 (maxRetries opts)) as [Hmax|Hmax].
      * destruct (batch_loop_run env schedule opts userId l Hbs Hmax
                    (unstarted l) w fuel 0 s w [] ltac:(lia)
                    (steps_none _ _ _ _))
          as [[_ [w'' Hdiv]]|(rs & w'' & Hok & Hlen & Hrun)].
        -- rewrite Hdiv in H. discriminate H.
        -- rewrite Hok in H. injection H as <- <-. exists rs.
           split; [reflexivity|]. split; assumption.
      * exfalso. destruct fuel; [discriminate H|].
        rewrite batch_loop_null_result in H by (auto; lia).
        discriminate H.
    + exfalso.
      eapply (batch_loop_stuck env schedule opts userId l); eauto; lia.
Qed.

(** With a positive batch size, [0 <= maxRetries] and one unit of fuel per
    item, plus one, the loop returns, whatever the schedule. *)
Lemma batch_loop_total env schedule opts userId l fuel s w :
  1 <= batchSize opts -> 0 <= maxRetries opts ->
  (length l < fuel)%nat ->
  exists s' w',
    batch_loop env schedule opts userId l fuel 0 s w = (Ok s', w').
Proof.
  intros Hbs Hmax Hfuel.
  destruct (batch_loop_run env schedule opts userId l Hbs Hmax
              (unstarted l) w fuel 0 s w [] ltac:(lia) (steps_none _ _ _ _))
    as [[Hle _]|(rs & w' & Hok & _)]; [lia|eauto].
Qed.

(* ------------------------------------------------------------------ *)
(** ** What the calls of a run do *)

Lemma extractions_app tr1 tr2 :
  extractions (tr1 ++ tr2) = (extractions tr1 + extractions tr2)%nat.
Proof. unfold extractions. rewrite filter_app, length_app. reflexivity. Qed.

Lemma single_Some {A} (rows : list A) (r : A) :
  fst (single rows) = Some r -> rows = [r].
Proof.
  destruct rows as [|x [|y rows]]; simpl; intros H; try discriminate.
  injection H as ->. reflexivity.
Qed.

(** The row an existence check obtains is a row of the user for the
    url, and the store has answered. *)
Lemma existing_archive_row env userId url w existing :
  existing_archive env userId url w = Some existing ->
  In existing (archives w)
  /\ archive_matches userId url existing = true
  /\ a_url existing = url.
Proof.
  unfold existing_archive. destruct (store_error env (clock w));
    [discriminate|].
  intros H. apply single_Some in H.
  assert (Hin : In existing
                  (filter (archive_matches userId url) (archives w)))
    by (rewrite H; left; reflexivity).
  apply filter_In in Hin. destruct Hin as [Hin Hm].
  split; [exact Hin|]. split; [exact Hm|].
  unfold archive_matches in Hm. apply andb_true_iff in Hm.
  destruct Hm as [_ Hm]. apply jseqb_eq in Hm. exact Hm.
Qed.

Lemma count_at_app f a b :
  count_at f (a ++ b) = (count_at f a + count_at f b)%nat.
Proof. unfold count_at. rewrite filter_app, length_app. reflexivity. Qed.

Lemma count_at_cons f item items :
  count_at f (item :: items)
  = ((if f (snd item) then 1 else 0) + count_at f items)%nat.
Proof. unfold count_at. cbn [filter]. destruct (f (snd item)); reflexivity. Qed.

(** What the answer to one call does: the url of a result is the url of
    its item; an extraction is asked for once, before the fallback or the
    insert; nothing pauses; and the table is left as it is unless the call
    is an insert that the store accepts, which appends the row of the
    item. *)
Lemma advance_effects env userId u p w :
  is_done p = false ->
  (forall r, fst (advance env userId u p w) = Done r ->
             result_url r = u_url u)
  /\ (extractions (trace (snd (advance env userId u p w)))
      + (if asked p then 1 else 0)
      = extractions (trace w)
        + (if asked (fst (advance env userId u p w)) then 1 else 0))%nat
  /\ pauses (trace (snd (advance env userId u p w))) = pauses (trace w)
  /\ ((archives (snd (advance env userId u p w)) = archives w
       /\ stored (fst (advance env userId u p w)) = false)
      \/ exists row,
           archives (snd (advance env userId u p w)) = archives w ++ [row]
           /\ stored (fst (advance env userId u p w)) = true
           /\ a_user_id row = userId /\ a_url row = u_url u).
Proof.
  intros Hp. destruct p as [| | |archivedData|r]; [| | | |discriminate Hp];
    cbn [advance].
  - destruct (existing_archive env userId (u_url u) w) as [existing|] eqn:E;
      cbn [fst snd tick_world trace archives asked stored].
    + apply existing_archive_row in E. destruct E as (_ & _ & Hurl).
      split; [intros r Hr; injection Hr as <-; exact Hurl|].
      split; [lia|]. split; [reflexivity|]. left. auto.
    + split; [intros r Hr; discriminate Hr|].
      split; [lia|]. split; [reflexivity|]. left. auto.
  - cbn [fst snd asked_world trace archives].
    rewrite extractions_app, pauses_app.
    change (extractions [EvExtract (u_url u)]) with 1%nat.
    cbn [pauses flat_map]. rewrite app_nil_r.
    destruct (extractWithFirecrawl env (clock w) (u_url u));
      cbn [asked stored].
    all: split; [intros r Hr; discriminate Hr|].
    all: split; [lia|]. all: split; [reflexivity|]. all: left; auto.
  - cbn [fst snd tick_world trace archives].
    destruct (fallback_page env (clock w) (u_url u) (u_title u));
      cbn [asked stored].
    + split; [intros r Hr; discriminate Hr|].
      split; [lia|]. split; [reflexivity|]. left. auto.
    + split; [intros r Hr; injection Hr as <-; reflexivity|].
      split; [lia|]. split; [reflexivity|]. left. auto.
  - destruct (store_error env (clock w));
      cbn [fst snd tick_world inserted_world trace archives asked stored].
    + split; [intros r Hr; injection Hr as <-; reflexivity|].
      split; [lia|]. split; [reflexivity|]. left. auto.
    + rewrite extractions_app, pauses_app.
      cbn [pauses flat_map]. rewrite app_nil_r.
      split; [intros r Hr; injection Hr as <-; reflexivity|].
      split; [unfold extractions at 2; cbn [filter length]; lia|].
      split; [reflexivity|]. right. eexists. split; [reflexivity|].
      repeat split.
Qed.

Lemma urls_unchanged env userId pre u p post w :
  map (fun item => u_url (fst item))
      (pre ++ (u, fst (advance env userId u p w)) :: post)
  = map (fun item => u_url (fst item)) (pre ++ (u, p) :: post).
Proof. rewrite !map_app. reflexivity. Qed.

(** What a run does, whatever the order in which the calls are
    answered. *)
Lemma run_steps_effects env userId items w items' w' :
  run_steps env userId items w items' w' ->
  map fst items' = map fst items
  /\ (Forall (fun item => forall r, snd item = Done r ->
                                    result_url r = u_url (fst item)) items ->
      Forall (fun item => forall r, snd item = Done r ->
                                    result_url r = u_url (fst item)) items')
  /\ (extractions (trace w') + count_at asked items
      = extractions (trace w) + count_at asked items')%nat
  /\ exists extra,
       archives w' = archives w ++ extra
       /\ (length extra + count_at stored items = count_at stored items')%nat
       /\ Forall (fun row => a_user_id row = userId
                             /\ In (a_url row)
                                  (map (fun item => u_url (fst item)) items))
                 extra.
Proof.
  induction 1 as [items w
                 |pre u p post w items' w' Hp _
                    (IHf & IHu & IHx & extra & IHa & IHl & IHr)
                 |ms items w items' w' _
                    (IHf & IHu & IHx & extra & IHa & IHl & IHr)].
  - split; [reflexivity|]. split; [auto|]. split; [reflexivity|].
    exists []. rewrite app_nil_r. repeat split. constructor.
  - destruct (advance_effects env userId u p w Hp)
      as (Hurl & Hx & _ & Ha).
    rewrite urls_unchanged in IHr.
    split; [rewrite IHf, !map_app; reflexivity|].
    split.
    { intros Hall. apply IHu. apply Forall_app in Hall.
      destruct Hall as [Hpre Hpost]. inversion Hpost as [|? ? _ Hpost'].
      subst. apply Forall_app. split; [exact Hpre|].
      constructor; [exact Hurl|exact Hpost']. }
    split.
    { rewrite !count_at_app, !count_at_cons in *. cbn [snd] in *. lia. }
    assert (Hsp : stored p = false)
      by (destruct p; try reflexivity; discriminate Hp).
    destruct Ha as [[Ha Hs]|(row & Ha & Hs & Hrow & Hrurl)].
    + exists extra. rewrite IHa, Ha. split; [reflexivity|].
      split; [|exact IHr].
      rewrite !count_at_app, !count_at_cons in *. cbn [snd] in *.
      rewrite Hs in IHl. rewrite Hsp. lia.
    + exists (row :: extra). rewrite IHa, Ha, <- app_assoc.
      split; [reflexivity|]. split.
      * rewrite !count_at_app, !count_at_cons in *. cbn [snd length] in *.
        rewrite Hs in IHl. rewrite Hsp. lia.
      * constructor; [|exact IHr]. split; [exact Hrow|].
        rewrite Hrurl, map_app. apply in_or_app. right. left. reflexivity.
  - split; [exact IHf|]. split; [exact IHu|].
    cbn [sleep_world trace archives] in *.
    rewrite extractions_app in IHx.
    change (extractions [EvSleep ms]) with 0%nat in IHx.
    split; [lia|]. exists extra. auto.
Qed.

Lemma count_at_unstarted f items :
  f ToCheck = false -> count_at f (unstarted items) = O.
Proof.
  intros Hf. unfold count_at, unstarted.
  induction items as [|u items IH]; [reflexivity|].
  cbn [map filter snd]. rewrite Hf. exact IH.
Qed.

Lemma count_at_settled f (g : ItemResult -> bool) :
  (forall r, f (Done r) = g r) ->
  forall items rs,
    length rs = length items ->
    count_at f (settled_with items rs) = length (filter g rs).
Proof.
  intros Hfg. unfold count_at, settled_with.
  induction items as [|u items IH]; intros [|r rs] Hlen;
    try discriminate Hlen; [reflexivity|].
  cbn [map combine filter snd]. rewrite Hfg.
  destruct (g r); cbn [length]; rewrite IH by (simpl in Hlen; lia);
    reflexivity.
Qed.

Lemma settled_with_urls items : forall rs,
  length rs = length items ->
  Forall (fun item => forall r, snd item = Done r ->
                                result_url r = u_url (fst item))
         (settled_with items rs) ->
  map result_url rs = map u_url items.
Proof.
  unfold settled_with.
  induction items as [|u items IH]; intros [|r rs] Hlen H;
    try discriminate Hlen; [reflexivity|].
  cbn [map combine] in *. inversion H as [|? ? Hr Hrest]. subst.
  rewrite (Hr r eq_refl). cbn [fst]. f_equal.
  apply IH; [simpl in Hlen; lia|exact Hrest].
Qed.

Lemma unstarted_urls items :
  map (fun item => u_url (fst item)) (unstarted items) = map u_url items.
Proof. unfold unstarted. rewrite map_map. reflexivity. Qed.


(** The results of a run are about the items, in their order; the
    extractions asked for are those of the items that were not skipped;
    and the table grows by the rows of the items that were archived. *)
Lemma items_run_effects env userId items w rs w' :
  items_run env userId items w rs w' ->
  map result_url rs = map u_url items
  /\ extractions (trace w')
     = (extractions (trace w)
        + length (filter (fun r => negb (skipped r)) rs))%nat
  /\ exists extra,
       archives w' = archives w ++ extra
       /\ length extra = length (filter created rs)
       /\ Forall (fun row => a_user_id row = userId
                             /\ In (a_url row) (map u_url items)) extra.
Proof.
  intros [Hlen Hrun].
  destruct (run_steps_effects _ _ _ _ _ _ Hrun)
    as (_ & Hu & Hx & extra & Ha & Hl & Hr).
  rewrite (count_at_unstarted asked) in Hx by reflexivity.
  rewrite (count_at_unstarted stored) in Hl by reflexivity.
  rewrite (count_at_settled asked (fun r => negb (skipped r))) in Hx
    by (try exact Hlen; intros []; reflexivity).
  rewrite (count_at_settled stored created) in Hl
    by (try exact Hlen; intros []; reflexivity).
  rewrite unstarted_urls in Hr.
  split.
  - apply settled_with_urls; [exact Hlen|]. apply Hu.
    unfold unstarted. apply Forall_forall. intros item Hin r Hr'.
    apply in_map_iff in Hin. destruct Hin as (u & <- & _).
    discriminate Hr'.
  - split; [lia|]. exists extra. split; [exact Ha|].
    split; [lia|exact Hr].
Qed.

Lemma items_run_grows env userId items w rs w' :
  items_run env userId items w rs w' ->
  exists extra, archives w' = archives w ++ extra.
Proof.
  intros H. destruct (items_run_effects _ _ _ _ _ _ H)
    as (_ & _ & extra & Ha & _).
  exists extra. exact Ha.
Qed.

(* ------------------------------------------------------------------ *)
(** ** What holds throughout a run *)

Lemma run_steps_invariant env userId
    (J : list (UrlData * Progress) -> World -> Prop) :
  (forall pre u p post w,
     J (pre ++ (u, p) :: post) w -> is_done p = false ->
     J (pre ++ (u, fst (advance env userId u p w)) :: post)
       (snd (advance env userId u p w))) ->
  (forall ms items w, J items w -> J items (sleep_world ms w)) ->
  forall items w items' w',
    run_steps env userId items w items' w' -> J items w -> J items' w'.
Proof.
  intros Hcall Hpause items w items' w' Hrun.
  induction Hrun as [items w|pre u p post w items' w' Hp _ IH
                    |ms items w items' w' _ IH]; intros HJ.
  - exact HJ.
  - apply IH. apply Hcall; assumption.
  - apply IH. apply Hpause. exact HJ.
Qed.

Lemma archived_for_app userId url rows extra :
  archived_for userId url rows -> archived_for userId url (rows ++ extra).
Proof.
  intros (r & Hin & Hr). exists r. split; [|exact Hr].
  apply in_or_app. left. exact Hin.
Qed.

Lemma row_for_matches userId url originalTitle tags archivedData id :
  archive_matches userId url
    (row_for userId url originalTitle tags archivedData id) = true.
Proof.
  unfold archive_matches, row_for. cbn [a_user_id a_url].
  rewrite !jseqb_refl. reflexivity.
Qed.

(** The answer to a call never changes or removes a row, and an item
    that gets a result that is a success has a row. *)
Lemma advance_archived env userId u p w :
  is_done p = false ->
  (exists extra,
     archives (snd (advance env userId u p w)) = archives w ++ extra)
  /\ (forall r, fst (advance env userId u p w) = Done r ->
                success r = true ->
                archived_for userId (u_url u)
                  (archives (snd (advance env userId u p w)))).
Proof.
  intros Hp. destruct p as [| | |archivedData|r]; [| | | |discriminate Hp];
    cbn [advance].
  - cbn [snd tick_world archives]. split; [exists []; symmetry; apply app_nil_r|].
    destruct (existing_archive env userId (u_url u) w) as [existing|] eqn:E;
      cbn [fst]; intros r Hr; [|discriminate Hr].
    intros _. apply existing_archive_row in E.
    destruct E as (Hin & Hm & _). exists existing. auto.
  - cbn [snd asked_world archives]. split; [exists []; symmetry; apply app_nil_r|].
    destruct (extractWithFirecrawl env (clock w) (u_url u)); cbn [fst];
      intros r Hr; discriminate Hr.
  - cbn [snd tick_world archives]. split; [exists []; symmetry; apply app_nil_r|].
    destruct (fallback_page env (clock w) (u_url u) (u_title u));
      cbn [fst]; intros r Hr; [discriminate Hr|].
    injection Hr as <-. intros Hs. discriminate Hs.
  - destruct (store_error env (clock w));
      cbn [fst snd tick_world inserted_world archives].
    + split; [exists []; symmetry; apply app_nil_r|].
      intros r Hr. injection Hr as <-. intros Hs. discriminate Hs.
    + split; [eexists; reflexivity|]. intros r Hr _.
      eexists. split; [apply in_or_app; right; left; reflexivity|].
      apply row_for_matches.
Qed.

(** The items whose results are successes have a row after the run. *)
Lemma items_run_archived env userId items w rs w' :
  items_run env userId items w rs w' ->
  Forall (fun r => success r = true) rs ->
  Forall (fun u => archived_for userId (u_url u) (archives w')) items.
Proof.
  intros [Hlen Hrun] Hall.
  assert (HJ : Forall (fun item => forall r,
                         snd item = Done r -> success r = true ->
                         archived_for userId (u_url (fst item))
                           (archives w'))
                      (settled_with items rs)).
  { apply (run_steps_invariant env userId
             (fun items w1 =>
                Forall (fun item => forall r,
                          snd item = Done r -> success r = true ->
                          archived_for userId (u_url (fst item))
                            (archives w1)) items))
      with (items := unstarted items) (w := w).
    - intros pre u p post w1 HJ Hp.
      destruct (advance_archived env userId u p w1 Hp)
        as ((extra & Ha) & Hnew).
      apply Forall_app in HJ. destruct HJ as [Hpre Hpost].
      inversion Hpost as [|? ? _ Hpost']. subst.
      apply Forall_app. split; [|constructor].
      + eapply Forall_impl; [|exact Hpre]. cbn beta.
        intros item H r Hr Hs. rewrite Ha. apply archived_for_app. eauto.
      + exact Hnew.
      + eapply Forall_impl; [|exact Hpost']. cbn beta.
        intros item H r Hr Hs. rewrite Ha. apply archived_for_app. eauto.
    - intros ms items0 w1 HJ. exact HJ.
    - exact Hrun.
    - unfold unstarted. apply Forall_forall. intros item Hin r Hr.
      apply in_map_iff in Hin. destruct Hin as (u & <- & _).
      discriminate Hr. }
  clear Hrun. revert rs Hlen Hall HJ. unfold settled_with.
  induction items as [|u items IH]; intros [|r rs] Hlen Hall HJ;
    try discriminate Hlen; constructor.
  - cbn [map combine] in HJ. inversion HJ as [|? ? Hr _]. subst.
    inversion Hall as [|? ? Hs _]. subst. exact (Hr r eq_refl Hs).
  - cbn [map combine] in HJ. inversion HJ as [|? ? _ Hrest]. subst.
    inversion Hall as [|? ? _ Hall']. subst.
    apply (IH rs); [simpl in Hlen; lia|exact Hall'|exact Hrest].
Qed.

Lemma unique_archives_append rows row userId url :
  unique_archives rows ->
  archive_matches userId url row = true ->
  filter (archive_matches userId url) rows = [] ->
  unique_archives (rows ++ [row]).
Proof.
  intros Hu Hm Hnone u' url'. rewrite filter_app, length_app.
  cbn [filter]. destruct (archive_matches u' url' row) eqn:E.
  - unfold archive_matches in Hm, E.
    apply andb_true_iff in Hm. destruct Hm as [Hm1 Hm2].
    apply andb_true_iff in E. destruct E as [E1 E2].
    apply jseqb_eq in Hm1, Hm2, E1, E2.
    assert (u' = userId) by congruence.
    assert (url' = url) by congruence.
    subst. rewrite Hnone. simpl. lia.
  - specialize (Hu u' url'). simpl. lia.
Qed.

(** The urls of the other items of a table without repeated urls. *)
Lemma other_urls (pre post : list (UrlData * Progress)) u p :
  NoDup (map (fun item => u_url (fst item)) (pre ++ (u, p) :: post)) ->
  forall item, In item (pre ++ post) -> u_url (fst item) <> u_url u.
Proof.
  rewrite map_app. cbn [map fst]. intros Hnd item Hin Heq.
  apply NoDup_remove_2 in Hnd. apply Hnd. rewrite <- Heq, <- map_app.
  apply (in_map (fun item => u_url (fst item))). exact Hin.
Qed.

Lemma existing_archive_none env userId url w :
  store_answers env ->
  unique_archives (archives w) ->
  existing_archive env userId url w = None ->
  filter (archive_matches userId url) (archives w) = [].
Proof.
  intros Hs Hu He. unfold existing_archive in He.
  rewrite (Hs (clock w)) in He. specialize (Hu userId url).
  destruct (filter (archive_matches userId url) (archives w))
    as [|x [|y rest]]; [reflexivity|discriminate He|simpl in Hu; lia].
Qed.

Lemma existing_archive_absent env userId url w :
  store_answers env ->
  filter (archive_matches userId url) (archives w) = [] ->
  existing_archive env userId url w = None.
Proof.
  intros Hs Hf. unfold existing_archive. rewrite (Hs (clock w)), Hf.
  reflexivity.
Qed.

(** What the answer to a call of an item does to the rows of the user:
    those of the other urls stay as they are; a table in which no user
    has two rows for a url stays so when the store answers; and when the
    extraction service answers as well, an item without a row goes on
    towards its insert. *)
Lemma advance_rows env userId u p w :
  is_done p = false ->
  (forall url,
     url <> u_url u ->
     filter (archive_matches userId url)
            (archives (snd (advance env userId u p w)))
     = filter (archive_matches userId url) (archives w))
  /\ (store_answers env ->
      unique_archives (archives w) ->
      (in_flight p = true ->
       filter (archive_matches userId (u_url u)) (archives w) = []) ->
      unique_archives (archives (snd (advance env userId u p w)))
      /\ (in_flight (fst (advance env userId u p w)) = true ->
          filter (archive_matches userId (u_url u))
                 (archives (snd (advance env userId u p w))) = []))
  /\ (store_answers env -> extraction_answers env ->
      on_track p = true ->
      filter (archive_matches userId (u_url u)) (archives w) = [] ->
      on_track (fst (advance env userId u p w)) = true
      /\ (is_done (fst (advance env userId u p w)) = false ->
          filter (archive_matches userId (u_url u))
                 (archives (snd (advance env userId u p w))) = [])).
Proof.
  intros Hp. destruct p as [| | |archivedData|r]; [| | | |discriminate Hp];
    cbn [advance].
  - cbn [snd tick_world archives]. split; [reflexivity|]. split.
    + intros Hs Hu _. split; [exact Hu|].
      destruct (existing_archive env userId (u_url u) w) eqn:E;
        cbn [fst in_flight]; [discriminate|].
      intros _. eapply existing_archive_none; eauto.
    + intros Hs _ _ Hnone.
      rewrite (existing_archive_absent _ _ _ _ Hs Hnone). cbn [fst].
      split; [reflexivity|]. intros _. exact Hnone.
  - cbn [snd asked_world archives]. split; [reflexivity|]. split.
    + intros _ Hu Hnone. split; [exact Hu|]. intros _. apply Hnone.
      reflexivity.
    + intros _ Hx _ Hnone.
      destruct (extractWithFirecrawl env (clock w) (u_url u)) eqn:E;
        [|exfalso; exact (Hx _ _ E)].
      cbn [fst]. split; [reflexivity|]. intros _. exact Hnone.
  - cbn [snd tick_world archives]. split; [reflexivity|]. split.
    + intros _ Hu Hnone. split; [exact Hu|]. intros _. apply Hnone.
      reflexivity.
    + intros _ _ Hf. discriminate Hf.
  - destruct (store_error env (clock w)) eqn:E;
      cbn [fst snd tick_world inserted_world archives].
    + split; [reflexivity|]. split.
      * intros Hs. rewrite (Hs (clock w)) in E. discriminate E.
      * intros Hs. rewrite (Hs (clock w)) in E. discriminate E.
    + split; [|split].
      * intros url Hurl. rewrite filter_app. cbn [filter].
        unfold archive_matches at 2, row_for. cbn [a_user_id a_url].
        destruct (jseqb (u_url u) url) eqn:Eu.
        -- apply jseqb_eq in Eu. congruence.
        -- rewrite andb_false_r. apply app_nil_r.
      * intros _ Hu Hnone. split; [|discriminate].
        eapply unique_archives_append;
          [exact Hu|apply row_for_matches|apply Hnone; reflexivity].
      * intros _ _ _ _. split; [reflexivity|discriminate].
Qed.

(** When the store answers, a run over a table without repeated urls
    never gives a user a second row for a url, whatever the order in
    which the calls are answered. *)
Lemma items_run_unique env userId items w rs w' :
  store_answers env ->
  NoDup (map u_url items) ->
  items_run env userId items w rs w' ->
  unique_archives (archives w) -> unique_archives (archives w').
Proof.
  intros Hs Hnd [_ Hrun] Hu.
  apply (run_steps_invariant env userId
           (fun items w1 =>
              NoDup (map (fun item => u_url (fst item)) items)
              /\ unique_archives (archives w1)
              /\ Forall (fun item =>
                           in_flight (snd item) = true ->
                           filter (archive_matches userId
                                     (u_url (fst item))) (archives w1)
                           = []) items))
    with (items := unstarted items) (w := w) in Hrun.
  - apply Hrun.
  - intros pre u p post w1 (Hnd1 & Hu1 & Hall) Hp.
    destruct (advance_rows env userId u p w1 Hp) as (Hother & Hself & _).
    pose proof (other_urls pre post u p Hnd1) as Hurls.
    apply Forall_app in Hall. destruct Hall as [Hpre Hpost].
    inversion Hpost as [|? ? Hitem Hpost']. subst. cbn [fst snd] in Hitem.
    destruct (Hself Hs Hu1 Hitem) as [Hu2 Hitem2].
    split; [rewrite urls_unchanged; exact Hnd1|]. split; [exact Hu2|].
    apply Forall_app. split; [|constructor].
    + apply Forall_forall. intros item Hin Hf.
      rewrite Forall_forall in Hpre.
      rewrite Hother by (apply Hurls, in_or_app; left; exact Hin).
      apply Hpre; assumption.
    + exact Hitem2.
    + apply Forall_forall. intros item Hin Hf.
      rewrite Forall_forall in Hpost'.
      rewrite Hother by (apply Hurls, in_or_app; right; exact Hin).
      apply Hpost'; assumption.
  - intros ms items0 w1 HJ. exact HJ.
  - split; [rewrite unstarted_urls; exact Hnd|]. split; [exact Hu|].
    unfold unstarted. apply Forall_forall. intros item Hin Hf.
    apply in_map_iff in Hin. destruct Hin as (u & <- & _).
    discriminate Hf.
Qed.


(** Whatever the extraction does and whatever the schedule, the items of
    a batch cost at most one extraction attempt each and no pause, for
    every [maxRetries] that is not negative. *)
Lemma process_item_no_retry env schedule opts userId batch w :
  0 <= maxRetries opts ->
  exists rs w',
    allSettled schedule (S (length batch * item_calls opts))
      (map (process_item env opts userId) batch) w
    = (Ok (map (fun ur => Fulfilled (fst ur, Some (snd ur)))
               (combine batch rs)), w')
    /\ length rs = length batch
    /\ (extractions (trace w') <= extractions (trace w) + length batch)%nat
    /\ pauses (trace w') = pauses (trace w).
Proof.
  intros Hmax.
  rewrite (process_item_promises env opts userId batch Hmax).
  destruct (allSettled_promises env userId (retry_handler env opts userId)
              schedule
              (fun items w1 =>
                 pauses (trace w1) = pauses (trace w)
                 /\ extractions (trace w1)
                    = (extractions (trace w) + count_at asked items)%nat))
    with (fuel := S (length batch * item_calls opts))
         (items := unstarted batch) (w := w)
    as (rs & w' & Hall & Hlen & Hp & Hx).
  - intros pre u p post w1 [Hp Hx] Hd.
    destruct (advance_effects env userId u p w1 Hd) as (_ & Hx1 & Hp1 & _).
    split; [congruence|].
    rewrite !count_at_app, !count_at_cons in *. cbn [snd] in *. lia.
  - split; [reflexivity|].
    rewrite (count_at_unstarted asked) by reflexivity. lia.
  - rewrite calls_of_unstarted. unfold item_calls. nia.
  - rewrite unstarted_first in Hall, Hx.
    unfold unstarted in Hlen. rewrite length_map in Hlen.
    exists rs, w'. split; [exact Hall|]. split; [exact Hlen|].
    split; [|exact Hp]. rewrite Hx. unfold count_at.
    pose proof (filter_length_le (fun item => asked (snd item))
                  (settled_with batch rs)) as Hle.
    unfold settled_with in Hle at 2.
    rewrite length_combine, length_map, Hlen, Nat.min_id in Hle. lia.
Qed.

(** C3.  One item whose extraction always fails, imported with the default
    options, where [maxRetries] is 2: whatever the schedule, the run ends
    with one failed result for it, but after one extraction attempt, not
    three, and without any pause. *)
Theorem failing_item_is_tried_once :
  forall schedule,
  exists message w',
    processPocketImport env_no_extraction schedule 2
      [mkUrlData url_a (js "A") []] alice defaultOptions empty_world
    = (Ok (mkSummary 1 0 1 [Failed url_a message] 0 0), w')
    /\ extraction_attempts url_a (trace w') = 1%nat
    /\ pauses (trace w') = []
    /\ maxRetries defaultOptions = 2.
Proof.
  intros schedule.
  do 2 eexists. split; [vm_compute; reflexivity|].
  repeat split.
Qed.

(* ------------------------------------------------------------------ *)
(** ** The duplicate check *)

Lemma has_In set x : has set x = true <-> In x set.
Proof.
  unfold has. rewrite existsb_exists. split.
  - intros (y & Hy & E). apply jseqb_eq in E. subst. exact Hy.
  - intros H. exists x. split; [exact H|apply jseqb_refl].
Qed.

Lemma has_add set y x : has (add set y) x = has set x || jseqb x y.
Proof.
  unfold add. destruct (has set y) eqn:E.
  - destruct (jseqb x y) eqn:Exy; [|rewrite orb_false_r; reflexivity].
    apply jseqb_eq in Exy. subst. rewrite E. reflexivity.
  - unfold has. rewrite existsb_app. simpl. rewrite orb_false_r.
    reflexivity.
Qed.

Lemma has_fold_add rows : forall set x,
  has (fold_left add rows set) x = has set x || has rows x.
Proof.
  induction rows as [|y rows IH]; intros set x; simpl.
  - rewrite orb_false_r. reflexivity.
  - rewrite IH, has_add, <- orb_assoc. reflexivity.
Qed.

Lemma select_archive_urls_in_eq env userId batch w :
  select_archive_urls_in env userId batch w
  = (Ok (match store_error env (clock w) with
         | Some e => (None, Some e)
         | None =>
             (Some (map a_url
                      (filter (fun r => jseqb (a_user_id r) userId
                                        && has batch (a_url r))
                              (archives w))), None)
         end), tick_world w).
Proof.
  unfold select_archive_urls_in, bind, tick, get_world, ret.
  cbn [clock archives]. destruct (store_error env (clock w)); reflexivity.
Qed.

(** The urls the store returns are urls the user has archived. *)
Lemma selected_urls_archived userId batch rows x :
  has (map a_url
         (filter (fun r => jseqb (a_user_id r) userId && has batch (a_url r))
                 rows)) x = true ->
  archived_for userId x rows.
Proof.
  intros H. apply has_In, in_map_iff in H. destruct H as (r & <- & Hr).
  apply filter_In in Hr. destruct Hr as [Hin Hr].
  apply andb_true_iff in Hr. destruct Hr as [Hu _].
  exists r. split; [exact Hin|].
  unfold archive_matches. rewrite Hu, jseqb_refl. reflexivity.
Qed.

(** And every archived url of the batch is returned. *)
Lemma archived_urls_selected userId batch rows x :
  In x batch -> archived_for userId x rows ->
  has (map a_url
         (filter (fun r => jseqb (a_user_id r) userId && has batch (a_url r))
                 rows)) x = true.
Proof.
  intros Hx (r & Hin & Hr). unfold archive_matches in Hr.
  apply andb_true_iff in Hr. destruct Hr as [Hu Hurl].
  apply jseqb_eq in Hurl. subst x.
  apply has_In, in_map, filter_In. split; [exact Hin|].
  rewrite Hu. apply has_In. exact Hx.
Qed.

Section CheckBatches.

Variable env : Env.
Variable userId : jsstring.
Variable urlList : list jsstring.

(** The loop of [checkForDuplicates] returns, whatever the store
    answers, and leaves the table as it is. *)
Lemma check_batches_ok (fuel : nat) : forall i ex w,
  exists ex' w',
    check_batches env userId urlList fuel i ex w = (Ok ex', w')
    /\ archives w' = archives w.
Proof.
  induction fuel as [|fuel IH]; intros i ex w.
  - exists ex, w. split; reflexivity.
  - cbn [check_batches]. destruct (i <? Z.of_nat (length urlList)).
    + unfold bind at 1. rewrite select_archive_urls_in_eq.
      destruct (store_error env (clock w));
        match goal with
        | |- context [check_batches _ _ _ fuel ?j ?e ?v] =>
            destruct (IH j e v) as (ex' & w' & H & Ha)
        end; exists ex', w'; (split; [exact H|exact Ha]).
    + exists ex, w. split; reflexivity.
Qed.

Lemma check_batches_S (fuel : nat) i ex w :
  check_batches env userId urlList (S fuel) i ex w
  = (if i <? Z.of_nat (length urlList) then
       bind (select_archive_urls_in env userId (slice urlList i (i + 100)))
         (fun x =>
            match snd x, fst x with
            | Some _, _ =>
                check_batches env userId urlList fuel (i + 100) ex
            | None, Some rows =>
                check_batches env userId urlList fuel (i + 100)
                  (fold_left add rows ex)
            | None, None =>
                throw
                  (js "Cannot read properties of null (reading 'forEach')")
            end)
     else ret ex) w.
Proof.
  cbn [check_batches]. destruct (i <? Z.of_nat (length urlList));
    [|reflexivity].
  cbv zeta. unfold bind. rewrite select_archive_urls_in_eq.
  destruct (store_error env (clock w)); reflexivity.
Qed.

(** The fuel of the loop is never used up: one more unit changes
    nothing. *)
Lemma check_batches_fuel (fuel : nat) : forall i ex w,
  0 <= i -> Z.of_nat (length urlList) <= i + Z.of_nat fuel ->
  check_batches env userId urlList (S fuel) i ex w
  = check_batches env userId urlList fuel i ex w.
Proof.
  induction fuel as [|fuel IH]; intros i ex w Hi Hf.
  - cbn [check_batches].
    replace (i <? Z.of_nat (length urlList)) with false
      by (symmetry; apply Z.ltb_ge; lia).
    reflexivity.
  - rewrite (check_batches_S (S fuel)), (check_batches_S fuel).
    destruct (i <? Z.of_nat (length urlList)); [|reflexivity].
    unfold bind. rewrite select_archive_urls_in_eq.
    destruct (store_error env (clock w)); cbn [fst snd]; apply IH; lia.
Qed.

(** Only archived urls are added to the set. *)
Lemma check_batches_sound (fuel : nat) : forall i ex w ex' w' x,
  check_batches env userId urlList fuel i ex w = (Ok ex', w') ->
  has ex' x = true ->
  has ex x = true \/ archived_for userId x (archives w).
Proof.
  induction fuel as [|fuel IH]; intros i ex w ex' w' x H Hx.
  - injection H as <- <-. auto.
  - cbn [check_batches] in H.
    destruct (i <? Z.of_nat (length urlList)).
    + unfold bind at 1 in H. rewrite select_archive_urls_in_eq in H.
      destruct (store_error env (clock w)).
      * apply (IH _ _ _ _ _ x) in H; auto.
      * apply (IH _ _ _ _ _ x) in H; auto.
        destruct H as [H|H]; [|auto].
        rewrite has_fold_add in H. apply orb_true_iff in H.
        destruct H as [H|H]; [auto|].
        right. eapply selected_urls_archived; eauto.
    + injection H as <- <-. auto.
Qed.

(** When the store answers, every archived url of the list is in the
    set. *)
Lemma check_batches_complete (fuel : nat) : forall i ex w ex' w' x,
  store_answers env ->
  0 <= i -> Z.of_nat (length urlList) <= i + Z.of_nat fuel ->
  check_batches env userId urlList fuel i ex w = (Ok ex', w') ->
  has ex x = true
  \/ (In x (skipn (Z.to_nat i) urlList)
      /\ archived_for userId x (archives w)) ->
  has ex' x = true.
Proof.
  induction fuel as [|fuel IH]; intros i ex w ex' w' x Hs Hi Hf H Hx.
  - injection H as <- <-. destruct Hx as [Hx|[Hx _]]; [exact Hx|].
    rewrite skipn_all2 in Hx by lia. destruct Hx.
  - cbn [check_batches] in H.
    destruct (i <? Z.of_nat (length urlList)) eqn:Ei.
    + unfold bind at 1 in H. rewrite select_archive_urls_in_eq in H.
      rewrite (Hs (clock w)) in H.
      apply (IH _ _ _ _ _ x Hs) in H; [exact H|lia|lia|].
      rewrite has_fold_add.
      destruct Hx as [Hx|[Hx Ha]]; [left; rewrite Hx; reflexivity|].
      rewrite (skipn_window urlList i 100) in Hx by lia.
      apply in_app_or in Hx. destruct Hx as [Hx|Hx].
      * left. rewrite (archived_urls_selected _ _ _ _ Hx Ha).
        apply orb_true_r.
      * right. split; [exact Hx|exact Ha].
    + injection H as <- <-. destruct Hx as [Hx|[Hx _]]; [exact Hx|].
      apply Z.ltb_ge in Ei.
      rewrite skipn_all2 in Hx by lia. destruct Hx.
Qed.

End CheckBatches.

(** [checkForDuplicates] returns the two filters of the list by the set
    of urls found, and leaves the table as it is. *)
Lemma checkForDuplicates_partition env urls userId w :
  exists ex w',
    check_batches env userId (map u_url urls) (length (map u_url urls)) 0
      [] w = (Ok ex, w')
    /\ checkForDuplicates env urls userId w
       = (Ok (filter (fun item => negb (has ex (u_url item))) urls,
              filter (fun item => has ex (u_url item)) urls), w')
    /\ archives w' = archives w.
Proof.
  destruct (check_batches_ok env userId (map u_url urls)
              (length (map u_url urls)) 0 [] w) as (ex & w' & H & Ha).
  exists ex, w'. split; [exact H|]. split; [|exact Ha].
  unfold checkForDuplicates, try_catch, bind. rewrite H. reflexivity.
Qed.

Lemma partition_length {A} (f : A -> bool) (l : list A) :
  (length (filter (fun x => negb (f x)) l) + length (filter f l))%nat
  = length l.
Proof.
  induction l as [|x l IH]; simpl; [reflexivity|].
  destruct (f x); simpl; lia.
Qed.

(* ------------------------------------------------------------------ *)
(** ** The counters of the summary *)

Lemma fold_account_fields rs : forall s,
  let s' := fold_left account_result rs s in
  counted s' = (counted s + length rs)%nat
  /\ s_total s' = s_total s
  /\ s_duplicates s' = s_duplicates s
  /\ s_results s' = s_results s ++ rs
  /\ (s_skipped s <= s_skipped s')%nat
  /\ s_failed s'
     = (s_failed s + length (filter (fun r => negb (success r)) rs))%nat.
Proof.
  induction rs as [|r rs IH]; intros s; cbn [fold_left].
  - cbn zeta. rewrite app_nil_r. cbn [filter length]. repeat split; lia.
  - specialize (IH (account_result s r)). cbn zeta in *.
    destruct IH as (Hc & Ht & Hd & Hr & Hs & Hf).
    rewrite Hc, Ht, Hd, Hr, Hf.
    unfold counted, account_result in *.
    cbn [s_total s_successful s_failed s_results s_duplicates s_skipped
         length filter] in *.
    rewrite <- app_assoc.
    destruct r; cbn [success skipped negb andb length app] in *;
      repeat split; lia.
Qed.

Lemma fold_account_created rs : forall s,
  s_successful (fold_left account_result rs s)
  = (s_successful s + length (filter created rs))%nat.
Proof.
  induction rs as [|r rs IH]; intros s; cbn [fold_left filter].
  - simpl. lia.
  - rewrite IH. unfold account_result, created.
    cbn [s_successful].
    destruct r; cbn [success skipped negb andb length]; lia.
Qed.


Lemma not_skipped_count rs :
  length (filter (fun r => negb (skipped r)) rs)
  = (length (filter created rs)
     + length (filter (fun r => negb (success r)) rs))%nat.
Proof.
  induction rs as [|r rs IH]; [reflexivity|].
  cbn [filter]. unfold created in *.
  destruct r; cbn [success skipped negb andb length]; lia.
Qed.

Lemma store_answers_env_ok : store_answers env_ok.
Proof. intros t. reflexivity. Qed.


Lemma is_archived_iff userId rows url :
  is_archived userId rows url = true <-> archived_for userId url rows.
Proof.
  unfold is_archived, archived_for. rewrite existsb_exists. reflexivity.
Qed.

Lemma check_batches_trace env userId urlList (fuel : nat) :
  forall i ex w ex' w',
    check_batches env userId urlList fuel i ex w = (Ok ex', w') ->
    trace w' = trace w.
Proof.
  induction fuel as [|fuel IH]; intros i ex w ex' w' H.
  - injection H as _ <-. reflexivity.
  - cbn [check_batches] in H.
    destruct (i <? Z.of_nat (length urlList)).
    + cbv zeta in H. unfold bind at 1 in H.
      rewrite select_archive_urls_in_eq in H.
      destruct (store_error env (clock w)); apply IH in H; exact H.
    + injection H as _ <-. reflexivity.
Qed.

(** A run that returns: the split of the table by the duplicate check,
    which writes nothing and asks for nothing, the summary as the count
    of the results, and the run of the new rows. *)
Lemma import_run env schedule fuel urls userId opts w s w' :
  processPocketImport env schedule fuel urls userId opts w = (Ok s, w') ->
  exists newUrls duplicates w1,
    checkForDuplicates env urls userId w = (Ok (newUrls, duplicates), w1)
    /\ archives w1 = archives w /\ trace w1 = trace w
    /\ s = fold_left account_result (s_results s)
             (mkSummary (length urls) 0 0 [] (length duplicates)
                        (length duplicates))
    /\ items_run env userId newUrls w1 (s_results s) w'.
Proof.
  intros H. unfold processPocketImport in H.
  destruct (checkForDuplicates_partition env urls userId w)
    as (ex & w1 & Hex & Hcd & Ha).
  unfold bind at 1 in H. rewrite Hcd in H.
  apply batch_loop_returns in H. destruct H as (rs & -> & Hrun).
  match goal with
  | |- context [fold_left account_result rs ?s0] =>
      destruct (fold_account_fields rs s0) as (_ & _ & _ & Hr & _)
  end.
  cbn zeta in Hr. cbn [s_results app] in Hr.
  do 3 eexists. split; [exact Hcd|]. split; [exact Ha|].
  rewrite Hr. split; [|split; [reflexivity|exact Hrun]].
  eapply check_batches_trace. exact Hex.
Qed.

(** When the store answers, the duplicates are the rows whose url the
    user has archived, and the new rows are the others. *)
Lemma duplicates_are_archived env userId urls w ex w1 :
  store_answers env ->
  check_batches env userId (map u_url urls) (length (map u_url urls)) 0
    [] w = (Ok ex, w1) ->
  filter (fun item => has ex (u_url item)) urls
  = filter (fun item => is_archived userId (archives w) (u_url item)) urls.
Proof.
  intros Hs Hex. apply filter_ext_in. intros u Hu.
  destruct (is_archived userId (archives w) (u_url u)) eqn:Ea.
  - apply is_archived_iff in Ea.
    eapply (check_batches_complete env userId (map u_url urls)); eauto;
      try lia.
    right. split; [simpl; apply in_map; exact Hu|exact Ea].
  - destruct (has ex (u_url u)) eqn:Eh; [|reflexivity].
    destruct (check_batches_sound _ _ _ _ _ _ _ _ _ (u_url u) Hex Eh)
      as [Hfalse|Harch]; [discriminate Hfalse|].
    apply is_archived_iff in Harch. congruence.
Qed.


Lemma filter_all_true {A} (f : A -> bool) (l : list A) :
  Forall (fun x => f x = true) l ->
  filter f l = l /\ filter (fun x => negb (f x)) l = [].
Proof.
  induction 1 as [|x l Hx _ [IH1 IH2]]; simpl; [auto|].
  rewrite Hx. simpl. rewrite IH1, IH2. auto.
Qed.


Lemma new_rows_distinct (keep : UrlData -> bool) urls :
  NoDup (map u_url urls) -> NoDup (map u_url (filter keep urls)).
Proof.
  induction urls as [|u urls IH]; intros H; [constructor|].
  cbn [map] in H. inversion H as [|? ? Hnot Hrest]. subst.
  cbn [filter]. destruct (keep u); [|apply IH; exact Hrest].
  cbn [map]. constructor; [|apply IH; exact Hrest].
  intros Hin. apply Hnot. apply in_map_iff in Hin.
  destruct Hin as (x & Hx & Hin). apply filter_In in Hin.
  apply in_map_iff. exists x. tauto.
Qed.




(* ------------------------------------------------------------------ *)
(** ** Importing a table twice *)

Lemma no_failure_all_success rs :
  length (filter (fun r => negb (success r)) rs) = 0%nat ->
  Forall (fun r => success r = true) rs.
Proof.
  induction rs as [|r rs IH]; intros H; constructor.
  - simpl in H. destruct (success r); [reflexivity|discriminate H].
  - apply IH. simpl in H. destruct (success r); simpl in H; [exact H|lia].
Qed.

(** C1, as the code has it.  With a store that answers every call, and
    whatever the order in which the calls of a batch are answered.  When
    an import of a table returns with no failed item, a second import of
    the same table for the same user finds every row to be a duplicate,
    processes nothing and leaves the table of archives as it is.  And an
    import of a table without repeated urls, into a table of archives in
    which no user has two rows for a url, never gives a user a second row
    for a url, whether items fail or not. *)
Theorem reimport_finds_only_duplicates env schedule fuel urls userId opts
    w0 s1 w1 :
  store_answers env ->
  processPocketImport env schedule fuel urls userId opts w0 = (Ok s1, w1) ->
  (s_failed s1 = 0%nat ->
   forall schedule', exists w2,
     processPocketImport env schedule' fuel urls userId opts w1
     = (Ok (mkSummary (length urls) 0 0 [] (length urls) (length urls)), w2)
     /\ archives w2 = archives w1)
  /\ (NoDup (map u_url urls) ->
      unique_archives (archives w0) -> unique_archives (archives w1)).
Proof.
  intros Hs H1.
  unfold processPocketImport in H1.
  destruct (checkForDuplicates_partition env urls userId w0)
    as (ex & wa & Hex & Hcd & Ha).
  unfold bind at 1 in H1. rewrite Hcd in H1.
  assert (Hfuel : fuel <> O) by (intros ->; discriminate H1).
  apply batch_loop_returns in H1. destruct H1 as (rs & -> & Hrun).
  split.
  - intros Hfailed schedule'.
    match type of Hfailed with
    | context [fold_left account_result rs ?s0] =>
        destruct (fold_account_fields rs s0) as (_ & _ & _ & _ & _ & Hf)
    end.
    cbn zeta in Hf. rewrite Hfailed in Hf. cbn [s_failed] in Hf.
    assert (Hsucc : Forall (fun r => success r = true) rs)
      by (apply no_failure_all_success; lia).
    pose proof (items_run_archived _ _ _ _ _ _ Hrun Hsucc) as Hnew.
    destruct (items_run_grows _ _ _ _ _ _ Hrun) as (extra & Hgrow).
    assert (Hall : Forall (fun u => archived_for userId (u_url u)
                                      (archives w1)) urls).
    { apply Forall_forall. intros u Hu.
      destruct (has ex (u_url u)) eqn:Eu.
      - destruct (check_batches_sound _ _ _ _ _ _ _ _ _ (u_url u) Hex Eu)
          as [Hfalse|Harch]; [discriminate Hfalse|].
        rewrite Hgrow, Ha. apply archived_for_app. exact Harch.
      - rewrite Forall_forall in Hnew. apply Hnew.
        apply filter_In. split; [exact Hu|]. rewrite Eu. reflexivity. }
    unfold processPocketImport.
    destruct (checkForDuplicates_partition env urls userId w1)
      as (ex2 & wb & Hex2 & Hcd2 & Hb).
    unfold bind at 1. rewrite Hcd2.
    assert (Hdup : Forall (fun item => has ex2 (u_url item) = true) urls).
    { apply Forall_forall. intros u Hu.
      eapply (check_batches_complete env userId (map u_url urls)); eauto;
        try lia.
      right. split; [simpl; apply in_map; exact Hu|].
      rewrite Forall_forall in Hall. apply Hall. exact Hu. }
    apply filter_all_true in Hdup. destruct Hdup as [-> ->].
    exists wb. split; [|exact Hb].
    destruct fuel; [congruence|]. reflexivity.
  - intros Hnd Hu.
    eapply items_run_unique; [exact Hs| |exact Hrun|rewrite Ha; exact Hu].
    apply new_rows_distinct. exact Hnd.
Qed.

Lemma reimport_finds_only_duplicates_witness :
  exists s1 w1,
    store_answers env_ok
    /\ processPocketImport env_ok in_turn 4 three_rows alice defaultOptions
         world_a = (Ok s1, w1)
    /\ s_failed s1 = 0%nat
    /\ (exists w2,
          processPocketImport env_ok one_by_one 4 three_rows alice
            defaultOptions w1
          = (Ok (mkSummary (length three_rows) 0 0 []
                   (length three_rows) (length three_rows)), w2)
          /\ archives w2 = archives w1)
    /\ NoDup (map u_url three_rows)
    /\ unique_archives (archives world_a)
    /\ unique_archives (archives w1).
Proof.
  destruct (processPocketImport env_ok in_turn 4 three_rows alice
              defaultOptions world_a) as [[s1| |] w1] eqn:E;
    [|vm_compute in E; discriminate E..].
  assert (Hf : s_failed s1 = 0%nat).
  { pose proof E as E'. vm_compute in E'. injection E' as <- _.
    reflexivity. }
  assert (Hnd : NoDup (map u_url three_rows))
    by (repeat constructor; simpl; intuition discriminate).
  assert (Hu : unique_archives (archives world_a)).
  { intros userId url. cbn [world_a archives filter].
    destruct (archive_matches userId url (archive_of 1%positive alice url_a));
      simpl; lia. }
  exists s1, w1.
  split; [exact store_answers_env_ok|].
  split; [reflexivity|]. split; [exact Hf|].
  destruct (reimport_finds_only_duplicates env_ok in_turn 4%nat three_rows
              alice defaultOptions world_a s1 w1 store_answers_env_ok E)
    as [Hagain Hunique].
  split; [exact (Hagain Hf one_by_one)|].
  split; [exact Hnd|]. split; [exact Hu|]. exact (Hunique Hnd Hu).
Defined.

(** C1 fails as stated.  First, a table of one row whose page cannot be
    extracted during the first import and can during the second: the
    second import finds no duplicate and creates a row.  Second, alice has
    archived [url_a] and the store fails the two existence checks of an
    import of [url_a]: the import gives her a second row for it.  Third,
    a table that names [url_b] twice, with a store and an extraction
    service that answer every call: the two items are in one batch, both
    existence checks are answered before either insert, and the import
    gives alice two rows for [url_b]. *)
Lemma reimport_counterexample :
  (forall schedule, exists s1 w1 s2 w2,
     processPocketImport (env_extraction_from 5) schedule 2
       [mkUrlData url_a (js "A") []] alice defaultOptions empty_world
     = (Ok s1, w1)
     /\ processPocketImport (env_extraction_from 5) schedule 2
          [mkUrlData url_a (js "A") []] alice defaultOptions w1
        = (Ok s2, w2)
     /\ s_total s2 = 1%nat /\ s_duplicates s2 = 0%nat
     /\ length (archives w1) = 0%nat /\ length (archives w2) = 1%nat)
  /\ (forall schedule, exists s w',
        processPocketImport (env_store_down_until 2) schedule 2
          [mkUrlData url_a (js "A") []] alice defaultOptions world_a
        = (Ok s, w')
        /\ length (filter (archive_matches alice url_a) (archives world_a))
           = 1%nat
        /\ length (filter (archive_matches alice url_a) (archives w'))
           = 2%nat)
  /\ (exists s w',
        processPocketImport env_ok in_turn 2
          [mkUrlData url_b (js "B") []; mkUrlData url_b (js "B") []]
          alice defaultOptions empty_world
        = (Ok s, w')
        /\ store_answers env_ok
        /\ s_successful s = 2%nat /\ s_skipped s = 0%nat
        /\ length (filter (archive_matches alice url_b) (archives w'))
           = 2%nat).
Proof.
  split; [|split].
  - intros schedule. do 4 eexists. split; [vm_compute; reflexivity|].
    split; [vm_compute; reflexivity|]. repeat split.
  - intros schedule. do 2 eexists. split; [vm_compute; reflexivity|].
    repeat split.
  - do 2 eexists. split; [vm_compute; reflexivity|].
    split; [exact store_answers_env_ok|]. repeat split.
Qed.

(* ================================================================== *)
(** * The shared embeddings *)

Import GeminiEmbeddings.

Lemma select_content_single_eq env content_hash chunk_index w :
  select_content_single env content_hash chunk_index w
  = (Ok (match store_error env (clock w) with
         | Some e => (None, Some e)
         | None =>
             single (filter (content_matches content_hash chunk_index)
                            (content_embeddings w))
         end), tick_world w).
Proof.
  unfold select_content_single, bind, tick, get_world, ret.
  cbn [clock content_embeddings].
  destruct (store_error env (clock w)); reflexivity.
Qed.

Lemma generateEmbedding_eq env text w :
  generateEmbedding env text w
  = if genAI env
    then (Ok (embedContent env (clock w) (slice text 0 10000)),
          mkWorld (archives w) (content_embeddings w) (user_content w)
                  (S (clock w))
                  (trace w ++ [EvEmbed (slice text 0 10000)]))
    else (Ok None, w).
Proof.
  unfold generateEmbedding. destruct (genAI env); reflexivity.
Qed.

Lemma embed_calls_app tr1 tr2 :
  embed_calls (tr1 ++ tr2) = (embed_calls tr1 + embed_calls tr2)%nat.
Proof. unfold embed_calls. rewrite filter_app, length_app. reflexivity. Qed.

(** The upsert of a link changes the table of links only. *)
Lemma upsert_user_content_tables env row w :
  exists answer w',
    upsert_user_content env row w = (Ok answer, w')
    /\ content_embeddings w' = content_embeddings w
    /\ archives w' = archives w
    /\ trace w' = trace w
    /\ (store_error env (clock w) = None -> In row (user_content w')).
Proof.
  unfold upsert_user_content, bind, tick, get_world, set_user_content, ret.
  cbn [clock user_content].
  destruct (store_error env (clock w)) as [e|].
  - do 2 eexists. split; [reflexivity|]. repeat split. discriminate.
  - destruct (existsb (link_matches row) (user_content w)) eqn:E;
      do 2 eexists; (split; [reflexivity|]); repeat split; intros _;
      cbn [user_content].
    + apply existsb_exists in E. destruct E as (r & Hin & Hm).
      apply in_map_iff. exists r. rewrite Hm. auto.
    + apply in_or_app. right. left. reflexivity.
Qed.

Lemma embed_chunks_completed env archive chunk rest contentIds w id w1
    answer w2 :
  find_or_embed env archive chunk w = (Ok (Completed (Some id)), w1) ->
  upsert_user_content env (link_of archive id) w1 = (Ok answer, w2) ->
  embed_chunks env archive (chunk :: rest) contentIds w
  = embed_chunks env archive rest (contentIds ++ [id]) (sleep_world 50 w2).
Proof.
  intros H1 H2. cbn [embed_chunks]. unfold bind at 1. rewrite H1.
  unfold bind at 1. unfold bind at 1. unfold link_of in H2. rewrite H2.
  reflexivity.
Qed.

Lemma embed_chunks_not_stored env archive chunk rest contentIds w w1 :
  find_or_embed env archive chunk w = (Ok (Completed None), w1) ->
  embed_chunks env archive (chunk :: rest) contentIds w
  = embed_chunks env archive rest contentIds (sleep_world 50 w1).
Proof.
  intros H1. cbn [embed_chunks]. unfold bind at 1. rewrite H1. reflexivity.
Qed.


(** A chunk for which the look-up obtains no row and the provider returns
    no embedding: nothing is stored. *)
Lemma find_or_embed_unavailable env archive chunk w :
  existing_content env (a_url archive) chunk w = None ->
  genAI env = false
  \/ embedContent env (S (clock w)) (slice (content chunk) 0 10000) = None ->
  exists w1,
    find_or_embed env archive chunk w = (Ok (Completed None), w1)
    /\ content_embeddings w1 = content_embeddings w
    /\ user_content w1 = user_content w
    /\ archives w1 = archives w.
Proof.
  unfold existing_content, content_rows, find_or_embed. intros H Hp.
  unfold bind at 1. rewrite select_content_single_eq.
  assert (Hrest :
            (embedding <- generateEmbedding env (content chunk) ;;
             match embedding with
             | Some values =>
                 x <- get_or_create_content env
                        (hashContent env (a_url archive) (content chunk))
                        (a_url archive) (a_title archive) (index chunk)
                        (content chunk) values ;;
                 match x with
                 | (newContent, Some _) => ret Continue
                 | (newContent, None) => ret (Completed newContent)
                 end
             | None => ret (Completed None)
             end) (tick_world w)
            = (Ok (Completed None),
               if genAI env
               then mkWorld (archives w) (content_embeddings w)
                      (user_content w) (S (S (clock w)))
                      (trace w ++ [EvEmbed (slice (content chunk) 0 10000)])
               else tick_world w)).
  { unfold bind at 1. rewrite generateEmbedding_eq.
    destruct (genAI env); [|reflexivity].
    destruct Hp as [Hp|Hp]; [discriminate Hp|].
    cbn [tick_world clock]. rewrite Hp. reflexivity. }
  exists (if genAI env
          then mkWorld (archives w) (content_embeddings w)
                 (user_content w) (S (S (clock w)))
                 (trace w ++ [EvEmbed (slice (content chunk) 0 10000)])
          else tick_world w).
  split; [|destruct (genAI env); repeat split].
  destruct (store_error env (clock w)); [exact Hrest|].
  match goal with
  | |- context [single ?rows] => destruct (single rows) as [[existing|] err]
  end; [discriminate H|exact Hrest].
Qed.

(** C8, as the code has it.  When the look-up obtains no row for a chunk
    and the provider returns no embedding for it, the chunk is not stored:
    neither the content store nor the links change, and the loop goes on
    with the remaining chunks. *)
Theorem chunk_without_embedding_not_stored env archive chunk rest
    contentIds w :
  existing_content env (a_url archive) chunk w = None ->
  genAI env = false
  \/ embedContent env (S (clock w)) (slice (content chunk) 0 10000) = None ->
  exists w',
    embed_chunks env archive (chunk :: rest) contentIds w
    = embed_chunks env archive rest contentIds w'
    /\ content_embeddings w' = content_embeddings w
    /\ user_content w' = user_content w.
Proof.
  intros He Hp.
  destruct (find_or_embed_unavailable env archive chunk w He Hp)
    as (w1 & H1 & Hc & Hu & _).
  exists (sleep_world 50 w1). split.
  - apply embed_chunks_not_stored. exact H1.
  - split; assumption.
Qed.

Lemma chunk_without_embedding_not_stored_witness :
  existing_content env_no_embedding url_a (mkChunk (js "Text") 0)
    empty_world = None
  /\ (genAI env_no_embedding = false
      \/ embedContent env_no_embedding (S (clock empty_world))
           (slice (js "Text") 0 10000) = None)
  /\ exists w',
       embed_chunks env_no_embedding (archive_a 1%positive alice)
         [mkChunk (js "Text") 0; mkChunk (js "More") 1] [] empty_world
       = embed_chunks env_no_embedding (archive_a 1%positive alice)
           [mkChunk (js "More") 1] [] w'
       /\ content_embeddings w' = content_embeddings empty_world
       /\ user_content w' = user_content empty_world.
Proof.
  assert (H1 : existing_content env_no_embedding url_a
                 (mkChunk (js "Text") 0) empty_world = None)
    by reflexivity.
  assert (H2 : genAI env_no_embedding = false
               \/ embedContent env_no_embedding (S (clock empty_world))
                    (slice (js "Text") 0 10000) = None)
    by (right; reflexivity).
  split; [exact H1|]. split; [exact H2|].
  exact (chunk_without_embedding_not_stored env_no_embedding
           (archive_a 1%positive alice) (mkChunk (js "Text") 0)
           [mkChunk (js "More") 1] [] empty_world H1 H2).
Defined.

(** C8 fails as stated.  The provider is configured and returns no
    embedding; the document has one chunk; after the pipeline has run,
    with one call of the provider, the content store is empty. *)
Lemma chunk_without_embedding_counterexample :
  exists chunk w',
    chunkText 2 (fullText (archive_a 1%positive alice))
      DEFAULT_CHUNK_SIZE DEFAULT_OVERLAP = Some [chunk]
    /\ processArchiveWithSharedEmbeddings env_no_embedding 2
         (archive_a 1%positive alice) world_archived = (Ok (Some []), w')
    /\ embed_calls (trace w') = 1%nat
    /\ content_embeddings w' = []
    /\ user_content w' = [].
Proof.
  do 2 eexists. split; [vm_compute; reflexivity|].
  split; [vm_compute; reflexivity|]. repeat split.
Qed.

(* ------------------------------------------------------------------ *)
(** ** Reuse of the stored chunks *)

Lemma content_matches_eq h i h' i' row :
  content_matches h i row = true -> content_matches h' i' row = true ->
  h' = h /\ i' = i.
Proof.
  unfold content_matches. intros H H'.
  apply andb_true_iff in H, H'. destruct H as [H1 H2], H' as [H1' H2'].
  apply jseqb_eq in H1, H1'. apply Nat.eqb_eq in H2, H2'.
  split; congruence.
Qed.

Lemma unique_content_append rows row h i :
  unique_content rows ->
  content_matches h i row = true ->
  filter (content_matches h i) rows = [] ->
  unique_content (rows ++ [row]).
Proof.
  intros Hu Hm Hnone h' i'. rewrite filter_app, length_app.
  cbn [filter]. destruct (content_matches h' i' row) eqn:E.
  - destruct (content_matches_eq _ _ _ _ _ Hm E) as [-> ->].
    rewrite Hnone. simpl. lia.
  - specialize (Hu h' i'). simpl. lia.
Qed.














(* ================================================================== *)
(** * The ranking of the search results *)

Import Server.

Section Sorting.

Context {A : Type}.
Variable score : A -> Q.

Lemma sort_insert_perm x l :
  Permutation (sort_insert (descending score) x l) (x :: l).
Proof.
  induction l as [|y l IH]; simpl; [reflexivity|].
  destruct (Qle_bool (descending score x y) 0); [reflexivity|].
  rewrite IH. apply perm_swap.
Qed.

Lemma sort_perm l : Permutation (sort (descending score) l) l.
Proof.
  induction l as [|x l IH]; simpl; [reflexivity|].
  rewrite sort_insert_perm, IH. reflexivity.
Qed.

Lemma sort_insert_sorted x l :
  StronglySorted (fun a b => (score b <= score a)%Q) l ->
  StronglySorted (fun a b => (score b <= score a)%Q)
    (sort_insert (descending score) x l).
Proof.
  induction 1 as [|y l Hl IH Hy]; simpl.
  - repeat constructor.
  - destruct (Qle_bool (descending score x y) 0) eqn:E.
    + apply Qle_bool_iff in E. unfold descending in E.
      constructor; [constructor; assumption|].
      constructor; [lra|].
      eapply Forall_impl; [|exact Hy]. cbn beta. intros z Hz. lra.
    + assert (Hlt : (score x < score y)%Q).
      { apply Qnot_le_lt. intros Hle.
        assert (Qle_bool (descending score x y) 0 = true)
          by (apply Qle_bool_iff; unfold descending; lra).
        congruence. }
      constructor; [exact IH|].
      eapply Permutation_Forall;
        [symmetry; apply sort_insert_perm|].
      constructor; [lra|exact Hy].
Qed.

Lemma sort_sorted l :
  StronglySorted (fun a b => (score b <= score a)%Q)
    (sort (descending score) l).
Proof.
  induction l as [|x l IH]; simpl; [constructor|].
  apply sort_insert_sorted, IH.
Qed.

(** The elements of one score keep their order. *)
Lemma sort_insert_stable q x l :
  filter (fun a => Qeq_bool (score a) q) (sort_insert (descending score) x l)
  = filter (fun a => Qeq_bool (score a) q) (x :: l).
Proof.
  induction l as [|y l IH]; [reflexivity|].
  cbn [sort_insert].
  destruct (Qle_bool (descending score x y) 0) eqn:E; [reflexivity|].
  assert (Hlt : (score x < score y)%Q).
  { apply Qnot_le_lt. intros Hle.
    assert (Qle_bool (descending score x y) 0 = true)
      by (apply Qle_bool_iff; unfold descending; lra).
    congruence. }
  cbn [filter] in *. rewrite IH.
  destruct (Qeq_bool (score y) q) eqn:Ey;
    destruct (Qeq_bool (score x) q) eqn:Ex; try reflexivity.
  apply Qeq_bool_iff in Ey, Ex. lra.
Qed.

Lemma sort_stable q l :
  filter (fun a => Qeq_bool (score a) q) (sort (descending score) l)
  = filter (fun a => Qeq_bool (score a) q) l.
Proof.
  induction l as [|x l IH]; [reflexivity|].
  cbn [sort]. rewrite sort_insert_stable. cbn [filter]. rewrite IH.
  reflexivity.
Qed.

End Sorting.

(* ------------------------------------------------------------------ *)
(** ** The groups and their order *)

Lemma get_None_keys {V} (o : JSObject V) k :
  get o k = None <-> existsb (fun k' => jseqb k' k) (map fst o) = false.
Proof.
  induction o as [|[k0 v0] o IH]; simpl; [tauto|].
  destruct (jseqb k0 k); simpl; [split; discriminate|exact IH].
Qed.

Lemma set_keys {V} (o : JSObject V) k v :
  map fst (set o k v)
  = if existsb (fun k' => jseqb k' k) (map fst o) then map fst o
    else map fst o ++ [k].
Proof.
  induction o as [|[k0 v0] o IH]; simpl; [reflexivity|].
  destruct (jseqb k0 k); simpl; [reflexivity|].
  rewrite IH. destruct (existsb _ (map fst o)); reflexivity.
Qed.

Lemma set_ids (o : JSObject SearchResultGroup) k v :
  Forall (fun kv => g_id (snd kv) = fst kv) o ->
  g_id v = k ->
  Forall (fun kv => g_id (snd kv) = fst kv) (set o k v).
Proof.
  intros Ho Hv. induction Ho as [|[k0 v0] o H0 Ho IH]; simpl.
  - constructor; [exact Hv|constructor].
  - destruct (jseqb k0 k) eqn:E.
    + apply jseqb_eq in E. subst k0. constructor; [exact Hv|exact Ho].
    + constructor; [exact H0|exact IH].
Qed.

Lemma get_ids (o : JSObject SearchResultGroup) k g :
  Forall (fun kv => g_id (snd kv) = fst kv) o ->
  get o k = Some g -> g_id g = k.
Proof.
  induction 1 as [|[k0 v0] o H0 Ho IH]; simpl; [discriminate|].
  destruct (jseqb k0 k) eqn:E; [|exact IH].
  intros H. injection H as <-. apply jseqb_eq in E. subst. exact H0.
Qed.

Section Groups.

Variable extractSnippet : jsstring -> jsstring -> Z -> jsstring.
Variable highlight : jsstring -> jsstring -> jsstring.
Variable fetch_archive : jsstring -> SearchHit -> option SearchHit.
Variable query : jsstring.

(** A hit adds its identifier to the keys when it is new, at the end,
    and leaves the keys as they are otherwise; every group is stored
    under its own identifier. *)
Lemma grouped_step_keys o h :
  Forall (fun kv => g_id (snd kv) = fst kv) o ->
  map fst (grouped_step extractSnippet highlight fetch_archive query o h)
  = (if existsb (fun k' => jseqb k' (archiveId h)) (map fst o)
     then map fst o else map fst o ++ [archiveId h])
  /\ Forall (fun kv => g_id (snd kv) = fst kv)
       (grouped_step extractSnippet highlight fetch_archive query o h).
Proof.
  intros Ho. unfold grouped_step. cbv zeta.
  set (k := archiveId h).
  match goal with
  | |- context [match chunks_of _ _ _ with [] => ?x | _ :: _ => _ end] =>
      set (o1 := x)
  end.
  assert (H1 : map fst o1
               = (if existsb (fun k' => jseqb k' k) (map fst o)
                  then map fst o else map fst o ++ [k])
               /\ Forall (fun kv => g_id (snd kv) = fst kv) o1).
  { subst o1. destruct (get o k) as [g|] eqn:Eg.
    - destruct (existsb (fun k' => jseqb k' k) (map fst o)) eqn:Ek;
        [auto|].
      apply get_None_keys in Ek. congruence.
    - apply get_None_keys in Eg. rewrite Eg.
      split; [rewrite set_keys, Eg; reflexivity|].
      apply set_ids; [exact Ho|reflexivity]. }
  destruct H1 as [Hk1 Hi1]. rewrite <- Hk1.
  destruct (chunks_of highlight query h) as [|c cs];
    [split; [reflexivity|assumption]|].
  destruct (get o1 k) as [g|] eqn:Eg; [|split; [reflexivity|assumption]].
  split.
  - rewrite set_keys.
    destruct (existsb (fun k' => jseqb k' k) (map fst o1)) eqn:Ek;
      [reflexivity|].
    apply get_None_keys in Ek. congruence.
  - apply set_ids; [assumption|]. cbn [with_chunks g_id].
    eapply get_ids; eauto.
Qed.

Lemma grouped_keys results : forall o,
  Forall (fun kv => g_id (snd kv) = fst kv) o ->
  map fst
    (fold_left (grouped_step extractSnippet highlight fetch_archive query)
       results o)
  = fold_left (fun seen k =>
                 if existsb (fun k' => jseqb k' k) seen then seen
                 else seen ++ [k])
              (map archiveId results) (map fst o)
  /\ Forall (fun kv => g_id (snd kv) = fst kv)
       (fold_left (grouped_step extractSnippet highlight fetch_archive query)
          results o).
Proof.
  induction results as [|h results IH]; intros o Ho; simpl; [auto|].
  destruct (grouped_step_keys o h Ho) as [Hk Hi].
  destruct (IH _ Hi) as [IHk IHi].
  rewrite IHk, Hk. auto.
Qed.

End Groups.

Lemma first_seen_subset (P : jsstring -> Prop) keys : forall seen,
  Forall P seen -> Forall P keys ->
  Forall P (fold_left (fun seen k =>
                         if existsb (fun k' => jseqb k' k) seen then seen
                         else seen ++ [k])
                      keys seen).
Proof.
  induction keys as [|k keys IH]; intros seen Hs Hk; simpl; [exact Hs|].
  inversion Hk; subst. apply IH; [|assumption].
  destruct (existsb _ seen); [exact Hs|].
  apply Forall_app. split; [exact Hs|]. constructor; [assumption|constructor].
Qed.

(** Without array indices among the keys, [Object.values] lists the values
    in creation order. *)
Lemma object_values_plain {V} (o : JSObject V) :
  Forall (fun k => is_array_index k = false) (map fst o) ->
  object_values o = map snd o.
Proof.
  unfold object_values. intros H.
  assert (Hi : index_properties o = []
               /\ filter (fun kv => negb (is_array_index (fst kv))) o = o).
  { induction o as [|[k v] o IH]; [auto|].
    inversion H as [|? ? Hk Ho]; subst. destruct (IH Ho) as [IH1 IH2].
    cbn [index_properties filter fst]. rewrite Hk. cbn [negb].
    unfold is_array_index in Hk.
    destruct (array_index k); [discriminate Hk|].
    rewrite IH1, IH2. auto. }
  destruct Hi as [-> ->]. reflexivity.
Qed.

Lemma map_ids (o : JSObject SearchResultGroup) :
  Forall (fun kv => g_id (snd kv) = fst kv) o ->
  map g_id (map snd o) = map fst o.
Proof.
  induction 1 as [|[k v] o H0 Ho IH]; simpl; [reflexivity|].
  simpl in H0. rewrite H0, IH. reflexivity.
Qed.

(* ------------------------------------------------------------------ *)
(** ** The handler, when it answers with groups *)

Lemma set_not_inherited (o : JSObject SearchResultGroup) k v :
  Forall (fun kv => inherited (fst kv) = false) o ->
  inherited k = false ->
  Forall (fun kv => inherited (fst kv) = false) (set o k v).
Proof.
  intros Ho Hk. induction Ho as [|[k0 v0] o H0 Ho IH]; simpl.
  - constructor; [exact Hk|constructor].
  - destruct (jseqb k0 k); constructor; assumption.
Qed.

Lemma get_not_inherited (o : JSObject SearchResultGroup) k v :
  Forall (fun kv => inherited (fst kv) = false) o ->
  get o k = Some v -> inherited k = false.
Proof.
  induction 1 as [|[k0 v0] o H0 Ho IH]; simpl; [discriminate|].
  destruct (jseqb k0 k) eqn:E; [|exact IH].
  intros _. apply jseqb_eq in E. subst. exact H0.
Qed.

Section Answers.

Variable extractSnippet : jsstring -> jsstring -> Z -> jsstring.
Variable highlightTerms : jsstring -> jsstring -> Outcome jsstring.
Variable fetch_archive : jsstring -> SearchHit -> option SearchHit.
Variable query : jsstring.

Lemma shown_Ok text highlighted :
  highlightTerms text query = Ok highlighted ->
  shown highlightTerms text query = highlighted.
Proof. unfold shown. intros ->. reflexivity. Qed.

Lemma ensure_group_Ok o h o1 :
  ensure_group extractSnippet highlightTerms fetch_archive query o h
  = Ok o1 ->
  o1 = match get o (archiveId h) with
       | Some _ => o
       | None =>
           if inherited (archiveId h) then o
           else set o (archiveId h)
                  (first_group extractSnippet (shown highlightTerms)
                     fetch_archive query (archiveId h) h)
       end.
Proof.
  unfold ensure_group, read, new_group, first_group, shown. cbv zeta.
  destruct (get o (archiveId h)) as [g|];
    [intros H; injection H as <-; reflexivity|].
  destruct (inherited (archiveId h));
    [intros H; injection H as <-; reflexivity|].
  match goal with
  | |- context [highlightTerms ?text query] =>
      destruct (highlightTerms text query) as [s| |]
  end; cbn [and_then]; intros H; try discriminate H.
  injection H as <-. reflexivity.
Qed.

Lemma add_matching_chunk_own o h g o' :
  get o (archiveId h) = Some g ->
  add_matching_chunk highlightTerms query o h = Ok o' ->
  o' = match chunks_of (shown highlightTerms) query h with
       | [] => o
       | c :: cs =>
           set o (archiveId h)
             (with_chunks g (matching_chunks g ++ c :: cs))
       end.
Proof.
  intros Hg. unfold add_matching_chunk, read, chunks_of, shown. cbv zeta.
  rewrite Hg.
  destruct (h_chunk_id h), (truthy (h_content h)).
  4: intros H; injection H as <-; reflexivity.
  all: destruct (truthy (orElse (h_content h) (h_chunk_content h)));
    [|intros H; injection H as <-; reflexivity].
  all: destruct (highlightTerms
                   (slice (orElse (h_content h) (h_chunk_content h)) 0 200)
                   query) as [content| |];
    cbn [and_then]; intros H; try discriminate H.
  all: injection H as <-; reflexivity.
Qed.

Lemma add_matching_chunk_inherited o h o' :
  get o (archiveId h) = None ->
  add_matching_chunk highlightTerms query o h = Ok o' ->
  o' = o.
Proof.
  intros Hg. unfold add_matching_chunk, read. cbv zeta. rewrite Hg.
  destruct (h_chunk_id h), (truthy (h_content h)).
  4: intros H; injection H as <-; reflexivity.
  all: destruct (truthy (orElse (h_content h) (h_chunk_content h)));
    [|intros H; injection H as <-; reflexivity].
  all: destruct (inherited (archiveId h)); intros H; discriminate H.
Qed.

Lemma get_after_set {V} (o : JSObject V) k v :
  get (set o k v) k = Some v.
Proof.
  induction o as [|[k1 v1] o IH]; simpl.
  - rewrite jseqb_refl. reflexivity.
  - destruct (jseqb k1 k) eqn:E; simpl; rewrite E; [reflexivity|exact IH].
Qed.

(** A pass of the loop that throws nothing.  A hit whose identifier is
    inherited from [Object.prototype] changes nothing; any other hit does
    what [grouped_step] says, with the texts that [highlightTerms] has
    returned. *)
Lemma group_step_Ok o h o' :
  Forall (fun kv => inherited (fst kv) = false) o ->
  group_step extractSnippet highlightTerms fetch_archive query o h = Ok o' ->
  Forall (fun kv => inherited (fst kv) = false) o'
  /\ o' = if inherited (archiveId h) then o
          else grouped_step extractSnippet (shown highlightTerms)
                 fetch_archive query o h.
Proof.
  intros Ho H. unfold group_step in H.
  destruct (ensure_group extractSnippet highlightTerms fetch_archive query
              o h) as [o1| |] eqn:E1; cbn [and_then] in H;
    try discriminate H.
  apply ensure_group_Ok in E1. unfold grouped_step. cbv zeta.
  destruct (get o (archiveId h)) as [g|] eqn:Eg.
  - subst o1. pose proof (get_not_inherited _ _ _ Ho Eg) as Hk.
    rewrite Hk, Eg. apply (add_matching_chunk_own _ _ _ _ Eg) in H.
    subst o'.
    destruct (chunks_of (shown highlightTerms) query h) as [|c cs];
      (split; [|reflexivity]); [exact Ho|].
    apply set_not_inherited; assumption.
  - destruct (inherited (archiveId h)) eqn:Hk.
    + subst o1. apply (add_matching_chunk_inherited _ _ _ Eg) in H.
      subst o'. auto.
    + subst o1. rewrite get_after_set.
      apply (add_matching_chunk_own _ _ _ _ (get_after_set _ _ _)) in H.
      subst o'.
      assert (Hset : forall g0,
                 Forall (fun kv => inherited (fst kv) = false)
                   (set o (archiveId h) g0))
        by (intros; apply set_not_inherited; assumption).
      destruct (chunks_of (shown highlightTerms) query h) as [|c cs];
        (split; [|reflexivity]); [apply Hset|].
      apply set_not_inherited; [apply Hset|exact Hk].
Qed.

Lemma group_results_thrown results message :
  fold_left (fun groupedResults result =>
               and_then groupedResults (fun groupedResults =>
               group_step extractSnippet highlightTerms fetch_archive query
                 groupedResults result))
            results (Throw message)
  = Throw message.
Proof. induction results as [|h results IH]; [reflexivity|exact IH]. Qed.

Lemma group_results_stuck results :
  fold_left (fun groupedResults result =>
               and_then groupedResults (fun groupedResults =>
               group_step extractSnippet highlightTerms fetch_archive query
                 groupedResults result))
            results Diverge
  = Diverge.
Proof. induction results as [|h results IH]; [reflexivity|exact IH]. Qed.

(** When the loop over the hits throws nothing, the object of groups is
    the one that [grouped_step] builds from the hits whose identifier is
    not inherited. *)
Lemma group_results_Ok results : forall o o',
  Forall (fun kv => inherited (fst kv) = false) o ->
  fold_left (fun groupedResults result =>
               and_then groupedResults (fun groupedResults =>
               group_step extractSnippet highlightTerms fetch_archive query
                 groupedResults result))
            results (Ok o)
  = Ok o' ->
  o' = fold_left (grouped_step extractSnippet (shown highlightTerms)
                    fetch_archive query)
         (proper_hits results) o.
Proof.
  induction results as [|h results IH]; intros o o' Ho H.
  - injection H as <-. reflexivity.
  - cbn [fold_left and_then] in H.
    destruct (group_step extractSnippet highlightTerms fetch_archive query
                o h) as [o1| |] eqn:E1.
    + destruct (group_step_Ok o h o1 Ho E1) as [Ho1 Heq].
      apply (IH _ _ Ho1) in H. rewrite H.
      unfold proper_hits. cbn [filter]. fold (proper_hits results).
      destruct (inherited (archiveId h)); cbn [negb fold_left]; subst o1;
        reflexivity.
    + rewrite group_results_thrown in H. discriminate H.
    + rewrite group_results_stuck in H. discriminate H.
Qed.

Lemma add_matching_chunk_returns o h g :
  (forall text, exists highlighted,
     highlightTerms text query = Ok highlighted) ->
  get o (archiveId h) = Some g ->
  exists o', add_matching_chunk highlightTerms query o h = Ok o'.
Proof.
  intros Hh Hg. unfold add_matching_chunk, read. cbv zeta. rewrite Hg.
  destruct (Hh (slice (orElse (h_content h) (h_chunk_content h)) 0 200))
    as (content & ->).
  cbn [and_then].
  destruct (h_chunk_id h), (truthy (h_content h));
    destruct (truthy (orElse (h_content h) (h_chunk_content h)));
    eauto.
Qed.

(** When [highlightTerms] returns for every text and no identifier is
    inherited, the loop over the hits throws nothing. *)
Lemma group_results_returns results : forall o,
  (forall text, exists highlighted,
     highlightTerms text query = Ok highlighted) ->
  Forall (fun h => inherited (archiveId h) = false) results ->
  Forall (fun kv => inherited (fst kv) = false) o ->
  exists o',
    fold_left (fun groupedResults result =>
                 and_then groupedResults (fun groupedResults =>
                 group_step extractSnippet highlightTerms fetch_archive query
                   groupedResults result))
              results (Ok o)
    = Ok o'.
Proof.
  intros o Hh Hall. revert o.
  induction Hall as [|h rest Hk _ IH]; intros o Ho;
    [exists o; reflexivity|].
  cbn [fold_left and_then].
  assert (Hstep : exists o1,
             group_step extractSnippet highlightTerms fetch_archive query
               o h = Ok o1).
  { unfold group_step, ensure_group, read, new_group. cbv zeta.
    rewrite Hk.
    destruct (get o (archiveId h)) as [g|] eqn:Eg.
    - cbn [and_then]. apply (add_matching_chunk_returns o h g Hh Eg).
    - match goal with
      | |- context [highlightTerms ?text query] =>
          destruct (Hh text) as (s & ->)
      end.
      cbn [and_then].
      eapply add_matching_chunk_returns; [exact Hh|].
      apply get_after_set. }
  destruct Hstep as (o1 & Hstep). rewrite Hstep.
  apply IH. apply (group_step_Ok o h o1 Ho Hstep).
Qed.

(** The answer of the handler with groups: the groups are those of the
    object that [grouped] builds. *)
Lemma finalResults_Ok results limit final :
  finalResults extractSnippet highlightTerms fetch_archive query results
    limit = Ok final ->
  group_results extractSnippet highlightTerms fetch_archive query results
  = Ok (grouped extractSnippet (shown highlightTerms) fetch_archive query
          (proper_hits results))
  /\ final
     = slice (sort by_relevance
                (object_values
                   (grouped extractSnippet (shown highlightTerms)
                      fetch_archive query (proper_hits results))))
             0 limit.
Proof.
  unfold finalResults.
  destruct (group_results extractSnippet highlightTerms fetch_archive query
              results) as [o| |] eqn:E;
    cbn [and_then]; intros H; try discriminate H.
  injection H as <-.
  unfold group_results in E.
  apply group_results_Ok in E; [|constructor].
  unfold grouped. rewrite <- E. auto.
Qed.

End Answers.

(** X28.  Whenever the handler answers with groups, and [limit] is not
    negative, the groups are sorted by decreasing relevance; groups of
    equal relevance keep the order in which [Object.values] lists them;
    and the result is the first [limit] groups of that ranking.  When no
    identifier is an array index, [Object.values] lists the groups in the
    order in which their archives are first seen in the sequence of
    hits. *)
Theorem search_results_ranked extractSnippet highlightTerms fetch_archive
    query results limit final :
  0 <= limit ->
  finalResults extractSnippet highlightTerms fetch_archive query results
    limit = Ok final ->
  exists groupedResults,
    group_results extractSnippet highlightTerms fetch_archive query results
    = Ok groupedResults
    /\ let groups := object_values groupedResults in
       let ranked := sort by_relevance groups in
       final = firstn (Z.to_nat limit) ranked
       /\ StronglySorted ranks_before ranked
       /\ Permutation ranked groups
       /\ (forall q, with_score q ranked = with_score q groups)
       /\ (Forall (fun h => is_array_index (archiveId h) = false) results ->
           map g_id groups
           = first_seen (map archiveId (proper_hits results))).
Proof.
  intros Hlimit H. apply finalResults_Ok in H. destruct H as [Hg Hf].
  eexists. split; [exact Hg|]. cbv zeta.
  split; [|split; [|split; [|split]]].
  - rewrite Hf. rewrite <- (Z.add_0_l limit) at 1.
    rewrite slice_window by lia. reflexivity.
  - apply (sort_sorted relevance_score).
  - apply (sort_perm relevance_score).
  - intros q. apply (sort_stable relevance_score).
  - intros Hkeys. unfold grouped.
    destruct (grouped_keys extractSnippet (shown highlightTerms)
                fetch_archive query (proper_hits results) []
                (Forall_nil _)) as [Hk Hi].
    rewrite object_values_plain.
    + rewrite (map_ids _ Hi). exact Hk.
    + rewrite Hk. apply first_seen_subset; [constructor|].
      apply Forall_map. unfold proper_hits.
      apply Forall_forall. intros h Hin. apply filter_In in Hin.
      rewrite Forall_forall in Hkeys. apply Hkeys. exact (proj1 Hin).
Qed.

Lemma search_results_ranked_witness :
  exists final,
    0 <= 2
    /\ finalResults no_snippet no_highlight no_fetch (js "page") named_hits 2
       = Ok final
    /\ map g_id final = [js "c"; js "b"]
    /\ exists groupedResults,
         group_results no_snippet no_highlight no_fetch (js "page")
           named_hits = Ok groupedResults
         /\ let groups := object_values groupedResults in
            let ranked := sort by_relevance groups in
            final = firstn (Z.to_nat 2) ranked
            /\ StronglySorted ranks_before ranked
            /\ Permutation ranked groups
            /\ (forall q, with_score q ranked = with_score q groups)
            /\ (Forall (fun h => is_array_index (archiveId h) = false)
                       named_hits ->
                map g_id groups
                = first_seen (map archiveId (proper_hits named_hits))).
Proof.
  assert (H1 : 0 <= 2) by lia.
  destruct (finalResults no_snippet no_highlight no_fetch (js "page")
              named_hits 2) as [final| |] eqn:E;
    [|vm_compute in E; discriminate E..].
  exists final. split; [exact H1|]. split; [reflexivity|].
  split.
  { pose proof E as E'. vm_compute in E'. injection E' as <-.
    reflexivity. }
  exact (search_results_ranked no_snippet no_highlight no_fetch (js "page")
           named_hits 2 final H1 E).
Defined.

(** The ranking of [named_hits]: "c" first, then "b" and "a", which have
    the same relevance, in the order in which they were first seen. *)
Lemma named_hits_ranking :
  exists final,
    finalResults no_snippet no_highlight no_fetch (js "page") named_hits 20
    = Ok final
    /\ map g_id final = [js "c"; js "b"; js "a"].
Proof. eexists. split; [vm_compute; reflexivity|reflexivity]. Qed.

(** Two hits of equal relevance, of the archives "2" and "1" in this
    order: [Object.values] lists the group of "1" first, since both keys
    are array indices, and so does the result. *)
Lemma numbered_hits_ranking :
  map archiveId numbered_hits = [js "2"; js "1"]
  /\ map (fun h => num_or_zero (h_relevance_score h)) numbered_hits
     = [1 # 2; 1 # 2]
  /\ exists final,
       finalResults no_snippet no_highlight no_fetch (js "page")
         numbered_hits 20 = Ok final
       /\ map g_id final = [js "1"; js "2"]
       /\ map relevance_score final = [1 # 2; 1 # 2].
Proof.
  split; [reflexivity|]. split; [reflexivity|].
  eexists. split; [vm_compute; reflexivity|]. split; reflexivity.
Qed.

(* ------------------------------------------------------------------ *)
(** ** The handler, when a term of the query is not a regular
       expression *)

Lemma split_loop_no_space s : forall piece,
  existsb is_space s = false ->
  Snippet.split_loop s piece false = [rev piece ++ s].
Proof.
  induction s as [|c s IH]; intros piece H.
  - cbn [Snippet.split_loop]. rewrite app_nil_r. reflexivity.
  - cbn [existsb] in H. apply orb_false_iff in H. destruct H as [Hc Hs].
    cbn [Snippet.split_loop]. rewrite Hc, (IH _ Hs).
    cbn [rev]. rewrite <- app_assoc. reflexivity.
Qed.

(** A query of one term, longer than two characters, that is not a
    regular expression: [highlightTerms] throws for every text that is
    not empty. *)
Lemma highlightTerms_throws RegExp_error replace text query message :
  truthy text = true ->
  existsb is_space query = false ->
  (2 < length query)%nat ->
  RegExp_error (js "(" ++ query ++ js ")") = Some message ->
  Snippet.highlightTerms RegExp_error replace text query = Throw message.
Proof.
  intros Ht Hs Hlen He. unfold Snippet.highlightTerms.
  assert (Hq : truthy query = true)
    by (destruct query; [simpl in Hlen; lia|reflexivity]).
  rewrite Ht, Hq. cbn [negb orb]. cbv zeta.
  unfold Snippet.split_spaces. rewrite (split_loop_no_space _ _ Hs).
  cbn [rev app filter].
  replace (2 <? length query)%nat with true
    by (symmetry; apply Nat.ltb_lt; exact Hlen).
  cbn [fold_left]. unfold Snippet.highlight_term. cbn [and_then].
  rewrite He. reflexivity.
Qed.

(** C9.  The handler does not answer with groups for every query.  When
    the group of the first hit cannot be made because [highlightTerms]
    throws, the handler answers with status 500 and the message of the
    error; [highlightTerms] throws for a query of one term that is not a
    regular expression and a text that is not empty; and for the query
    "c++" and one hit with a text, the answer is the status 500 with the
    message of the [SyntaxError] of [new RegExp("(c++)", "gi")], whatever
    the limit. *)
Theorem search_fails_on_query_term :
  (forall extractSnippet highlightTerms fetch_archive query userId h rest
          limit message,
     truthy query = true -> truthy userId = true ->
     inherited (archiveId h) = false ->
     new_group extractSnippet highlightTerms fetch_archive query
       (archiveId h) h = Throw message ->
     search extractSnippet highlightTerms fetch_archive query userId
       (h :: rest) limit = Ok (Error 500 message))
  /\ (forall RegExp_error replace text query message,
        truthy text = true ->
        existsb is_space query = false ->
        (2 < length query)%nat ->
        RegExp_error (js "(" ++ query ++ js ")") = Some message ->
        Snippet.highlightTerms RegExp_error replace text query
        = Throw message)
  /\ (forall toLowerCase replace message limit,
        search (Snippet.extractSnippet toLowerCase)
          (Snippet.highlightTerms (all_but (js "(c++)") message) replace)
          no_fetch (js "c++") alice [hit "a" (1 # 2)] limit
        = Ok (Error 500 message)).
Proof.
  split; [|split].
  - intros extractSnippet highlightTerms fetch_archive query userId h rest
      limit message Hq Hu Hk Hnew.
    unfold search. rewrite Hq, Hu. cbn [negb orb].
    assert (Hstep : group_step extractSnippet highlightTerms fetch_archive
                      query [] h = Throw message).
    { unfold group_step, ensure_group, read. cbn [get].
      rewrite Hk, Hnew. reflexivity. }
    unfold finalResults, group_results. cbn [fold_left and_then].
    rewrite Hstep, group_results_thrown. reflexivity.
  - exact highlightTerms_throws.
  - intros toLowerCase replace message limit.
    vm_compute. reflexivity.
Qed.

Lemma search_fails_on_query_term_witness :
  truthy (js "c++") = true /\ truthy alice = true
  /\ inherited (archiveId (hit "a" (1 # 2))) = false
  /\ new_group (Snippet.extractSnippet (fun s => s))
       (Snippet.highlightTerms
          (all_but (js "(c++)") (js "Nothing to repeat")) no_marks)
       no_fetch (js "c++") (archiveId (hit "a" (1 # 2))) (hit "a" (1 # 2))
     = Throw (js "Nothing to repeat")
  /\ search (Snippet.extractSnippet (fun s => s))
       (Snippet.highlightTerms
          (all_but (js "(c++)") (js "Nothing to repeat")) no_marks)
       no_fetch (js "c++") alice [hit "a" (1 # 2)] 20
     = Ok (Error 500 (js "Nothing to repeat")).
Proof.
  assert (H1 : truthy (js "c++") = true) by reflexivity.
  assert (H2 : truthy alice = true) by reflexivity.
  assert (H3 : inherited (archiveId (hit "a" (1 # 2))) = false)
    by reflexivity.
  assert (H4 : new_group (Snippet.extractSnippet (fun s => s))
                 (Snippet.highlightTerms
                    (all_but (js "(c++)") (js "Nothing to repeat"))
                    no_marks)
                 no_fetch (js "c++") (archiveId (hit "a" (1 # 2)))
                 (hit "a" (1 # 2))
               = Throw (js "Nothing to repeat"))
    by (vm_compute; reflexivity).
  split; [exact H1|]. split; [exact H2|]. split; [exact H3|].
  split; [exact H4|].
  exact (proj1 search_fails_on_query_term
           (Snippet.extractSnippet (fun s => s))
           (Snippet.highlightTerms
              (all_but (js "(c++)") (js "Nothing to repeat")) no_marks)
           no_fetch (js "c++") alice (hit "a" (1 # 2)) [] 20
           (js "Nothing to repeat") H1 H2 H3 H4).
Defined.

(* ================================================================== *)
(** * Further properties of the importer *)

Lemma filter_partition_perm {A} (f : A -> bool) (l : list A) :
  Permutation (filter (fun x => negb (f x)) l ++ filter f l) l.
Proof.
  induction l as [|x l IH]; simpl; [constructor|].
  destruct (f x); simpl.
  - rewrite <- Permutation_middle. constructor. exact IH.
  - constructor. exact IH.
Qed.

(** X1.  [checkForDuplicates] never throws and never writes.  Whatever
    the store answers, it splits the table in two: every row is in
    exactly one of [newUrls] and [duplicates], and a row is among the
    duplicates only if the user has archived its url. *)
Theorem checkForDuplicates_splits env urls userId w :
  exists newUrls duplicates w',
    checkForDuplicates env urls userId w = (Ok (newUrls, duplicates), w')
    /\ archives w' = archives w
    /\ Permutation (newUrls ++ duplicates) urls
    /\ (forall item, In item newUrls -> ~ In item duplicates)
    /\ (forall item, In item duplicates ->
        archived_for userId (u_url item) (archives w)).
Proof.
  destruct (checkForDuplicates_partition env urls userId w)
    as (ex & w' & Hex & Hcd & Ha).
  do 3 eexists. split; [exact Hcd|]. split; [exact Ha|].
  split; [apply filter_partition_perm|]. split.
  - intros item Hn Hd. apply filter_In in Hn, Hd.
    destruct Hn as [_ Hn], Hd as [_ Hd]. rewrite Hd in Hn. discriminate Hn.
  - intros item Hd. apply filter_In in Hd. destruct Hd as [_ Hd].
    destruct (check_batches_sound _ _ _ _ _ _ _ _ _ (u_url item) Hex Hd)
      as [Hfalse|Harch]; [discriminate Hfalse|exact Harch].
Qed.

Lemma check_batches_store_down env userId urlList (fuel : nat) :
  (forall t, store_error env t <> None) ->
  forall i ex w, exists w',
    check_batches env userId urlList fuel i ex w = (Ok ex, w').
Proof.
  intros Hdown. induction fuel as [|fuel IH]; intros i ex w.
  - exists w. reflexivity.
  - cbn [check_batches]. destruct (i <? Z.of_nat (length urlList)).
    + cbv zeta. unfold bind at 1. rewrite select_archive_urls_in_eq.
      destruct (store_error env (clock w)) as [e|] eqn:E;
        [apply IH|exfalso; exact (Hdown _ E)].
    + exists w. reflexivity.
Qed.

Lemma filter_true {A} (l : list A) : filter (fun _ => true) l = l.
Proof. induction l as [|x l IH]; simpl; [|rewrite IH]; reflexivity. Qed.

Lemma filter_false {A} (l : list A) : filter (fun _ => false) l = [].
Proof. induction l as [|x l IH]; simpl; [reflexivity|exact IH]. Qed.

(** X2.  The duplicate check fails open: when the store fails every
    query, every row of the table is new and none is a duplicate. *)
Theorem checkForDuplicates_fails_open env urls userId w :
  (forall t, store_error env t <> None) ->
  exists w', checkForDuplicates env urls userId w = (Ok (urls, []), w').
Proof.
  intros Hdown.
  destruct (check_batches_store_down env userId (map u_url urls)
              (length (map u_url urls)) Hdown 0 [] w) as (w' & H).
  exists w'. unfold checkForDuplicates, try_catch, bind. rewrite H.
  unfold ret. cbn [has existsb negb].
  rewrite filter_true, filter_false. reflexivity.
Qed.

Lemma checkForDuplicates_fails_open_witness :
  (forall t, store_error env_store_down t <> None)
  /\ exists w',
       checkForDuplicates env_store_down three_rows alice world_a
       = (Ok (three_rows, []), w').
Proof.
  assert (H : forall t, store_error env_store_down t <> None)
    by (intros t; discriminate).
  split; [exact H|].
  exact (checkForDuplicates_fails_open env_store_down three_rows alice
           world_a H).
Defined.

(** X3.  When the store answers every query, the duplicates are exactly
    the rows whose url the user has archived, and the new rows are the
    others, both in the order of the table. *)
Theorem checkForDuplicates_exact env urls userId w :
  store_answers env ->
  exists w',
    checkForDuplicates env urls userId w
    = (Ok (filter (fun item =>
                     negb (is_archived userId (archives w) (u_url item)))
                  urls,
           filter (fun item => is_archived userId (archives w) (u_url item))
                  urls), w').
Proof.
  intros Hs.
  destruct (checkForDuplicates_partition env urls userId w)
    as (ex & w' & Hex & Hcd & _).
  exists w'. rewrite Hcd.
  pose proof (duplicates_are_archived _ _ _ _ _ _ Hs Hex) as Hd.
  assert (Hn : filter (fun item => negb (has ex (u_url item))) urls
               = filter (fun item =>
                           negb (is_archived userId (archives w)
                                   (u_url item))) urls).
  { apply filter_ext_in. intros u Hu. f_equal.
    destruct (is_archived userId (archives w) (u_url u)) eqn:Ea.
    - apply is_archived_iff in Ea.
      eapply (check_batches_complete env userId (map u_url urls)); eauto;
        try lia.
      right. split; [simpl; apply in_map; exact Hu|exact Ea].
    - destruct (has ex (u_url u)) eqn:Eh; [|reflexivity].
      destruct (check_batches_sound _ _ _ _ _ _ _ _ _ (u_url u) Hex Eh)
        as [Hfalse|Harch]; [discriminate Hfalse|].
      apply is_archived_iff in Harch. congruence. }
  rewrite Hd, Hn. reflexivity.
Qed.

Lemma checkForDuplicates_exact_witness :
  store_answers env_ok
  /\ exists w',
       checkForDuplicates env_ok three_rows alice world_a
       = (Ok (filter (fun item =>
                        negb (is_archived alice (archives world_a)
                                (u_url item))) three_rows,
              filter (fun item =>
                        is_archived alice (archives world_a) (u_url item))
                     three_rows), w').
Proof.
  split; [exact store_answers_env_ok|].
  exact (checkForDuplicates_exact env_ok three_rows alice world_a
           store_answers_env_ok).
Defined.

(* ------------------------------------------------------------------ *)
(** ** What a run writes and what it asks for *)

(** X4.  A run never changes or removes a row, whatever the order in
    which the calls of a batch are answered: the table of archives after
    it is the table before it followed by the rows created, there are
    exactly [successful] of them, and each belongs to the user and to a
    url of the table imported. *)
Theorem import_rows_created env schedule fuel urls userId opts w s w' :
  processPocketImport env schedule fuel urls userId opts w = (Ok s, w') ->
  exists extra,
    archives w' = archives w ++ extra
    /\ length extra = s_successful s
    /\ Forall (fun row => a_user_id row = userId
                          /\ In (a_url row) (map u_url urls)) extra.
Proof.
  intros H.
  destruct (import_run _ _ _ _ _ _ _ _ _ H)
    as (newUrls & duplicates & w1 & Hcd & Ha & _ & Hs & Hrun).
  destruct (items_run_effects _ _ _ _ _ _ Hrun)
    as (_ & _ & extra & Hx & Hl & Hf).
  exists extra. rewrite Hx, Ha. split; [reflexivity|].
  split.
  - pose proof (f_equal s_successful Hs) as Hsucc.
    rewrite fold_account_created in Hsucc. cbn [s_successful] in Hsucc.
    lia.
  - eapply Forall_impl; [|exact Hf]. cbn beta. intros row [Hu Hin].
    split; [exact Hu|].
    destruct (checkForDuplicates_partition env urls userId w)
      as (ex & w0 & _ & Hcd0 & _).
    rewrite Hcd in Hcd0. injection Hcd0 as Hnew _ _.
    apply in_map_iff in Hin. destruct Hin as (u & Hu' & Hin).
    apply in_map_iff. exists u. split; [exact Hu'|].
    rewrite Hnew in Hin. apply filter_In in Hin. exact (proj1 Hin).
Qed.

Lemma import_rows_created_witness :
  exists s w',
    processPocketImport env_ok in_turn 4 three_rows alice defaultOptions
      world_a = (Ok s, w')
    /\ exists extra,
         archives w' = archives world_a ++ extra
         /\ length extra = s_successful s
         /\ Forall (fun row => a_user_id row = alice
                               /\ In (a_url row) (map u_url three_rows))
                   extra.
Proof.
  destruct (processPocketImport env_ok in_turn 4 three_rows alice
              defaultOptions world_a) as [[s| |] w'] eqn:E;
    [|vm_compute in E; discriminate E..].
  exists s, w'. split; [reflexivity|].
  exact (import_rows_created env_ok in_turn 4%nat three_rows alice
           defaultOptions world_a s w' E).
Defined.

(** X5.  Every call of the extraction collaborator is accounted for,
    whatever the order in which the calls of a batch are answered: a run
    makes exactly [successful + failed] of them, one for each row that
    was neither a duplicate nor skipped, and none for the others. *)
Theorem import_extractions_counted env schedule fuel urls userId opts w s
    w' :
  processPocketImport env schedule fuel urls userId opts w = (Ok s, w') ->
  extractions (trace w')
  = (extractions (trace w) + s_successful s + s_failed s)%nat.
Proof.
  intros H.
  destruct (import_run _ _ _ _ _ _ _ _ _ H)
    as (newUrls & duplicates & w1 & Hcd & _ & Ht & Hs & Hrun).
  destruct (items_run_effects _ _ _ _ _ _ Hrun) as (_ & Hx & _).
  rewrite Hx, Ht, not_skipped_count.
  pose proof (f_equal s_successful Hs) as Hsucc.
  pose proof (f_equal s_failed Hs) as Hfail.
  rewrite fold_account_created in Hsucc.
  match type of Hfail with
  | context [fold_left account_result ?rs ?s0] =>
      destruct (fold_account_fields rs s0) as (_ & _ & _ & _ & _ & Hf)
  end.
  cbn zeta in Hf. rewrite Hf in Hfail.
  cbn [s_successful s_failed] in Hsucc, Hfail. lia.
Qed.

Lemma import_extractions_counted_witness :
  exists s w',
    processPocketImport env_ok in_turn 4 three_rows alice defaultOptions
      world_a = (Ok s, w')
    /\ extractions (trace w')
       = (extractions (trace world_a) + s_successful s + s_failed s)%nat.
Proof.
  destruct (processPocketImport env_ok in_turn 4 three_rows alice
              defaultOptions world_a) as [[s| |] w'] eqn:E;
    [|vm_compute in E; discriminate E..].
  exists s, w'. split; [reflexivity|].
  exact (import_extractions_counted env_ok in_turn 4%nat three_rows alice
           defaultOptions world_a s w' E).
Defined.

(** X6.  The results of a run are in the order of the table, not in the
    order in which the items of a batch complete: whatever the schedule,
    [results] has one entry for each new row, about the url of that row,
    in the order in which [checkForDuplicates] returned the new rows. *)
Theorem import_results_in_table_order env schedule fuel urls userId opts w
    s w' :
  processPocketImport env schedule fuel urls userId opts w = (Ok s, w') ->
  exists newUrls duplicates w1,
    checkForDuplicates env urls userId w = (Ok (newUrls, duplicates), w1)
    /\ map result_url (s_results s) = map u_url newUrls.
Proof.
  intros H.
  destruct (import_run _ _ _ _ _ _ _ _ _ H)
    as (newUrls & duplicates & w1 & Hcd & _ & _ & _ & Hrun).
  destruct (items_run_effects _ _ _ _ _ _ Hrun) as (Hu & _).
  exists newUrls, duplicates, w1. split; assumption.
Qed.

Lemma import_results_in_table_order_witness :
  exists s w',
    processPocketImport env_ok in_turn 4 three_rows alice defaultOptions
      world_a = (Ok s, w')
    /\ exists newUrls duplicates w1,
         checkForDuplicates env_ok three_rows alice world_a
         = (Ok (newUrls, duplicates), w1)
         /\ map result_url (s_results s) = map u_url newUrls.
Proof.
  destruct (processPocketImport env_ok in_turn 4 three_rows alice
              defaultOptions world_a) as [[s| |] w'] eqn:E;
    [|vm_compute in E; discriminate E..].
  exists s, w'. split; [reflexivity|].
  exact (import_results_in_table_order env_ok in_turn 4%nat three_rows
           alice defaultOptions world_a s w' E).
Defined.

(* ------------------------------------------------------------------ *)
(** ** Pauses, and options out of range *)

Lemma account_all_world rs : forall s w s' w',
  account_all s rs w = (Ok s', w') -> w' = w.
Proof.
  induction rs as [|r rs IH]; intros s w s' w' H.
  - injection H as _ <-. reflexivity.
  - cbn [account_all] in H. apply bind_Ok in H.
    destruct H as (s1 & w1 & Hacc & H). apply IH in H. subst w'.
    destruct r as [[u [r|]]|reason]; cbn [account] in Hacc;
      try discriminate Hacc; injection Hacc as _ <-; reflexivity.
Qed.

Lemma allSettled_no_pause env schedule opts userId batch :
  0 <= maxRetries opts ->
  forall w rs w',
    allSettled schedule (S (length batch * item_calls opts))
      (map (process_item env opts userId) batch) w = (Ok rs, w') ->
    pauses (trace w') = pauses (trace w).
Proof.
  intros Hmax w rs w' H.
  destruct (process_item_no_retry env schedule opts userId batch w Hmax)
    as (rs0 & w0 & Hall & _ & _ & Hp).
  rewrite Hall in H. injection H as _ <-. exact Hp.
Qed.

Lemma batches_step n b : 1 <= b -> b + 1 <= n ->
  (n + b - 1) / b = (n - b + b - 1) / b + 1.
Proof.
  intros Hb Hn. replace (n + b - 1) with (n - b + b - 1 + 1 * b) by lia.
  apply Z.div_add. lia.
Qed.

Lemma batches_last n b : 1 <= b -> 1 <= n <= b -> (n + b - 1) / b = 1.
Proof.
  intros Hb Hn. symmetry. apply (Z.div_unique _ _ 1 (n - 1)); lia.
Qed.

Lemma batches_none n b : 1 <= b -> n <= 0 -> (n + b - 1) / b <= 0.
Proof.
  intros Hb Hn. assert ((n + b - 1) / b < 1); [|lia].
  apply Z.div_lt_upper_bound; lia.
Qed.

Section Pauses.

Variable env : Env.
Variable schedule : nat -> nat.
Variable opts : Options.
Variable userId : jsstring.
Variable l : list UrlData.

Hypothesis Hbatch : 1 <= batchSize opts.
Hypothesis Hmax : 0 <= maxRetries opts.

Lemma batch_loop_pauses (fuel : nat) : forall i s w s' w',
  0 <= i ->
  batch_loop env schedule opts userId l fuel i s w = (Ok s', w') ->
  pauses (trace w')
  = pauses (trace w)
    ++ (if 0 <? delayBetweenBatches opts
        then repeat (delayBetweenBatches opts)
               (Z.to_nat ((Z.of_nat (length l) - i + batchSize opts - 1)
                          / batchSize opts - 1))
        else []).
Proof.
  induction fuel as [|fuel IH]; intros i s w s' w' Hi H;
    [discriminate H|].
  cbn [batch_loop] in H.
  destruct (i <? Z.of_nat (length l)) eqn:Ei.
  - apply Z.ltb_lt in Ei. cbv zeta in H.
    apply bind_Ok in H. destruct H as (rs & w1 & Hall & H).
    apply bind_Ok in H. destruct H as (s1 & w2 & Hacc & H).
    apply bind_Ok in H. destruct H as ([] & w3 & Hp & H).
    apply account_all_world in Hacc. subst w2.
    apply (allSettled_no_pause _ _ _ _ _ Hmax) in Hall.
    apply IH in H; [|lia]. rewrite H, <- Hall.
    replace (Z.of_nat (length l) - (i + batchSize opts)
             + batchSize opts - 1)
      with (Z.of_nat (length l) - i - batchSize opts + batchSize opts - 1)
      by lia.
    destruct (i + batchSize opts <? Z.of_nat (length l)) eqn:En;
      cbn [andb] in Hp.
    + apply Z.ltb_lt in En.
      rewrite (batches_step (Z.of_nat (length l) - i) (batchSize opts))
        by lia.
      destruct (0 <? delayBetweenBatches opts).
      * unfold sleep, emit in Hp. injection Hp as <-. cbn [trace].
        rewrite pauses_app. cbn [pauses flat_map app].
        rewrite <- app_assoc. f_equal. cbn [app].
        pose proof (batches_step (Z.of_nat (length l) - i)
                      (batchSize opts) Hbatch ltac:(lia)) as Hq.
        assert (1 <= (Z.of_nat (length l) - i - batchSize opts
                      + batchSize opts - 1) / batchSize opts).
        { apply Z.div_le_lower_bound; lia. }
        replace (Z.to_nat
                   ((Z.of_nat (length l) - i - batchSize opts
                     + batchSize opts - 1) / batchSize opts + 1 - 1))
          with (S (Z.to_nat
                     ((Z.of_nat (length l) - i - batchSize opts
                       + batchSize opts - 1) / batchSize opts - 1)))
          by lia.
        reflexivity.
      * injection Hp as <-. rewrite !app_nil_r. reflexivity.
    + apply Z.ltb_ge in En. injection Hp as <-.
      rewrite (batches_last (Z.of_nat (length l) - i) (batchSize opts))
        by lia.
      pose proof (batches_none (Z.of_nat (length l) - i - batchSize opts)
                    (batchSize opts) Hbatch ltac:(lia)) as Hq.
      replace (Z.to_nat
                 ((Z.of_nat (length l) - i - batchSize opts
                   + batchSize opts - 1) / batchSize opts - 1))
        with O by lia.
      reflexivity.
  - apply Z.ltb_ge in Ei. injection H as _ <-.
    pose proof (batches_none (Z.of_nat (length l) - i) (batchSize opts)
                  Hbatch ltac:(lia)) as Hq.
    replace (Z.to_nat ((Z.of_nat (length l) - i + batchSize opts - 1)
                       / batchSize opts - 1)) with O by lia.
    destruct (0 <? delayBetweenBatches opts); rewrite app_nil_r;
      reflexivity.
Qed.

End Pauses.

(** X7.  With a positive batch size and [0 <= maxRetries], and whatever
    the schedule, a run pauses for [delayBetweenBatches] after every batch
    but the last, and never otherwise: its pauses are one less than the
    number of batches of the new rows, or none when the delay is not
    positive. *)
Theorem import_pauses_between_batches env schedule fuel urls userId opts w
    s w' :
  1 <= batchSize opts -> 0 <= maxRetries opts ->
  processPocketImport env schedule fuel urls userId opts w = (Ok s, w') ->
  exists newUrls duplicates w1,
    checkForDuplicates env urls userId w = (Ok (newUrls, duplicates), w1)
    /\ pauses (trace w')
       = pauses (trace w)
         ++ (if 0 <? delayBetweenBatches opts
             then repeat (delayBetweenBatches opts)
                    (Z.to_nat (batches (length newUrls) (batchSize opts)
                               - 1))
             else []).
Proof.
  intros Hbs Hmax H.
  destruct (import_run _ _ _ _ _ _ _ _ _ H)
    as (newUrls & duplicates & w1 & Hcd & _ & Ht & _ & _).
  exists newUrls, duplicates, w1. split; [exact Hcd|].
  unfold processPocketImport in H. unfold bind at 1 in H.
  rewrite Hcd in H.
  apply (batch_loop_pauses env schedule opts userId newUrls Hbs Hmax) in H;
    [|lia].
  rewrite H, Ht. unfold batches. rewrite Z.sub_0_r. reflexivity.
Qed.

Lemma import_pauses_between_batches_witness :
  exists s w',
    1 <= batchSize (mkOptions 1 500 200 2)
    /\ 0 <= maxRetries (mkOptions 1 500 200 2)
    /\ processPocketImport env_ok in_turn 4 three_rows alice
         (mkOptions 1 500 200 2) world_a = (Ok s, w')
    /\ pauses (trace w') = [500].
Proof.
  destruct (processPocketImport env_ok in_turn 4 three_rows alice
              (mkOptions 1 500 200 2) world_a) as [[s| |] w'] eqn:E;
    [|vm_compute in E; discriminate E..].
  assert (H1 : 1 <= batchSize (mkOptions 1 500 200 2))
    by (vm_compute; discriminate).
  assert (H2 : 0 <= maxRetries (mkOptions 1 500 200 2))
    by (vm_compute; discriminate).
  exists s, w'. split; [exact H1|]. split; [exact H2|].
  split; [reflexivity|].
  destruct (import_pauses_between_batches env_ok in_turn 4%nat three_rows
              alice (mkOptions 1 500 200 2) world_a s w' H1 H2 E)
    as (newUrls & duplicates & w1 & Hcd & Hp).
  vm_compute in Hcd. injection Hcd as <- _ _.
  rewrite Hp. reflexivity.
Defined.

(** X8.  A negative [maxRetries], with a positive batch size, makes the
    import reject: the loop around [archiveSinglePage] is never entered,
    the result of the first new row stays [null], and reading its
    [success] throws, before any page is extracted and before any row is
    written. *)
Theorem import_rejects_negative_maxRetries env schedule fuel urls userId
    opts w newUrls duplicates w1 :
  maxRetries opts < 0 -> 1 <= batchSize opts ->
  checkForDuplicates env urls userId w = (Ok (newUrls, duplicates), w1) ->
  newUrls <> [] ->
  processPocketImport env schedule (S fuel) urls userId opts w
  = (Throw (js "Cannot read properties of null (reading 'success')"), w1)
  /\ archives w1 = archives w /\ trace w1 = trace w.
Proof.
  intros Hmax Hbs Hcd Hnew.
  assert (Hw : archives w1 = archives w /\ trace w1 = trace w).
  { destruct (checkForDuplicates_partition env urls userId w)
      as (ex & w0 & Hex & Hcd0 & Ha).
    rewrite Hcd in Hcd0. injection Hcd0 as _ _ <-.
    split; [exact Ha|]. eapply check_batches_trace. exact Hex. }
  split; [|exact Hw].
  unfold processPocketImport. unfold bind at 1. rewrite Hcd.
  apply batch_loop_null_result; assumption.
Qed.

Lemma import_rejects_negative_maxRetries_witness :
  exists w1,
    maxRetries (mkOptions 10 500 200 (-1)) < 0
    /\ 1 <= batchSize (mkOptions 10 500 200 (-1))
    /\ checkForDuplicates env_ok three_rows alice world_a
       = (Ok (tl three_rows, [hd (mkUrlData [] [] []) three_rows]), w1)
    /\ tl three_rows <> []
    /\ processPocketImport env_ok in_turn 1 three_rows alice
         (mkOptions 10 500 200 (-1)) world_a
       = (Throw (js "Cannot read properties of null (reading 'success')"),
          w1)
    /\ archives w1 = archives world_a /\ trace w1 = trace world_a.
Proof.
  eexists.
  assert (H1 : maxRetries (mkOptions 10 500 200 (-1)) < 0)
    by (vm_compute; reflexivity).
  assert (H2 : 1 <= batchSize (mkOptions 10 500 200 (-1)))
    by (vm_compute; discriminate).
  assert (H4 : tl three_rows <> []) by discriminate.
  split; [exact H1|]. split; [exact H2|].
  split; [vm_compute; reflexivity|]. split; [exact H4|].
  exact (import_rejects_negative_maxRetries env_ok in_turn 0%nat three_rows
           alice (mkOptions 10 500 200 (-1)) world_a (tl three_rows)
           [hd (mkUrlData [] [] []) three_rows] _ H1 H2 eq_refl H4).
Defined.

(** X9.  A batch size that is not positive, with [0 <= maxRetries] and
    at least one new row: the index of the loop over the batches never
    passes the end of the list, and the import never returns, whatever
    the fuel and the schedule. *)
Theorem import_never_returns_without_batch_size env schedule urls userId
    opts w newUrls duplicates w1 :
  batchSize opts <= 0 -> 0 <= maxRetries opts ->
  checkForDuplicates env urls userId w = (Ok (newUrls, duplicates), w1) ->
  newUrls <> [] ->
  forall fuel, exists w',
    processPocketImport env schedule fuel urls userId opts w = (Diverge, w').
Proof.
  intros Hbs Hmax Hcd Hnew fuel.
  unfold processPocketImport. unfold bind at 1. rewrite Hcd.
  assert (Hlen : 0 < Z.of_nat (length newUrls))
    by (destruct newUrls; [congruence|simpl; lia]).
  generalize (mkSummary (length urls) 0 0 [] (length duplicates)
                (length duplicates)).
  assert (Hi : 0 <= 0) by lia. revert Hi.
  generalize 0 at 1 3. generalize w1.
  induction fuel as [|fuel IH]; intros w0 i Hi s.
  - exists w0. reflexivity.
  - cbn [batch_loop].
    replace (i <? Z.of_nat (length newUrls)) with true
      by (symmetry; apply Z.ltb_lt; lia).
    cbv zeta.
    destruct (process_item_no_retry env schedule opts userId
                (slice newUrls i (i + batchSize opts)) w0 Hmax)
      as (rs & w2 & Hall & Hlen2 & _).
    unfold bind at 1. rewrite Hall.
    unfold bind at 1.
    rewrite (account_all_fulfilled _ _ _ _ Hlen2).
    unfold bind at 1.
    destruct ((i + batchSize opts <? Z.of_nat (length newUrls))
              && (0 <? delayBetweenBatches opts));
      cbn [sleep emit ret]; apply IH; lia.
Qed.

Lemma import_never_returns_without_batch_size_witness :
  exists w1,
    batchSize (mkOptions 0 500 200 2) <= 0
    /\ 0 <= maxRetries (mkOptions 0 500 200 2)
    /\ checkForDuplicates env_ok three_rows alice world_a
       = (Ok (tl three_rows, [hd (mkUrlData [] [] []) three_rows]), w1)
    /\ tl three_rows <> []
    /\ forall fuel, exists w',
         processPocketImport env_ok in_turn fuel three_rows alice
           (mkOptions 0 500 200 2) world_a = (Diverge, w').
Proof.
  eexists.
  assert (H1 : batchSize (mkOptions 0 500 200 2) <= 0)
    by (vm_compute; discriminate).
  assert (H2 : 0 <= maxRetries (mkOptions 0 500 200 2))
    by (vm_compute; discriminate).
  assert (H4 : tl three_rows <> []) by discriminate.
  split; [exact H1|]. split; [exact H2|].
  split; [vm_compute; reflexivity|]. split; [exact H4|].
  exact (import_never_returns_without_batch_size env_ok in_turn three_rows
           alice (mkOptions 0 500 200 2) world_a (tl three_rows)
           [hd (mkUrlData [] [] []) three_rows] _ H1 H2 eq_refl H4).
Defined.

(* ================================================================== *)
(** * Further properties of the chunkers *)

Lemma lastIndexOf_from_bounds s pat (k : nat) :
  -1 <= lastIndexOf_from s pat k <= Z.of_nat k.
Proof.
  induction k as [|k IH]; cbn [lastIndexOf_from];
    destruct (starts_with pat _); lia.
Qed.

(** [lastIndexOf] returns -1 or an index at which the pattern fits, not
    after the position asked for. *)
Lemma lastIndexOf_bounds s pat position :
  -1 <= lastIndexOf s pat position
  /\ lastIndexOf s pat position <= Z.max position 0
  /\ lastIndexOf s pat position + Z.of_nat (length pat)
     <= Z.max (Z.of_nat (length s)) (Z.of_nat (length pat) - 1).
Proof.
  unfold lastIndexOf.
  destruct (Z.of_nat (length s) <? Z.of_nat (length pat)) eqn:E.
  - apply Z.ltb_lt in E. lia.
  - apply Z.ltb_ge in E.
    pose proof (lastIndexOf_from_bounds s pat
                  (Z.to_nat (Z.min (Z.max position 0)
                               (Z.of_nat (length s)
                                - Z.of_nat (length pat))))).
    lia.
Qed.

Lemma slice_length {A} (l : list A) (a b : Z) :
  0 <= a -> 0 <= b ->
  Z.of_nat (length (slice l a b)) <= Z.max 0 (b - a).
Proof.
  intros Ha Hb. unfold slice, rel_index.
  replace (a <? 0) with false by (symmetry; apply Z.ltb_ge; lia).
  replace (b <? 0) with false by (symmetry; apply Z.ltb_ge; lia).
  rewrite length_firstn. lia.
Qed.

Lemma trimStart_length s : (length (trimStart s) <= length s)%nat.
Proof.
  induction s as [|c s IH]; simpl; [lia|].
  destruct (is_space c); simpl; lia.
Qed.

Lemma trim_length s : (length (trim s) <= length s)%nat.
Proof.
  unfold trim. rewrite length_rev.
  etransitivity; [apply trimStart_length|].
  rewrite length_rev. apply trimStart_length.
Qed.

(** The end of the window of a pass of the chunker of
    [gemini-embeddings.js]: after the position, inside the text, and at
    most [chunkSize + 1] after the position. *)
Lemma gemini_window text chunkSize position :
  1 <= chunkSize -> 0 <= position < Z.of_nat (length text) ->
  let len := Z.of_nat (length text) in
  let endPosition := Z.min (position + chunkSize) len in
  let endPosition' :=
    if endPosition <? len then
      let breakPoint :=
        Z.max (Z.max (lastIndexOf text DOUBLE_NEWLINE endPosition)
                     (lastIndexOf text PERIOD_SPACE endPosition))
              (lastIndexOf text NEWLINE endPosition) in
      if 2 * position + chunkSize <? 2 * breakPoint
      then breakPoint + 1 else endPosition
    else endPosition in
  position < endPosition' <= len
  /\ endPosition' <= position + chunkSize + 1.
Proof.
  intros Hcs Hp len endPosition endPosition'. subst endPosition'.
  assert (He : position < endPosition <= len) by (subst endPosition; lia).
  assert (He' : endPosition <= position + chunkSize)
    by (subst endPosition; lia).
  destruct (endPosition <? len); [|lia].
  cbv zeta.
  pose proof (lastIndexOf_bounds text DOUBLE_NEWLINE endPosition) as H1.
  pose proof (lastIndexOf_bounds text PERIOD_SPACE endPosition) as H2.
  pose proof (lastIndexOf_bounds text NEWLINE endPosition) as H3.
  cbn [length DOUBLE_NEWLINE PERIOD_SPACE NEWLINE] in H1, H2, H3.
  fold len in H1, H2, H3.
  match goal with
  | |- context [if ?c then _ else _] => destruct c eqn:E
  end; [apply Z.ltb_lt in E|]; lia.
Qed.

Lemma trimStart_head_ok s : head_ok (trimStart s).
Proof.
  induction s as [|c s IH]; simpl; [exact I|].
  destruct (is_space c) eqn:E; [exact IH|exact E].
Qed.

Lemma trimStart_fixed s : head_ok s -> trimStart s = s.
Proof. destruct s as [|c s]; simpl; [reflexivity|]. intros ->. reflexivity. Qed.

Lemma trimStart_suffix s : exists pre, s = pre ++ trimStart s.
Proof.
  induction s as [|c s (pre & IH)]; simpl; [exists []; reflexivity|].
  destruct (is_space c).
  - exists (c :: pre). simpl. rewrite <- IH. reflexivity.
  - exists []. reflexivity.
Qed.

Lemma head_ok_prefix a b : head_ok (a ++ b) -> head_ok a.
Proof. destruct a; simpl; auto. Qed.

(** A trimmed string has no white space at either end: trimming it again
    changes nothing. *)
Lemma trim_idempotent s : trim (trim s) = trim s.
Proof.
  unfold trim.
  set (t := trimStart s). set (u := trimStart (rev t)).
  assert (Hu : head_ok u) by apply trimStart_head_ok.
  assert (Hr : head_ok (rev u)).
  { destruct (trimStart_suffix (rev t)) as (pre & Hpre). fold u in Hpre.
    assert (Ht : t = rev u ++ rev pre).
    { rewrite <- (rev_involutive t), Hpre, rev_app_distr. reflexivity. }
    apply head_ok_prefix with (b := rev pre). rewrite <- Ht.
    apply trimStart_head_ok. }
  rewrite (trimStart_fixed _ Hr), rev_involutive, (trimStart_fixed _ Hu).
  reflexivity.
Qed.

(** One pass of the chunker of [gemini-embeddings.js], with the end of
    its window named. *)
Lemma gemini_step_eq text chunkSize overlap position chunks :
  1 <= chunkSize -> 0 <= position < Z.of_nat (length text) ->
  exists endPosition,
    position < endPosition <= Z.of_nat (length text)
    /\ endPosition <= position + chunkSize + 1
    /\ GeminiEmbeddings.chunk_step text chunkSize overlap (position, chunks)
       = (let chunkContent := trim (slice text position endPosition) in
          let chunks' :=
            if truthy chunkContent
            then chunks ++ [mkChunk chunkContent (length chunks)]
            else chunks in
          (if endPosition - overlap <=? Z.of_nat (length chunks') * overlap
           then Z.max endPosition (endPosition - overlap + 1)
           else endPosition - overlap, chunks')).
Proof.
  intros Hcs Hp.
  pose proof (gemini_window text chunkSize position Hcs Hp) as Hw.
  cbv zeta in Hw. eexists. split; [exact (proj1 Hw)|].
  split; [exact (proj2 Hw)|]. reflexivity.
Qed.

(** X10.  [chunkText] never returns an empty chunk or a chunk with white
    space at either end: every content is its own trimming and is not
    the empty string. *)
Theorem chunkText_chunks_trimmed fuel text chunkSize overlap chunks :
  GeminiEmbeddings.chunkText fuel text chunkSize overlap = Some chunks ->
  Forall (fun c => content c <> [] /\ trim (content c) = content c) chunks.
Proof.
  unfold GeminiEmbeddings.chunkText. intros H.
  eapply chunk_loop_invariant
    with (P := Forall (fun c => content c <> []
                                /\ trim (content c) = content c));
    [| |exact H]; [|constructor].
  intros [position cs] HP. unfold GeminiEmbeddings.chunk_step.
  cbv zeta. cbn [snd] in *.
  match goal with
  | |- context [truthy ?c] => destruct (truthy c) eqn:E
  end; cbn [snd]; [|exact HP].
  apply Forall_app. split; [exact HP|].
  constructor; [|constructor]. cbn [content]. split.
  - intros Hnil. rewrite Hnil in E. discriminate E.
  - apply trim_idempotent.
Qed.

Lemma chunkText_chunks_trimmed_witness :
  GeminiEmbeddings.chunkText 10 (js "abcdefghij") 20 2
    = Some ten_letters_chunks
  /\ Forall (fun c => content c <> [] /\ trim (content c) = content c)
       ten_letters_chunks.
Proof.
  split; [vm_compute; reflexivity|].
  apply (chunkText_chunks_trimmed 10 (js "abcdefghij") 20 2).
  vm_compute; reflexivity.
Defined.

(** X11.  With [1 <= chunkSize], no chunk is longer than [chunkSize + 1]
    code units: a window ends at most one code unit after
    [position + chunkSize], when a break point is found at the very end
    of the window. *)
Theorem chunkText_chunk_length fuel text chunkSize overlap chunks :
  1 <= chunkSize ->
  GeminiEmbeddings.chunkText fuel text chunkSize overlap = Some chunks ->
  Forall (fun c => Z.of_nat (length (content c)) <= chunkSize + 1) chunks.
Proof.
  unfold GeminiEmbeddings.chunkText. intros Hcs H.
  destruct (chunk_loop_state_invariant
              (GeminiEmbeddings.chunk_step text chunkSize overlap)
              (Z.of_nat (length text))
              (fun st => 0 <= fst st
                         /\ Forall (fun c => Z.of_nat (length (content c))
                                             <= chunkSize + 1) (snd st)))
    with (fuel := fuel) (st := (0, @nil Chunk)) (chunks := chunks)
    as (position & [_ HP] & _); [| |exact H|exact HP].
  - intros [position cs] Hlt [Hpos HP]. cbn [fst snd] in *.
    destruct (gemini_step_eq text chunkSize overlap position cs Hcs
                ltac:(lia)) as (e & He & He' & ->).
    cbv zeta. cbn [fst snd]. split.
    + match goal with
      | |- context [if ?c then _ else _] => destruct c eqn:E
      end; [lia|]. apply Z.leb_gt in E.
      destruct (Z.le_gt_cases 0 overlap); [|lia].
      assert (0 <= Z.of_nat
                      (length
                         (if truthy (trim (slice text position e))
                          then cs ++ [mkChunk (trim (slice text position e))
                                        (length cs)]
                          else cs)) * overlap) by lia.
      lia.
    + destruct (truthy (trim (slice text position e))); [|exact HP].
      apply Forall_app. split; [exact HP|].
      constructor; [|constructor]. cbn [content].
      pose proof (trim_length (slice text position e)).
      pose proof (slice_length text position e ltac:(lia) ltac:(lia)). lia.
  - cbn [fst snd]. split; [lia|constructor].
Qed.

Lemma chunkText_chunk_length_witness :
  1 <= 4
  /\ GeminiEmbeddings.chunkText 10 (js "aaaa. bbbbbbb") 4 0
     = Some [mkChunk (js "aaaa.") 0; mkChunk (js "bbb") 1;
             mkChunk (js "bbbb") 2]
  /\ Forall (fun c => Z.of_nat (length (content c)) <= 4 + 1)
       [mkChunk (js "aaaa.") 0; mkChunk (js "bbb") 1;
        mkChunk (js "bbbb") 2].
Proof.
  assert (H1 : 1 <= 4) by lia.
  split; [exact H1|]. split; [vm_compute; reflexivity|].
  apply (chunkText_chunk_length 10 (js "aaaa. bbbbbbb") 4 0 _ H1).
  vm_compute; reflexivity.
Defined.

(* ------------------------------------------------------------------ *)
(** ** When the chunker of [gemini-embeddings.js] ends *)

Lemma trimStart_nil_iff s :
  trimStart s = [] <-> existsb (fun c => negb (is_space c)) s = false.
Proof.
  induction s as [|c s IH]; simpl; [tauto|].
  destruct (is_space c); simpl; [exact IH|].
  split; discriminate.
Qed.

Lemma existsb_rev {A} (f : A -> bool) l : existsb f (rev l) = existsb f l.
Proof.
  induction l as [|x l IH]; simpl; [reflexivity|].
  rewrite existsb_app, IH. simpl. rewrite orb_false_r. apply orb_comm.
Qed.

Lemma existsb_trimStart s :
  existsb (fun c => negb (is_space c)) (trimStart s)
  = existsb (fun c => negb (is_space c)) s.
Proof.
  induction s as [|c s IH]; simpl; [reflexivity|].
  destruct (is_space c) eqn:E; simpl; [exact IH|].
  rewrite E. reflexivity.
Qed.

(** A string with a character that is not white space is not trimmed to
    the empty string. *)
Lemma trim_truthy s :
  existsb (fun c => negb (is_space c)) s = true -> truthy (trim s) = true.
Proof.
  intros H. unfold trim.
  destruct (rev (trimStart (rev (trimStart s)))) as [|c r] eqn:E;
    [|reflexivity].
  apply (f_equal (@rev _)) in E. rewrite rev_involutive in E.
  simpl in E. apply trimStart_nil_iff in E.
  rewrite existsb_rev, existsb_trimStart, H in E. discriminate E.
Qed.

(** In a text that does not end in white space, no end of the text is
    blank. *)
Lemma suffix_not_blank text position :
  head_ok (rev text) -> 0 <= position < Z.of_nat (length text) ->
  truthy (trim (slice text position (Z.of_nat (length text)))) = true.
Proof.
  intros Hend Hp. apply trim_truthy.
  replace (Z.of_nat (length text))
    with (position + (Z.of_nat (length text) - position)) at 1 by lia.
  rewrite slice_window by lia.
  rewrite firstn_all2 by (rewrite length_skipn; lia).
  destruct (rev text) as [|c r] eqn:E.
  - apply (f_equal (@length _)) in E. rewrite length_rev in E.
    simpl in E. lia.
  - apply (f_equal (@rev _)) in E. rewrite rev_involutive in E.
    simpl in E, Hend. subst text. rewrite length_app in Hp. simpl in Hp.
    rewrite skipn_app, existsb_app.
    replace (Z.to_nat position - length (rev r))%nat with O by lia.
    simpl. rewrite Hend. simpl. apply orb_true_r.
Qed.

(** The window of a pass ends at the end of the text or more than half a
    chunk size after the position. *)
Lemma gemini_step_progress text chunkSize overlap position chunks :
  1 <= chunkSize -> 0 <= position < Z.of_nat (length text) ->
  exists endPosition,
    position < endPosition <= Z.of_nat (length text)
    /\ (endPosition = Z.of_nat (length text)
        \/ chunkSize < 2 * (endPosition - position))
    /\ GeminiEmbeddings.chunk_step text chunkSize overlap (position, chunks)
       = (let chunkContent := trim (slice text position endPosition) in
          let chunks' :=
            if truthy chunkContent
            then chunks ++ [mkChunk chunkContent (length chunks)]
            else chunks in
          (if endPosition - overlap <=? Z.of_nat (length chunks') * overlap
           then Z.max endPosition (endPosition - overlap + 1)
           else endPosition - overlap, chunks')).
Proof.
  intros Hcs Hp.
  pose proof (gemini_window text chunkSize position Hcs Hp) as Hw.
  cbv zeta in Hw. eexists. split; [exact (proj1 Hw)|].
  split; [|reflexivity].
  destruct (Z.min (position + chunkSize) (Z.of_nat (length text))
            <? Z.of_nat (length text)) eqn:E.
  - apply Z.ltb_lt in E. right.
    match goal with
    | |- context [if ?c then _ else _] => destruct c eqn:E2
    end; [apply Z.ltb_lt in E2|]; lia.
  - apply Z.ltb_ge in E. left. lia.
Qed.

Lemma gemini_budget_pos len overlap position k :
  0 <= len -> 1 <= gemini_budget len overlap position k.
Proof.
  intros Hlen. unfold gemini_budget.
  destruct (Z.leb_spec len position); [lia|].
  destruct (Z.ltb_spec position (len - overlap)); [lia|].
  destruct (Z.eqb_spec position (len - overlap)); lia.
Qed.

(** With an overlap of at least 1 and at most half the chunk size, on a
    text that does not end in white space, the loop ends within its
    budget. *)
Lemma gemini_loop_ends text chunkSize overlap :
  1 <= chunkSize -> 1 <= overlap -> 2 * overlap <= chunkSize ->
  head_ok (rev text) ->
  forall fuel position chunks,
    0 <= position ->
    gemini_budget (Z.of_nat (length text)) overlap position (length chunks)
      <= Z.of_nat fuel ->
    exists chunks',
      chunk_loop (GeminiEmbeddings.chunk_step text chunkSize overlap)
        (Z.of_nat (length text)) fuel (position, chunks) = Some chunks'.
Proof.
  intros Hcs Hov Hhalf Hend fuel.
  induction fuel as [|fuel IH]; intros position chunks Hpos Hfuel.
  - pose proof (gemini_budget_pos (Z.of_nat (length text)) overlap position
                  (length chunks) ltac:(lia)). lia.
  - rewrite chunk_loop_S. cbn [fst snd].
    destruct (Z.ltb_spec position (Z.of_nat (length text))) as [Hlt|Hge];
      [|eexists; reflexivity].
    destruct (gemini_step_progress text chunkSize overlap position chunks
                Hcs ltac:(lia)) as (e & He & Hprog & ->).
    cbv zeta.
    set (chunks' := if truthy (trim (slice text position e))
                    then chunks ++ [mkChunk (trim (slice text position e))
                                      (length chunks)]
                    else chunks).
    assert (Hk : length chunks' = length chunks
                 \/ length chunks' = S (length chunks)).
    { subst chunks'. destruct (truthy (trim (slice text position e)));
        [right; rewrite length_app; simpl; lia|left; reflexivity]. }
    assert (Htail : Z.of_nat (length text) - overlap <= position ->
                    e = Z.of_nat (length text)
                    /\ length chunks' = S (length chunks)).
    { intros Ht. assert (e = Z.of_nat (length text)) as -> by lia.
      split; [reflexivity|]. subst chunks'.
      rewrite suffix_not_blank by (assumption || lia).
      rewrite length_app. simpl. lia. }
    assert (Hmul : Z.of_nat (length chunks')
                   <= Z.of_nat (length chunks') * overlap) by nia.
    clearbody chunks'.
    apply IH.
    + destruct (Z.leb_spec (e - overlap)
                  (Z.of_nat (length chunks') * overlap)); lia.
    + revert Hfuel. unfold gemini_budget.
      destruct (Z.leb_spec (Z.of_nat (length text)) position); [lia|].
      destruct (Z.leb_spec (e - overlap)
                  (Z.of_nat (length chunks') * overlap)) as [Hg|Hg].
      * destruct (Z.ltb_spec position (Z.of_nat (length text) - overlap))
          as [Hm|Hm].
        -- destruct (Z.leb_spec (Z.of_nat (length text))
                       (Z.max e (e - overlap + 1))); [lia|].
           destruct (Z.ltb_spec (Z.max e (e - overlap + 1))
                       (Z.of_nat (length text) - overlap)); [lia|].
           destruct (Z.eqb_spec (Z.max e (e - overlap + 1))
                       (Z.of_nat (length text) - overlap)); lia.
        -- destruct (Htail Hm) as [-> Hk'].
           destruct (Z.leb_spec (Z.of_nat (length text))
                       (Z.max (Z.of_nat (length text))
                          (Z.of_nat (length text) - overlap + 1))); [|lia].
           destruct (Z.eqb_spec position
                       (Z.of_nat (length text) - overlap)); lia.
      * destruct (Z.ltb_spec position (Z.of_nat (length text) - overlap))
          as [Hm|Hm].
        -- destruct (Z.leb_spec (Z.of_nat (length text)) (e - overlap));
             [lia|].
           destruct (Z.ltb_spec (e - overlap)
                       (Z.of_nat (length text) - overlap)); [lia|].
           destruct (Z.eqb_spec (e - overlap)
                       (Z.of_nat (length text) - overlap)); lia.
        -- destruct (Htail Hm) as [-> Hk'].
           destruct (Z.leb_spec (Z.of_nat (length text))
                       (Z.of_nat (length text) - overlap)); [lia|].
           destruct (Z.ltb_spec (Z.of_nat (length text) - overlap)
                       (Z.of_nat (length text) - overlap)); [lia|].
           destruct (Z.eqb_spec (Z.of_nat (length text) - overlap)
                       (Z.of_nat (length text) - overlap)); [|lia].
           destruct (Z.eqb_spec position
                       (Z.of_nat (length text) - overlap)); lia.
Qed.

(** Without an overlap every pass moves the position forward. *)
Lemma gemini_loop_ends_no_overlap text chunkSize overlap :
  1 <= chunkSize -> overlap <= 0 ->
  forall fuel position chunks,
    0 <= position ->
    Z.max 0 (Z.of_nat (length text) - position) + 1 <= Z.of_nat fuel ->
    exists chunks',
      chunk_loop (GeminiEmbeddings.chunk_step text chunkSize overlap)
        (Z.of_nat (length text)) fuel (position, chunks) = Some chunks'.
Proof.
  intros Hcs Hov fuel.
  induction fuel as [|fuel IH]; intros position chunks Hpos Hfuel; [lia|].
  rewrite chunk_loop_S. cbn [fst snd].
  destruct (Z.ltb_spec position (Z.of_nat (length text))) as [Hlt|Hge];
    [|eexists; reflexivity].
  destruct (gemini_step_progress text chunkSize overlap position chunks
              Hcs ltac:(lia)) as (e & He & _ & ->).
  cbv zeta.
  match goal with
  | |- context [if ?c <=? ?d then _ else _] => destruct (Z.leb_spec c d)
  end; apply IH; lia.
Qed.

(** X12.  [chunkText] of [gemini-embeddings.js] returns when
    [1 <= chunkSize] and either there is no overlap, or the overlap is at
    most half the chunk size and the text does not end in white space:
    the loop ends within [2 * text.length + 3] passes. *)
Theorem chunkText_returns text chunkSize overlap :
  1 <= chunkSize ->
  overlap <= 0 \/ (2 * overlap <= chunkSize /\ head_ok (rev text)) ->
  exists chunks,
    GeminiEmbeddings.chunkText (2 * length text + 3) text chunkSize overlap
    = Some chunks.
Proof.
  intros Hcs Hov. unfold GeminiEmbeddings.chunkText.
  destruct (Z.le_gt_cases overlap 0) as [Hle|Hgt].
  - apply gemini_loop_ends_no_overlap; lia.
  - destruct Hov as [Hov|[Hhalf Hend]]; [lia|].
    apply gemini_loop_ends; try assumption; try lia.
    unfold gemini_budget. cbn [length].
    destruct (Z.leb_spec (Z.of_nat (length text)) 0); [lia|].
    destruct (Z.ltb_spec 0 (Z.of_nat (length text) - overlap)); [lia|].
    destruct (Z.eqb_spec 0 (Z.of_nat (length text) - overlap)); lia.
Qed.

Lemma chunkText_returns_witness :
  1 <= 4
  /\ (2 <= 0 \/ (2 * 2 <= 4 /\ head_ok (rev (js "aaaa. bbbbbbb"))))
  /\ exists chunks,
       GeminiEmbeddings.chunkText (2 * length (js "aaaa. bbbbbbb") + 3)
         (js "aaaa. bbbbbbb") 4 2 = Some chunks.
Proof.
  assert (H1 : 1 <= 4) by lia.
  assert (H2 : 2 <= 0 \/ (2 * 2 <= 4 /\ head_ok (rev (js "aaaa. bbbbbbb"))))
    by (right; split; [lia|reflexivity]).
  split; [exact H1|]. split; [exact H2|].
  exact (chunkText_returns (js "aaaa. bbbbbbb") 4 2 H1 H2).
Defined.

(* ------------------------------------------------------------------ *)
(** ** The chunker of [embeddings.js] always returns *)

(** The end of the window of a pass of the chunker of [embeddings.js]. *)
Lemma openai_step_eq text chunkSize overlap position chunks :
  1 <= chunkSize -> 0 <= position < Z.of_nat (length text) ->
  exists endPosition,
    position < endPosition <= Z.of_nat (length text)
    /\ endPosition <= position + chunkSize + 1
    /\ Embeddings.chunk_step text chunkSize overlap (position, chunks)
       = (let chunks' :=
            chunks ++ [mkChunk (trim (slice text position endPosition))
                         (length chunks)] in
          (if endPosition - overlap <=? Z.of_nat (length chunks') * overlap
           then Z.max endPosition (endPosition - overlap + 1)
           else endPosition - overlap, chunks')).
Proof.
  intros Hcs Hp. unfold Embeddings.chunk_step. cbv zeta.
  eexists. split; [|split; [|reflexivity]].
  - destruct (Z.min (position + chunkSize) (Z.of_nat (length text))
              <? Z.of_nat (length text)); [|lia].
    pose proof (lastIndexOf_bounds text PERIOD
                  (Z.min (position + chunkSize) (Z.of_nat (length text))))
      as H1.
    pose proof (lastIndexOf_bounds text NEWLINE
                  (Z.min (position + chunkSize) (Z.of_nat (length text))))
      as H2.
    cbn [length PERIOD NEWLINE] in H1, H2.
    match goal with
    | |- context [if ?c then _ else _] => destruct c eqn:E
    end; [apply Z.ltb_lt in E|]; lia.
  - destruct (Z.min (position + chunkSize) (Z.of_nat (length text))
              <? Z.of_nat (length text)); [|lia].
    pose proof (lastIndexOf_bounds text PERIOD
                  (Z.min (position + chunkSize) (Z.of_nat (length text))))
      as H1.
    pose proof (lastIndexOf_bounds text NEWLINE
                  (Z.min (position + chunkSize) (Z.of_nat (length text))))
      as H2.
    cbn [length PERIOD NEWLINE] in H1, H2.
    match goal with
    | |- context [if ?c then _ else _] => destruct c eqn:E
    end; [apply Z.ltb_lt in E|]; lia.
Qed.

(** Every pass pushes a chunk, and a pass that does not move the position
    forward needs fewer chunks than the text has code units: the loop
    ends within [openai_budget] passes. *)
Lemma openai_loop_ends text chunkSize overlap :
  1 <= chunkSize ->
  forall fuel position chunks,
    0 <= position ->
    openai_budget (Z.of_nat (length text)) position (length chunks)
      <= Z.of_nat fuel ->
    exists chunks',
      chunk_loop (Embeddings.chunk_step text chunkSize overlap)
        (Z.of_nat (length text)) fuel (position, chunks) = Some chunks'.
Proof.
  intros Hcs fuel.
  induction fuel as [|fuel IH]; intros position chunks Hpos Hfuel.
  - unfold openai_budget in Hfuel.
    destruct (Z.of_nat (length chunks) <? Z.of_nat (length text)) eqn:E;
      [apply Z.ltb_lt in E|]; lia.
  - rewrite chunk_loop_S. cbn [fst snd].
    destruct (Z.ltb_spec position (Z.of_nat (length text))) as [Hlt|Hge];
      [|eexists; reflexivity].
    destruct (openai_step_eq text chunkSize overlap position chunks
                Hcs ltac:(lia)) as (e & He & _ & ->).
    cbv zeta.
    assert (Hk : length (chunks ++ [mkChunk (trim (slice text position e))
                                      (length chunks)])
                 = S (length chunks))
      by (rewrite length_app; simpl; lia).
    revert Hk.
    generalize (chunks ++ [mkChunk (trim (slice text position e))
                             (length chunks)]).
    intros chunks' Hk.
    assert (Hmul : 1 <= overlap ->
                   Z.of_nat (length chunks')
                   <= Z.of_nat (length chunks') * overlap) by (intros; nia).
    assert (Hneg : overlap <= 0 ->
                   Z.of_nat (length chunks') * overlap <= 0)
      by (intros; nia).
    apply IH.
    + destruct (Z.leb_spec (e - overlap)
                  (Z.of_nat (length chunks') * overlap)); [lia|].
      destruct (Z.le_gt_cases overlap 0); [lia|].
      specialize (Hmul ltac:(lia)). lia.
    + revert Hfuel. unfold openai_budget.
      destruct (Z.ltb_spec (Z.of_nat (length chunks))
                  (Z.of_nat (length text)));
        destruct (Z.ltb_spec (Z.of_nat (length chunks'))
                    (Z.of_nat (length text)));
        destruct (Z.leb_spec (e - overlap)
                    (Z.of_nat (length chunks') * overlap));
        destruct (Z.le_gt_cases overlap 0) as [Ho|Ho];
        try specialize (Hmul ltac:(lia));
        try specialize (Hneg ltac:(lia)); lia.
Qed.

(** X13.  [chunkText] of [embeddings.js] returns for every text and
    every overlap when [1 <= chunkSize]: the loop ends within
    [2 * text.length + 1] passes. *)
Theorem openai_chunkText_returns text chunkSize overlap :
  1 <= chunkSize ->
  exists chunks,
    Embeddings.chunkText (2 * length text + 1) text chunkSize overlap
    = Some chunks.
Proof.
  intros Hcs. unfold Embeddings.chunkText.
  apply openai_loop_ends; [exact Hcs|lia|].
  unfold openai_budget. cbn [length].
  destruct (Z.ltb_spec (Z.of_nat 0) (Z.of_nat (length text))); lia.
Qed.

Lemma openai_chunkText_returns_witness :
  1 <= 1000
  /\ exists chunks,
       Embeddings.chunkText (2 * length (spaces 3) + 1) (spaces 3)
         1000 200 = Some chunks.
Proof.
  assert (H1 : 1 <= 1000) by lia.
  split; [exact H1|].
  exact (openai_chunkText_returns (spaces 3) 1000 200 H1).
Defined.

(* ------------------------------------------------------------------ *)
(** ** Without an overlap the windows tile the text *)

Lemma firstn_window {A} (l : list A) (i n : Z) :
  0 <= i -> 0 <= n ->
  firstn (Z.to_nat (i + n)) l = firstn (Z.to_nat i) l ++ slice l i (i + n).
Proof.
  intros Hi Hn. rewrite slice_window by assumption.
  rewrite <- (firstn_skipn (Z.to_nat i) (firstn (Z.to_nat (i + n)) l)) at 1.
  rewrite firstn_firstn.
  replace (Nat.min (Z.to_nat i) (Z.to_nat (i + n))) with (Z.to_nat i) by lia.
  f_equal.
  replace (Z.to_nat (i + n)) with (Z.to_nat i + Z.to_nat n)%nat by lia.
  symmetry. apply firstn_skipn_comm.
Qed.

Lemma slice_not_nil {A} (l : list A) (i j : Z) :
  0 <= i < j -> j <= Z.of_nat (length l) -> slice l i j <> [].
Proof.
  intros Hi Hj H. apply (f_equal (@length A)) in H.
  replace j with (i + (j - i)) in H by lia.
  rewrite slice_window in H by lia.
  rewrite length_firstn, length_skipn in H. simpl in H. lia.
Qed.

(** X14.  With [overlap = 0] the chunker of [gemini-embeddings.js] loses
    nothing but white space: the text is cut into consecutive windows
    that are not empty, and the chunks are, in order, the trimmed windows
    that are not blank. *)
Theorem chunkText_no_overlap_tiles fuel text chunkSize chunks :
  1 <= chunkSize ->
  GeminiEmbeddings.chunkText fuel text chunkSize 0 = Some chunks ->
  exists windows,
    concat windows = text
    /\ Forall (fun w => w <> []) windows
    /\ map content chunks = filter truthy (map trim windows).
Proof.
  unfold GeminiEmbeddings.chunkText. intros Hcs H.
  destruct (chunk_loop_state_invariant
              (GeminiEmbeddings.chunk_step text chunkSize 0)
              (Z.of_nat (length text))
              (fun st =>
                 0 <= fst st <= Z.of_nat (length text)
                 /\ exists windows,
                      concat windows = firstn (Z.to_nat (fst st)) text
                      /\ Forall (fun w => w <> []) windows
                      /\ map content (snd st)
                         = filter truthy (map trim windows)))
    with (fuel := fuel) (st := (0, @nil Chunk)) (chunks := chunks)
    as (position & [Hp (ws & Hcat & Hne & Hmap)] & Hlen); [| |exact H|].
  - intros [position cs] Hlt [Hpos (ws & Hcat & Hne & Hmap)].
    cbn [fst snd] in *.
    destruct (gemini_step_eq text chunkSize 0 position cs Hcs ltac:(lia))
      as (e & He & _ & ->).
    cbv zeta. rewrite Z.sub_0_r, Z.mul_0_r.
    destruct (Z.leb_spec e 0); [lia|]. cbn [fst snd].
    split; [lia|]. exists (ws ++ [slice text position e]).
    rewrite concat_app, map_app, filter_app. cbn [concat map filter].
    rewrite app_nil_r, Hcat. split; [|split].
    + replace e with (position + (e - position)) by lia.
      symmetry. apply firstn_window; lia.
    + apply Forall_app. split; [exact Hne|].
      constructor; [|constructor]. apply slice_not_nil; lia.
    + destruct (truthy (trim (slice text position e)));
        [|rewrite app_nil_r; exact Hmap].
      rewrite map_app, Hmap. reflexivity.
  - cbn [fst snd]. split; [lia|]. exists []. repeat split; constructor.
  - cbn [fst snd] in *. exists ws. split; [|split; assumption].
    rewrite Hcat. apply firstn_all2. lia.
Qed.

Lemma chunkText_no_overlap_tiles_witness :
  1 <= 4
  /\ GeminiEmbeddings.chunkText 10 (js "aaaa. bbbbbbb") 4 0
     = Some [mkChunk (js "aaaa.") 0; mkChunk (js "bbb") 1;
             mkChunk (js "bbbb") 2]
  /\ exists windows,
       concat windows = js "aaaa. bbbbbbb"
       /\ Forall (fun w => w <> []) windows
       /\ map content [mkChunk (js "aaaa.") 0; mkChunk (js "bbb") 1;
                       mkChunk (js "bbbb") 2]
          = filter truthy (map trim windows).
Proof.
  assert (H1 : 1 <= 4) by lia.
  split; [exact H1|]. split; [vm_compute; reflexivity|].
  apply (chunkText_no_overlap_tiles 10 (js "aaaa. bbbbbbb") 4 _ H1).
  vm_compute; reflexivity.
Defined.

(** X15.  The chunker of [embeddings.js] pushes one chunk for every
    window, the blank ones too: with [overlap = 0] the text is cut into
    consecutive windows that are not empty, the chunks are the trimmed
    windows in order, and they are numbered from 0. *)
Theorem openai_chunkText_no_overlap_tiles fuel text chunkSize chunks :
  1 <= chunkSize ->
  Embeddings.chunkText fuel text chunkSize 0 = Some chunks ->
  exists windows,
    concat windows = text
    /\ Forall (fun w => w <> []) windows
    /\ map content chunks = map trim windows
    /\ map index chunks = seq 0 (length windows).
Proof.
  intros Hcs H.
  pose proof (openai_chunkText_contiguous _ _ _ _ _ H) as Hidx.
  unfold contiguous in Hidx.
  unfold Embeddings.chunkText in H.
  destruct (chunk_loop_state_invariant
              (Embeddings.chunk_step text chunkSize 0)
              (Z.of_nat (length text))
              (fun st =>
                 0 <= fst st <= Z.of_nat (length text)
                 /\ exists windows,
                      concat windows = firstn (Z.to_nat (fst st)) text
                      /\ Forall (fun w => w <> []) windows
                      /\ map content (snd st) = map trim windows))
    with (fuel := fuel) (st := (0, @nil Chunk)) (chunks := chunks)
    as (position & [Hp (ws & Hcat & Hne & Hmap)] & Hlen); [| |exact H|].
  - intros [position cs] Hlt [Hpos (ws & Hcat & Hne & Hmap)].
    cbn [fst snd] in *.
    destruct (openai_step_eq text chunkSize 0 position cs Hcs ltac:(lia))
      as (e & He & _ & ->).
    cbv zeta. rewrite Z.sub_0_r, Z.mul_0_r.
    destruct (Z.leb_spec e 0); [lia|]. cbn [fst snd].
    split; [lia|]. exists (ws ++ [slice text position e]).
    rewrite concat_app, !map_app. cbn [concat map].
    rewrite app_nil_r, Hcat, Hmap. split; [|split].
    + replace e with (position + (e - position)) by lia.
      symmetry. apply firstn_window; lia.
    + apply Forall_app. split; [exact Hne|].
      constructor; [|constructor]. apply slice_not_nil; lia.
    + reflexivity.
  - cbn [fst snd]. split; [lia|]. exists []. repeat split; constructor.
  - cbn [fst snd] in *. exists ws. split; [|split; [assumption|split]].
    + rewrite Hcat. apply firstn_all2. lia.
    + exact Hmap.
    + rewrite Hidx. f_equal.
      rewrite <- (length_map content chunks), Hmap. apply length_map.
Qed.

Lemma openai_chunkText_no_overlap_tiles_witness :
  1 <= 4
  /\ Embeddings.chunkText 10 (js "aaaa.    bbb") 4 0
     = Some [mkChunk (js "aaaa.") 0; mkChunk [] 1; mkChunk (js "bbb") 2]
  /\ exists windows,
       concat windows = js "aaaa.    bbb"
       /\ Forall (fun w => w <> []) windows
       /\ map content
            [mkChunk (js "aaaa.") 0; mkChunk [] 1; mkChunk (js "bbb") 2]
          = map trim windows
       /\ map index
            [mkChunk (js "aaaa.") 0; mkChunk [] 1; mkChunk (js "bbb") 2]
          = seq 0 (length windows).
Proof.
  assert (H1 : 1 <= 4) by lia.
  split; [exact H1|]. split; [vm_compute; reflexivity|].
  apply (openai_chunkText_no_overlap_tiles 10 (js "aaaa.    bbb") 4 _ H1).
  vm_compute; reflexivity.
Defined.

(* ------------------------------------------------------------------ *)
(** ** What the embedding pipeline does to the store, whatever the
       collaborators answer *)

(** One chunk: the look-up and, when it obtains no row, the provider and
    the store.  The tables of archives and links are not written, the
    content store gets at most one row, and only after a call of the
    provider. *)
Lemma find_or_embed_effects env archive chunk w :
  exists outcome w1 new tr,
    find_or_embed env archive chunk w = (Ok outcome, w1)
    /\ archives w1 = archives w /\ user_content w1 = user_content w
    /\ content_embeddings w1 = content_embeddings w ++ new
    /\ trace w1 = trace w ++ tr
    /\ (length new <= embed_calls tr <= 1)%nat
    /\ pauses tr = []
    /\ (forall id, outcome = Completed (Some id) ->
        In id (map c_id (content_embeddings w1)))
    /\ (unique_content (content_embeddings w) ->
        unique_content (content_embeddings w1)).
Proof.
  unfold find_or_embed, bind, select_content_single, generateEmbedding,
    get_or_create_content, bind, tick, get_world, emit,
    set_content_embeddings, ret.
  cbn [clock archives content_embeddings user_content trace].
  destruct (filter (content_matches
                      (hashContent env (a_url archive) (content chunk))
                      (index chunk)) (content_embeddings w))
    as [|r [|r' l]] eqn:Ef;
  repeat (cbn [clock archives content_embeddings user_content trace
               single];
          rewrite ?Ef;
          match goal with
          | |- context [store_error env ?t] =>
              destruct (store_error env t)
          | |- context [genAI env] => destruct (genAI env)
          | |- context [embedContent env ?t ?x] =>
              destruct (embedContent env t x) as [values|]
          end);
  do 2 eexists;
  cbn [clock archives content_embeddings user_content trace];
  (match goal with
   | |- exists new tr, (_, ?w1) = _ /\ _ =>
       match w1 with
       | context [content_embeddings _ ++ ?n] =>
           match w1 with
           | context [trace _ ++ ?t] => exists n, t
           | _ => exists n, (@nil Event)
           end
       | _ =>
           match w1 with
           | context [trace _ ++ ?t] => exists (@nil ContentRow), t
           | _ => exists (@nil ContentRow), (@nil Event)
           end
       end
   end);
  (split; [reflexivity|]);
  cbn [clock archives content_embeddings user_content trace];
  rewrite ?app_nil_r;
  repeat (split; [first [reflexivity | unfold embed_calls; simpl; lia]|]);
  (split; [intros id Hid; try discriminate Hid;
           injection Hid as <-|intros Hu; try exact Hu]);
  try (apply in_map;
       assert (Hin : In r (filter (content_matches
                 (hashContent env (a_url archive) (content chunk))
                 (index chunk)) (content_embeddings w)))
         by (rewrite Ef; left; reflexivity);
       apply filter_In in Hin; exact (proj1 Hin));
  try (rewrite map_app; apply in_or_app; right; left; reflexivity);
  try (eapply unique_content_append; [exact Hu| |exact Ef];
       unfold content_matches; cbn [c_content_hash c_chunk_index];
       rewrite jseqb_refl, Nat.eqb_refl; reflexivity).
Qed.

(** The upsert of a link adds the link or replaces the links with its
    key; every other link stays. *)
Lemma upsert_user_content_links env row w answer w' :
  upsert_user_content env row w = (Ok answer, w') ->
  forall l, In l (user_content w') -> In l (user_content w) \/ l = row.
Proof.
  unfold upsert_user_content, bind, tick, get_world, set_user_content, ret.
  cbn [clock user_content].
  destruct (store_error env (clock w)) as [e|].
  - intros H. injection H as _ <-. cbn [user_content]. auto.
  - destruct (existsb (link_matches row) (user_content w));
      intros H; injection H as _ <-; cbn [user_content]; intros l Hl.
    + apply in_map_iff in Hl. destruct Hl as (r & Hr & Hin).
      destruct (link_matches row r); subst; auto.
    + apply in_app_or in Hl. destruct Hl as [Hl|[<-|[]]]; auto.
Qed.

(** The loop over the chunks. *)
Lemma embed_chunks_effects env archive chunks : forall contentIds w,
  exists added w' new tr,
    embed_chunks env archive chunks contentIds w
    = (Ok (contentIds ++ added), w')
    /\ archives w' = archives w
    /\ content_embeddings w' = content_embeddings w ++ new
    /\ trace w' = trace w ++ tr
    /\ (length new <= embed_calls tr <= length chunks)%nat
    /\ (length added <= length chunks)%nat
    /\ Forall (fun id => In id (map c_id (content_embeddings w'))) added
    /\ (unique_content (content_embeddings w) ->
        unique_content (content_embeddings w'))
    /\ (forall l, In l (user_content w') ->
        In l (user_content w)
        \/ exists id, In id added /\ l = link_of archive id).
Proof.
  induction chunks as [|chunk rest IH]; intros contentIds w.
  - exists [], w, [], []. cbn [embed_chunks]. unfold ret.
    rewrite !app_nil_r. repeat split; auto.
  - destruct (find_or_embed_effects env archive chunk w)
      as (outcome & w1 & new1 & tr1 & Hrun & Ha1 & Hl1 & Hc1 & Ht1 & Hn1
          & _ & Hid1 & Hu1).
    destruct outcome as [|[id|]].
    + destruct (IH contentIds w1)
        as (added & w' & new & tr & Hrest & Ha & Hc & Ht & Hn & Hlen & Hin
            & Hu & Hl).
      exists added, w', (new1 ++ new), (tr1 ++ tr).
      split; [cbn [embed_chunks]; unfold bind at 1; rewrite Hrun;
              exact Hrest|].
      split; [congruence|].
      split; [rewrite Hc, Hc1; apply eq_sym, app_assoc|].
      split; [rewrite Ht, Ht1; apply eq_sym, app_assoc|].
      rewrite length_app, embed_calls_app. cbn [length].
      split; [lia|]. split; [lia|]. split; [exact Hin|].
      split; [auto|]. intros l H. rewrite <- Hl1. auto.
    + destruct (upsert_user_content_tables env (link_of archive id) w1)
        as (answer & w2 & Hup & Hc2 & Ha2 & Ht2 & _).
      pose proof (upsert_user_content_links _ _ _ _ _ Hup) as Hl2.
      destruct (IH (contentIds ++ [id]) (sleep_world 50 w2))
        as (added & w' & new & tr & Hrest & Ha & Hc & Ht & Hn & Hlen & Hin
            & Hu & Hl).
      cbn [sleep_world archives content_embeddings user_content trace]
        in Ha, Hc, Ht, Hu, Hl.
      exists (id :: added), w', (new1 ++ new), (tr1 ++ EvSleep 50 :: tr).
      split.
      { rewrite (embed_chunks_completed _ _ _ _ _ _ _ _ _ _ Hrun Hup),
          Hrest, <- app_assoc. reflexivity. }
      split; [congruence|].
      split; [rewrite Hc, Hc2, Hc1; apply eq_sym, app_assoc|].
      split.
      { rewrite Ht, Ht2, Ht1, <- !app_assoc. reflexivity. }
      rewrite length_app, embed_calls_app.
      change (EvSleep 50 :: tr) with ([EvSleep 50] ++ tr).
      rewrite embed_calls_app. cbn [length].
      change (embed_calls [EvSleep 50]) with O.
      split; [lia|]. split; [lia|]. split.
      { constructor; [|exact Hin]. rewrite Hc, map_app.
        apply in_or_app. left. rewrite Hc2. apply Hid1. reflexivity. }
      split; [rewrite Hc2 in Hu; auto|].
      intros l H. destruct (Hl l H) as [H'|(id' & Hid' & ->)].
      * destruct (Hl2 l H') as [H''| ->].
        -- left. rewrite <- Hl1. exact H''.
        -- right. exists id. split; [left; reflexivity|reflexivity].
      * right. exists id'. split; [right; exact Hid'|reflexivity].
    + destruct (IH contentIds (sleep_world 50 w1))
        as (added & w' & new & tr & Hrest & Ha & Hc & Ht & Hn & Hlen & Hin
            & Hu & Hl).
      cbn [sleep_world archives content_embeddings user_content trace]
        in Ha, Hc, Ht, Hu, Hl.
      exists added, w', (new1 ++ new), (tr1 ++ EvSleep 50 :: tr).
      split.
      { rewrite (embed_chunks_not_stored _ _ _ _ _ _ _ Hrun). exact Hrest. }
      split; [congruence|].
      split; [rewrite Hc, Hc1; apply eq_sym, app_assoc|].
      split.
      { rewrite Ht, Ht1, <- !app_assoc. reflexivity. }
      rewrite length_app, embed_calls_app.
      change (EvSleep 50 :: tr) with ([EvSleep 50] ++ tr).
      rewrite embed_calls_app. cbn [length].
      change (embed_calls [EvSleep 50]) with O.
      split; [lia|]. split; [lia|]. split; [exact Hin|].
      split; [auto|]. intros l H. rewrite <- Hl1. auto.
Qed.

(** X16.  Whatever the store and the provider answer, a run of
    [processArchiveWithSharedEmbeddings] whose chunker returns does not
    throw, leaves the archives alone and only appends to the content
    store.  It keeps the content store free of rows with the same hash
    and chunk index (with the get-or-create operation of the store), every
    id it returns is the id of a row of the content store, and every link
    it writes is a link of this archive to a returned id. *)
Theorem processArchive_store_integrity env fuel archive chunks w :
  GeminiEmbeddings.chunkText fuel (fullText archive)
    DEFAULT_CHUNK_SIZE DEFAULT_OVERLAP = Some chunks ->
  exists result w' new,
    processArchiveWithSharedEmbeddings env fuel archive w = (Ok result, w')
    /\ archives w' = archives w
    /\ content_embeddings w' = content_embeddings w ++ new
    /\ (unique_content (content_embeddings w) ->
        unique_content (content_embeddings w'))
    /\ (forall ids, result = Some ids ->
        Forall (fun id => In id (map c_id (content_embeddings w'))) ids)
    /\ (forall l, In l (user_content w') ->
        In l (user_content w)
        \/ exists ids id,
             result = Some ids /\ In id ids /\ l = link_of archive id).
Proof.
  intros Hchunks. unfold processArchiveWithSharedEmbeddings.
  destruct (genAI env).
  - destruct (embed_chunks_effects env archive chunks [] w)
      as (added & w' & new & tr & Hrun & Ha & Hc & _ & _ & _ & Hin & Hu
          & Hl).
    cbn [app] in Hrun.
    exists (Some added), w', new. unfold try_catch. rewrite Hchunks.
    unfold bind at 1. rewrite Hrun. unfold ret.
    split; [reflexivity|]. split; [exact Ha|]. split; [exact Hc|].
    split; [exact Hu|]. split.
    + intros ids H. injection H as <-. exact Hin.
    + intros l H. destruct (Hl l H) as [H'|(id & Hid & ->)]; [auto|].
      right. exists added, id. auto.
  - exists None, w, []. unfold ret. rewrite app_nil_r.
    repeat split; auto. discriminate.
Qed.

Lemma processArchive_store_integrity_witness :
  GeminiEmbeddings.chunkText 10 (fullText (archive_a 1%positive alice))
    DEFAULT_CHUNK_SIZE DEFAULT_OVERLAP
  = Some [mkChunk (trim (fullText (archive_a 1%positive alice))) 0]
  /\ exists result w' new,
       processArchiveWithSharedEmbeddings env_ok 10
         (archive_a 1%positive alice) world_archived = (Ok result, w')
       /\ archives w' = archives world_archived
       /\ content_embeddings w' = content_embeddings world_archived ++ new
       /\ (unique_content (content_embeddings world_archived) ->
           unique_content (content_embeddings w'))
       /\ (forall ids, result = Some ids ->
           Forall (fun id => In id (map c_id (content_embeddings w'))) ids)
       /\ (forall l, In l (user_content w') ->
           In l (user_content world_archived)
           \/ exists ids id,
                result = Some ids /\ In id ids
                /\ l = link_of (archive_a 1%positive alice) id).
Proof.
  assert (H : GeminiEmbeddings.chunkText 10
                (fullText (archive_a 1%positive alice))
                DEFAULT_CHUNK_SIZE DEFAULT_OVERLAP
              = Some [mkChunk (trim (fullText (archive_a 1%positive alice)))
                        0])
    by (vm_compute; reflexivity).
  split; [exact H|].
  exact (processArchive_store_integrity env_ok 10
           (archive_a 1%positive alice) _ world_archived H).
Defined.

(** X17.  The cost of a run of [processArchiveWithSharedEmbeddings]: the
    provider is called at most once for each chunk, a row of the content
    store is created only after a call of the provider, and at most one
    id is returned for each chunk. *)
Theorem processArchive_provider_calls env fuel archive chunks w :
  GeminiEmbeddings.chunkText fuel (fullText archive)
    DEFAULT_CHUNK_SIZE DEFAULT_OVERLAP = Some chunks ->
  exists result w',
    processArchiveWithSharedEmbeddings env fuel archive w = (Ok result, w')
    /\ (embed_calls (trace w')
        <= embed_calls (trace w) + length chunks)%nat
    /\ (length (content_embeddings w') + embed_calls (trace w)
        <= length (content_embeddings w) + embed_calls (trace w'))%nat
    /\ (forall ids, result = Some ids ->
        (length ids <= length chunks)%nat).
Proof.
  intros Hchunks. unfold processArchiveWithSharedEmbeddings.
  destruct (genAI env).
  - destruct (embed_chunks_effects env archive chunks [] w)
      as (added & w' & new & tr & Hrun & _ & Hc & Ht & Hn & Hlen & _).
    cbn [app] in Hrun.
    exists (Some added), w'. unfold try_catch. rewrite Hchunks.
    unfold bind at 1. rewrite Hrun. unfold ret.
    split; [reflexivity|].
    rewrite Hc, Ht, length_app, embed_calls_app.
    split; [lia|]. split; [lia|].
    intros ids H. injection H as <-. exact Hlen.
  - exists None, w. unfold ret. split; [reflexivity|].
    split; [lia|]. split; [lia|]. discriminate.
Qed.

Lemma processArchive_provider_calls_witness :
  GeminiEmbeddings.chunkText 10 (fullText (archive_a 2%positive bob))
    DEFAULT_CHUNK_SIZE DEFAULT_OVERLAP
  = Some [mkChunk (trim (fullText (archive_a 2%positive bob))) 0]
  /\ exists result w',
       processArchiveWithSharedEmbeddings env_no_embedding 10
         (archive_a 2%positive bob) world_stored = (Ok result, w')
       /\ (embed_calls (trace w')
           <= embed_calls (trace world_stored)
              + length [mkChunk (trim (fullText (archive_a 2%positive bob)))
                          0])%nat
       /\ (length (content_embeddings w') + embed_calls (trace world_stored)
           <= length (content_embeddings world_stored)
              + embed_calls (trace w'))%nat
       /\ (forall ids, result = Some ids ->
           (length ids
            <= length [mkChunk (trim (fullText (archive_a 2%positive bob)))
                         0])%nat).
Proof.
  assert (H : GeminiEmbeddings.chunkText 10
                (fullText (archive_a 2%positive bob))
                DEFAULT_CHUNK_SIZE DEFAULT_OVERLAP
              = Some [mkChunk (trim (fullText (archive_a 2%positive bob)))
                        0])
    by (vm_compute; reflexivity).
  split; [exact H|].
  exact (processArchive_provider_calls env_no_embedding 10
           (archive_a 2%positive bob) _ world_stored H).
Defined.

(* ------------------------------------------------------------------ *)
(** ** The batch of [gemini-embeddings.js] *)

(** X18.  Without the key of the provider [batchProcessEmbeddings]
    rejects as soon as there is an archive: the pipeline returns
    [undefined] for the first archive and reading its [length] throws.
    Nothing is written and no collaborator is called. *)
Theorem batchProcessEmbeddings_rejects_without_key env fuel items w :
  genAI env = false -> items <> [] ->
  GeminiBatch.batchProcessEmbeddings env fuel items w
  = (Throw GeminiBatch.LENGTH_OF_UNDEFINED, w).
Proof.
  intros Hkey Hne. destruct items as [|archive rest]; [congruence|].
  unfold GeminiBatch.batchProcessEmbeddings.
  cbn [GeminiBatch.batch_results].
  unfold bind, processArchiveWithSharedEmbeddings. rewrite Hkey.
  reflexivity.
Qed.

Lemma batchProcessEmbeddings_rejects_without_key_witness :
  genAI (mkEnv (fun _ _ => Some page) (fun _ _ _ => inl page)
               (fun _ => None) false (fun _ _ => None) (fun s => s))
  = false
  /\ [archive_a 1%positive alice] <> []
  /\ GeminiBatch.batchProcessEmbeddings
       (mkEnv (fun _ _ => Some page) (fun _ _ _ => inl page)
              (fun _ => None) false (fun _ _ => None) (fun s => s))
       10 [archive_a 1%positive alice] world_archived
     = (Throw GeminiBatch.LENGTH_OF_UNDEFINED, world_archived).
Proof.
  assert (H1 : genAI (mkEnv (fun _ _ => Some page) (fun _ _ _ => inl page)
                            (fun _ => None) false (fun _ _ => None)
                            (fun s => s)) = false) by reflexivity.
  assert (H2 : [archive_a 1%positive alice] <> []) by discriminate.
  split; [exact H1|]. split; [exact H2|].
  exact (batchProcessEmbeddings_rejects_without_key _ 10 _ world_archived
           H1 H2).
Defined.

(** The loop of the batch with the key: one result is pushed for every
    archive, whatever the store and the provider answer. *)
Lemma batch_results_with_key env fuel items :
  genAI env = true ->
  Forall (fun archive =>
            exists chunks,
              GeminiEmbeddings.chunkText fuel (fullText archive)
                DEFAULT_CHUNK_SIZE DEFAULT_OVERLAP = Some chunks)
         items ->
  forall results w,
  exists new w' rows,
    GeminiBatch.batch_results env fuel items results w
    = (Ok (results ++ new), w')
    /\ map GeminiBatch.b_archiveId new = map a_id items
    /\ Forall (fun r => GeminiBatch.b_success r = true
                        <-> GeminiBatch.b_contentIds r <> []) new
    /\ archives w' = archives w
    /\ content_embeddings w' = content_embeddings w ++ rows.
Proof.
  intros Hkey Hall. induction Hall as [|archive rest [chunks Hc] _ IH];
    intros results w.
  - exists [], w, []. cbn [GeminiBatch.batch_results]. unfold ret.
    rewrite !app_nil_r. repeat split; constructor.
  - destruct (embed_chunks_effects env archive chunks [] w)
      as (ids & w1 & rows1 & tr & Hrun & Ha1 & Hc1 & _).
    cbn [app] in Hrun.
    destruct (IH (results
                  ++ [GeminiBatch.mkBatchResult (a_id archive) ids
                        (0 <? length ids)%nat]) w1)
      as (new & w' & rows & Hrest & Hids & Hok & Ha & Hcs).
    exists (GeminiBatch.mkBatchResult (a_id archive) ids
              (0 <? length ids)%nat :: new), w', (rows1 ++ rows).
    split.
    { cbn [GeminiBatch.batch_results]. unfold bind at 1.
      unfold processArchiveWithSharedEmbeddings. rewrite Hkey.
      unfold try_catch. rewrite Hc. unfold bind at 1. rewrite Hrun.
      unfold ret. rewrite Hrest, <- app_assoc. reflexivity. }
    split; [cbn [map GeminiBatch.b_archiveId]; rewrite Hids; reflexivity|].
    split.
    { constructor; [|exact Hok].
      cbn [GeminiBatch.b_success GeminiBatch.b_contentIds].
      destruct ids; simpl; split; intros H;
        first [discriminate | reflexivity | exfalso; apply H; reflexivity]. }
    split; [congruence|].
    rewrite Hcs, Hc1. apply eq_sym, app_assoc.
Qed.

(** X19.  With the key of the provider, and a chunker that returns for
    every archive, [batchProcessEmbeddings] does not throw, whatever the
    store and the provider answer: it returns one result for every
    archive, in the order of the archives, a result is a success exactly
    when it has a content id, no archive is changed and the content store
    is only appended to. *)
Theorem batchProcessEmbeddings_results env fuel items w :
  genAI env = true ->
  Forall (fun archive =>
            exists chunks,
              GeminiEmbeddings.chunkText fuel (fullText archive)
                DEFAULT_CHUNK_SIZE DEFAULT_OVERLAP = Some chunks)
         items ->
  exists results w' rows,
    GeminiBatch.batchProcessEmbeddings env fuel items w
    = (Ok results, w')
    /\ map GeminiBatch.b_archiveId results = map a_id items
    /\ Forall (fun r => GeminiBatch.b_success r = true
                        <-> GeminiBatch.b_contentIds r <> []) results
    /\ archives w' = archives w
    /\ content_embeddings w' = content_embeddings w ++ rows.
Proof.
  intros Hkey Hall. unfold GeminiBatch.batchProcessEmbeddings.
  destruct (batch_results_with_key env fuel items Hkey Hall [] w)
    as (new & w' & rows & H). exists new, w', rows. exact H.
Qed.

Lemma batchProcessEmbeddings_results_witness :
  genAI env_no_embedding = true
  /\ Forall (fun archive =>
               exists chunks,
                 GeminiEmbeddings.chunkText 10 (fullText archive)
                   DEFAULT_CHUNK_SIZE DEFAULT_OVERLAP = Some chunks)
            [archive_a 1%positive alice; archive_a 2%positive bob]
  /\ exists results w' rows,
       GeminiBatch.batchProcessEmbeddings env_no_embedding 10
         [archive_a 1%positive alice; archive_a 2%positive bob]
         world_stored = (Ok results, w')
       /\ map GeminiBatch.b_archiveId results
          = map a_id [archive_a 1%positive alice; archive_a 2%positive bob]
       /\ Forall (fun r => GeminiBatch.b_success r = true
                           <-> GeminiBatch.b_contentIds r <> []) results
       /\ archives w' = archives world_stored
       /\ content_embeddings w' = content_embeddings world_stored ++ rows.
Proof.
  assert (H1 : genAI env_no_embedding = true) by reflexivity.
  assert (H2 : Forall (fun archive =>
                         exists chunks,
                           GeminiEmbeddings.chunkText 10 (fullText archive)
                             DEFAULT_CHUNK_SIZE DEFAULT_OVERLAP
                           = Some chunks)
                      [archive_a 1%positive alice;
                       archive_a 2%positive bob])
    by (repeat constructor; eexists; vm_compute; reflexivity).
  split; [exact H1|]. split; [exact H2|].
  exact (batchProcessEmbeddings_results env_no_embedding 10 _ world_stored
           H1 H2).
Defined.

(* ------------------------------------------------------------------ *)
(** ** One group for every archive *)

Lemma jseqb_sym (a b : jsstring) : jseqb a b = jseqb b a.
Proof.
  destruct (jseqb a b) eqn:E1, (jseqb b a) eqn:E2; try reflexivity.
  - apply jseqb_eq in E1. subst. rewrite jseqb_refl in E2. discriminate.
  - apply jseqb_eq in E2. subst. rewrite jseqb_refl in E1. discriminate.
Qed.

Lemma get_set {V} (o : JSObject V) k v k' :
  get (set o k v) k' = if jseqb k k' then Some v else get o k'.
Proof.
  induction o as [|[k1 v1] o IH]; simpl; [reflexivity|].
  destruct (jseqb k1 k) eqn:E; simpl.
  - apply jseqb_eq in E. subst k1. destruct (jseqb k k'); reflexivity.
  - rewrite IH. destruct (jseqb k1 k') eqn:E1; [|reflexivity].
    apply jseqb_eq in E1. subst k1. rewrite jseqb_sym, E. reflexivity.
Qed.


Lemma insert_index_perm {V} n (v : V) l :
  Permutation (insert_index n v l) ((n, v) :: l).
Proof.
  induction l as [|[m v'] l IH]; simpl; [reflexivity|].
  destruct (n <? m)%N; [reflexivity|].
  rewrite IH. apply perm_swap.
Qed.

(** [Object.values] lists every value once. *)
Lemma object_values_perm {V} (o : JSObject V) :
  Permutation (object_values o) (map snd o).
Proof.
  unfold object_values.
  induction o as [|[k v] o IH]; simpl; [reflexivity|].
  unfold is_array_index. destruct (array_index k) as [n|]; simpl.
  - rewrite insert_index_perm. simpl. constructor. exact IH.
  - rewrite <- Permutation_middle. constructor. exact IH.
Qed.

Lemma first_seen_NoDup keys : forall seen,
  NoDup seen ->
  NoDup (fold_left (fun seen k =>
                      if existsb (fun k' => jseqb k' k) seen then seen
                      else seen ++ [k])
                   keys seen).
Proof.
  induction keys as [|k keys IH]; intros seen Hs; simpl; [exact Hs|].
  apply IH. destruct (existsb _ seen) eqn:E; [exact Hs|].
  apply NoDup_app; [exact Hs|repeat constructor; intros []|].
  intros x Hx [Hk|[]]. subst x.
  assert (existsb (fun k' => jseqb k' k) seen = true); [|congruence].
  apply existsb_exists. exists k. split; [exact Hx|apply jseqb_refl].
Qed.

Lemma first_seen_members keys : forall seen k,
  In k (fold_left (fun seen k =>
                     if existsb (fun k' => jseqb k' k) seen then seen
                     else seen ++ [k])
                  keys seen)
  <-> In k seen \/ In k keys.
Proof.
  induction keys as [|k0 keys IH]; intros seen k; simpl; [tauto|].
  rewrite IH. destruct (existsb _ seen) eqn:E.
  - apply existsb_exists in E. destruct E as (x & Hx & Hxk).
    apply jseqb_eq in Hxk. subst x.
    split; [tauto|]. intros [H|[<-|H]]; auto.
  - rewrite in_app_iff. simpl. tauto.
Qed.

(** The members of a list are those of its first [n] elements and those
    of the others. *)
Lemma members_split {A} (l : list A) n x :
  In x l <-> In x (firstn n l) \/ In x (skipn n l).
Proof.
  rewrite <- in_app_iff, firstn_skipn. reflexivity.
Qed.

Lemma firstn_members {A} (l : list A) n : incl (firstn n l) l.
Proof. intros x H. apply (members_split l n). left. exact H. Qed.

Lemma skipn_members {A} (l : list A) n : incl (skipn n l) l.
Proof. intros x H. apply (members_split l n). right. exact H. Qed.


Lemma NoDup_firstn {A} n (l : list A) : NoDup l -> NoDup (firstn n l).
Proof.
  revert n. induction l as [|x l IH]; intros [|n] H; simpl;
    try constructor.
  - inversion H; subst. intros Hin. apply firstn_members in Hin. auto.
  - inversion H; subst. auto.
Qed.

Section SearchGroups.

Variable extractSnippet : jsstring -> jsstring -> Z -> jsstring.
Variable highlight : jsstring -> jsstring -> jsstring.
Variable fetch_archive : jsstring -> SearchHit -> option SearchHit.
Variable query : jsstring.



(** The keys of the groups are the archives of the hits, each once, and
    every group is stored under its identifier. *)
Lemma grouped_table results :
  let o := grouped extractSnippet highlight fetch_archive query results in
  map fst o = first_seen (map archiveId results)
  /\ NoDup (map fst o)
  /\ map g_id (map snd o) = map fst o.
Proof.
  intros o. subst o. unfold grouped.
  destruct (grouped_keys extractSnippet highlight fetch_archive
              query results [] (Forall_nil _)) as [Hk Hi].
  split; [exact Hk|]. split.
  - rewrite Hk. apply first_seen_NoDup. constructor.
  - apply map_ids. exact Hi.
Qed.

End SearchGroups.


Lemma proper_hits_all results :
  Forall (fun h => inherited (archiveId h) = false) results ->
  proper_hits results = results.
Proof.
  unfold proper_hits. induction 1 as [|h rest Hk _ IH]; [reflexivity|].
  cbn [filter]. rewrite Hk, IH. reflexivity.
Qed.

Lemma proper_hits_ids results k :
  In k (map archiveId (proper_hits results)) ->
  inherited k = false /\ In k (map archiveId results).
Proof.
  intros H. apply in_map_iff in H. destruct H as (h & <- & Hin).
  unfold proper_hits in Hin. apply filter_In in Hin.
  destruct Hin as [Hin Hk]. split.
  - destruct (inherited (archiveId h)); [discriminate Hk|reflexivity].
  - apply in_map. exact Hin.
Qed.


Lemma first_seen_length keys : forall seen,
  (length (fold_left (fun seen k =>
                        if existsb (fun k' => jseqb k' k) seen then seen
                        else seen ++ [k])
                     keys seen)
   <= length seen + length keys)%nat.
Proof.
  induction keys as [|k keys IH]; intros seen; simpl; [lia|].
  specialize (IH (if existsb (fun k' => jseqb k' k) seen
                  then seen else seen ++ [k])).
  destruct (existsb _ seen); [|rewrite length_app in IH; simpl in IH];
    lia.
Qed.

(** X20.  The search handler returns one group for every archive, also
    when identifiers are numbers.  When [highlightTerms] returns for every
    text and no identifier of a hit is a property name inherited from
    [Object.prototype], the handler answers with groups.  Whenever it
    answers with groups, and [limit] is not negative: no two groups of the
    answer have the same identifier, every group is the group of an
    archive of a hit and its identifier is no inherited name, the answer
    has at most [limit] groups, and when [limit] is at least the number of
    hits every archive of a hit whose identifier is no inherited name has
    its group. *)
Theorem search_results_one_group_per_archive extractSnippet highlightTerms
    fetch_archive query results limit :
  0 <= limit ->
  ((forall text, exists highlighted,
      highlightTerms text query = Ok highlighted) ->
   Forall (fun h => inherited (archiveId h) = false) results ->
   exists final,
     finalResults extractSnippet highlightTerms fetch_archive query results
       limit = Ok final)
  /\ forall final,
       finalResults extractSnippet highlightTerms fetch_archive query
         results limit = Ok final ->
       NoDup (map g_id final)
       /\ incl (map g_id final) (map archiveId results)
       /\ Forall (fun g => inherited (g_id g) = false) final
       /\ Z.of_nat (length final) <= limit
       /\ (Z.of_nat (length results) <= limit ->
           Permutation (map g_id final)
             (first_seen (map archiveId (proper_hits results)))).
Proof.
  intros Hlimit. split.
  { intros Hh Hall.
    destruct (group_results_returns extractSnippet highlightTerms
                fetch_archive query results [] Hh Hall (Forall_nil _))
      as (o & Ho).
    unfold finalResults, group_results. rewrite Ho. cbn [and_then].
    eexists. reflexivity. }
  intros final Hf. apply finalResults_Ok in Hf. destruct Hf as [_ Hf].
  destruct (grouped_table extractSnippet (shown highlightTerms)
              fetch_archive query (proper_hits results)) as (Hk & Hnd & Hid).
  cbv zeta in Hk, Hnd, Hid.
  set (o := grouped extractSnippet (shown highlightTerms) fetch_archive
              query (proper_hits results)) in *.
  assert (Hranked : Permutation
                      (map g_id (sort by_relevance (object_values o)))
                      (map fst o)).
  { rewrite <- Hid. apply Permutation_map.
    rewrite (sort_perm relevance_score). apply object_values_perm. }
  assert (Hfinal : final
                   = firstn (Z.to_nat limit)
                       (sort by_relevance (object_values o))).
  { rewrite Hf. rewrite <- (Z.add_0_l limit) at 1.
    rewrite slice_window by lia. reflexivity. }
  assert (Hids : forall k, In k (map g_id final) ->
                 inherited k = false /\ In k (map archiveId results)).
  { intros k Hin. rewrite Hfinal, <- firstn_map in Hin.
    apply firstn_members in Hin.
    apply (Permutation_in _ Hranked) in Hin. rewrite Hk in Hin.
    apply first_seen_members in Hin. destruct Hin as [[]|Hin].
    apply proper_hits_ids. exact Hin. }
  split; [|split; [|split; [|split]]].
  - rewrite Hfinal, <- firstn_map. apply NoDup_firstn.
    apply (Permutation_NoDup (Permutation_sym Hranked)). exact Hnd.
  - intros k Hin. apply Hids. exact Hin.
  - apply Forall_forall. intros g Hg. apply Hids. apply in_map. exact Hg.
  - rewrite Hfinal, length_firstn. lia.
  - intros Hall. rewrite <- Hk, <- Hranked, Hfinal.
    rewrite firstn_all2; [reflexivity|].
    rewrite <- (length_map g_id), (Permutation_length Hranked), Hk.
    pose proof (first_seen_length (map archiveId (proper_hits results)) [])
      as Hlen.
    unfold first_seen. rewrite length_map in Hlen. simpl in Hlen.
    assert (length (proper_hits results) <= length results)%nat
      by apply filter_length_le.
    lia.
Qed.

Lemma search_results_one_group_per_archive_witness :
  0 <= 20
  /\ (exists final,
        finalResults no_snippet no_highlight no_fetch (js "page")
          numbered_hits 20 = Ok final
        /\ map g_id final = [js "1"; js "2"])
  /\ forall final,
       finalResults no_snippet no_highlight no_fetch (js "page")
         numbered_hits 20 = Ok final ->
       NoDup (map g_id final)
       /\ incl (map g_id final) (map archiveId numbered_hits)
       /\ Forall (fun g => inherited (g_id g) = false) final
       /\ Z.of_nat (length final) <= 20
       /\ (Z.of_nat (length numbered_hits) <= 20 ->
           Permutation (map g_id final)
             (first_seen (map archiveId (proper_hits numbered_hits)))).
Proof.
  assert (H1 : 0 <= 20) by lia.
  split; [exact H1|]. split.
  - eexists. split; [vm_compute; reflexivity|reflexivity].
  - exact (proj2 (search_results_one_group_per_archive no_snippet
                    no_highlight no_fetch (js "page") numbered_hits 20 H1)).
Defined.



(* ------------------------------------------------------------------ *)
(** ** The snippet of a search result *)

Lemma starts_with_length pat : forall s,
  starts_with pat s = true -> (length pat <= length s)%nat.
Proof.
  induction pat as [|p pat IH]; intros [|c s] H; simpl in *;
    try lia; try discriminate.
  apply andb_true_iff in H. destruct H as [_ H]. apply IH in H. lia.
Qed.

Lemma indexOf_from_bounds s pat : forall k,
  Snippet.indexOf_from s pat k = -1
  \/ (Z.of_nat k <= Snippet.indexOf_from s pat k
      /\ Snippet.indexOf_from s pat k + Z.of_nat (length pat)
         <= Z.of_nat k + Z.of_nat (length s)).
Proof.
  induction s as [|c s IH]; intros k; cbn [Snippet.indexOf_from length];
    destruct (starts_with pat _) eqn:E;
    try (apply starts_with_length in E; cbn [length] in E); try lia.
  destruct (IH (S k)); lia.
Qed.

(** [indexOf] returns -1 or the index of an occurrence that is not before
    the position the search starts at. *)
Lemma indexOf_bounds s pat position :
  0 <= position ->
  Snippet.indexOf s pat position = -1
  \/ (Z.min position (Z.of_nat (length s))
      <= Snippet.indexOf s pat position
      /\ Snippet.indexOf s pat position + Z.of_nat (length pat)
         <= Z.of_nat (length s)).
Proof.
  intros Hp. unfold Snippet.indexOf.
  match goal with
  | |- context [Snippet.indexOf_from ?s' pat ?k] =>
      destruct (indexOf_from_bounds s' pat k) as [H|H];
        [|rewrite length_skipn in H]
  end; lia.
Qed.

(** The search for the best position stays at 0 when there is no window
    or no term. *)
Lemma best_without_terms terms textLower maxLength len :
  len <= 100 \/ terms = [] ->
  Snippet.best terms textLower maxLength len = (0, 0).
Proof.
  unfold Snippet.best. intros [H| ->].
  - unfold Snippet.positions.
    replace (Z.to_nat ((len - 100 + 49) / 50)) with O; [reflexivity|].
    assert ((len - 100 + 49) / 50 <= 0); [|lia].
    assert ((len - 100 + 49) / 50 < 1); [|lia].
    apply Z.div_lt_upper_bound; lia.
  - induction (Snippet.positions len) as [|i l IH]; [reflexivity|].
    cbn [fold_left]. exact IH.
Qed.

(** X22.  With [0 <= maxLength] the snippet is at most [maxLength + 6]
    code units long, whatever the text, the query and the case mapping:
    at most [maxLength] of the text and an ellipsis at either end. *)
Theorem extractSnippet_length toLowerCase text query maxLength :
  0 <= maxLength ->
  Z.of_nat (length (Snippet.extractSnippet toLowerCase text query maxLength))
  <= maxLength + 6.
Proof.
  intros Hmax. unfold Snippet.extractSnippet.
  destruct (negb (truthy text)); [simpl; lia|]. cbv zeta.
  set (len := Z.of_nat (length text)).
  assert (Hlen : 0 <= len) by (subst len; lia).
  set (start0 := Z.max 0 (fst (Snippet.best _ _ _ _) - 50)).
  assert (H0 : 0 <= start0) by (subst start0; lia).
  clearbody start0.
  set (end0 := Z.min len (start0 + maxLength)).
  assert (He0 : 0 <= end0 <= start0 + maxLength) by (subst end0; lia).
  clearbody end0.
  set (start := if 0 <? start0 then _ else start0).
  assert (Hs : start0 <= start).
  { subst start. destruct (0 <? start0); [|apply Z.le_refl].
    destruct (indexOf_bounds text Snippet.SPACE start0 H0) as [E|[E E']].
    - rewrite E. simpl. apply Z.le_refl.
    - destruct (negb _ && _) eqn:Ec; [|apply Z.le_refl].
      cbn [length Snippet.SPACE] in E'. fold len in E, E'. lia. }
  clearbody start.
  set (end_ := if end0 <? len then _ else end0).
  assert (He : 0 <= end_ <= end0).
  { subst end_. destruct (end0 <? len); [|lia].
    pose proof (lastIndexOf_bounds text Snippet.SPACE end0) as (B1 & B2 & _).
    destruct (negb _ && _) eqn:Ec; [|lia].
    apply andb_true_iff in Ec. destruct Ec as [Ec _].
    apply negb_true_iff, Z.eqb_neq in Ec. lia. }
  clearbody end_.
  pose proof (trim_length (slice text start end_)) as Ht.
  pose proof (slice_length text start end_ ltac:(lia) ltac:(lia)) as Hl.
  assert (Hbody : Z.of_nat (length (trim (slice text start end_)))
                  <= maxLength) by lia.
  destruct (0 <? start), (end_ <? len);
    rewrite ?length_app; cbn [length Snippet.ELLIPSIS js]; lia.
Qed.

Lemma extractSnippet_length_witness :
  0 <= 4
  /\ Z.of_nat (length (Snippet.extractSnippet (fun s => s)
                         (js "abcdef ghijkl") (js "ghi") 4))
     <= 4 + 6.
Proof.
  assert (H1 : 0 <= 4) by lia.
  split; [exact H1|].
  exact (extractSnippet_length (fun s => s) (js "abcdef ghijkl") (js "ghi")
           4 H1).
Defined.

(** X23.  A text that fits in [maxLength] is returned whole, trimmed and
    without an ellipsis, when it has at most 100 code units or when the
    query has no word of more than two code units: the loop over the
    windows then leaves the best position at 0. *)
Theorem extractSnippet_whole_text toLowerCase text query maxLength :
  Z.of_nat (length text) <= maxLength ->
  Z.of_nat (length text) <= 100
  \/ Snippet.queryTerms toLowerCase query = [] ->
  Snippet.extractSnippet toLowerCase text query maxLength = trim text.
Proof.
  intros Hfit Hshort. unfold Snippet.extractSnippet.
  destruct text as [|c text]; [reflexivity|].
  cbn [truthy negb]. cbv zeta.
  rewrite (best_without_terms _ _ _ _ Hshort). cbn [fst].
  change (Z.max 0 (0 - 50)) with 0. rewrite Z.add_0_l.
  rewrite (Z.min_l _ maxLength) by exact Hfit.
  rewrite !Z.ltb_irrefl. cbv iota. rewrite ?Z.ltb_irrefl. cbv iota.
  rewrite slice_all. reflexivity.
Qed.

Lemma extractSnippet_whole_text_witness :
  Z.of_nat (length (js " a page of text ")) <= 300
  /\ (Z.of_nat (length (js " a page of text ")) <= 100
      \/ Snippet.queryTerms (fun s => s) (js "page") = [])
  /\ Snippet.extractSnippet (fun s => s) (js " a page of text ") (js "page")
       300
     = trim (js " a page of text ").
Proof.
  assert (H1 : Z.of_nat (length (js " a page of text ")) <= 300)
    by (simpl; lia).
  assert (H2 : Z.of_nat (length (js " a page of text ")) <= 100
               \/ Snippet.queryTerms (fun s => s) (js "page") = [])
    by (left; simpl; lia).
  split; [exact H1|]. split; [exact H2|].
  exact (extractSnippet_whole_text (fun s => s) (js " a page of text ")
           (js "page") 300 H1 H2).
Defined.

(* ------------------------------------------------------------------ *)
(** ** The removal of duplicates *)

Lemma get_keys {V} (o : JSObject V) k :
  In k (map fst o) <-> exists v, get o k = Some v.
Proof.
  induction o as [|[k1 v1] o IH]; simpl.
  - split; [intros []|intros (v & H); discriminate].
  - destruct (jseqb k1 k) eqn:E.
    + apply jseqb_eq in E. subst. split; eauto.
    + rewrite <- IH. split; [intros [H|H]; [|exact H]|auto].
      subst. rewrite jseqb_refl in E. discriminate.
Qed.

Lemma set_NoDup {V} (o : JSObject V) k v :
  NoDup (map fst o) -> NoDup (map fst (set o k v)).
Proof.
  intros H. rewrite set_keys.
  destruct (existsb _ (map fst o)) eqn:E; [exact H|].
  apply NoDup_app; [exact H|repeat constructor; intros []|].
  intros x Hx [Hk|[]]. subst x.
  assert (existsb (fun k' => jseqb k' k) (map fst o) = true);
    [|congruence].
  apply existsb_exists. exists k. split; [exact Hx|apply jseqb_refl].
Qed.

(** [Object.keys] lists every key once. *)
Lemma object_keys_perm {V} (o : JSObject V) :
  Permutation (Dedupe.object_keys o) (map fst o).
Proof.
  unfold Dedupe.object_keys.
  induction o as [|[k v] o IH]; simpl; [reflexivity|].
  unfold is_array_index. destruct (array_index k) as [n|]; simpl.
  - rewrite insert_index_perm. simpl. constructor. exact IH.
  - rewrite <- Permutation_middle. constructor. exact IH.
Qed.

Lemma NoDup_flat_map {A B} (f : A -> list B) (l : list A) :
  NoDup l ->
  (forall x, In x l -> NoDup (f x)) ->
  (forall x y b, In x l -> In y l -> In b (f x) -> In b (f y) -> x = y) ->
  NoDup (flat_map f l).
Proof.
  induction 1 as [|x l Hx Hl IH]; intros Hf Hd; simpl; [constructor|].
  apply NoDup_app.
  - apply Hf. left. reflexivity.
  - apply IH; [intros; apply Hf; right; assumption|].
    intros y z b Hy Hz. apply Hd; right; assumption.
  - intros b Hb Hb'. apply in_flat_map in Hb'.
    destruct Hb' as (y & Hy & Hby).
    assert (x = y) by (apply (Hd x y b); auto; [left|right]; auto).
    subst. contradiction.
Qed.

Lemma NoDup_skipn {A} n (l : list A) : NoDup l -> NoDup (skipn n l).
Proof.
  revert n. induction l as [|x l IH]; intros [|n] H; simpl; auto.
  inversion H; subst. auto.
Qed.

(** In a list without two elements of the same key, an element is known
    by its key. *)
Lemma NoDup_map_eq {A B} (f : A -> B) (l : list A) x y :
  NoDup (map f l) -> In x l -> In y l -> f x = f y -> x = y.
Proof.
  induction l as [|z l IH]; simpl; intros Hnd Hx Hy E; [contradiction|].
  inversion Hnd as [|? ? Hz Hl]; subst.
  destruct Hx as [->|Hx], Hy as [->|Hy]; auto.
  - exfalso. apply Hz. rewrite E. apply in_map. exact Hy.
  - exfalso. apply Hz. rewrite <- E. apply in_map. exact Hx.
Qed.

(** Keys that are unique in a list are unique in a selection of it. *)
Lemma unique_keys_filter {A B} (key : A -> B) (keep : A -> bool) rows :
  NoDup (map key rows) -> NoDup (map key (filter keep rows)).
Proof.
  induction rows as [|r rows IH]; cbn [map filter]; intros H;
    [constructor|].
  apply NoDup_cons_iff in H. destruct H as [Hr Hrows].
  destruct (keep r); cbn [map]; [|exact (IH Hrows)].
  constructor; [|exact (IH Hrows)].
  intros Hin. apply Hr. apply in_map_iff in Hin.
  destruct Hin as (y & Hy & Hin). apply filter_In in Hin.
  apply in_map_iff. exists y. tauto.
Qed.

Lemma NoDup_map_skipn {A B} (f : A -> B) n (l : list A) :
  NoDup (map f l) -> NoDup (map f (skipn n l)).
Proof.
  intros H. rewrite <- skipn_map. apply NoDup_skipn. exact H.
Qed.

(** Removing the elements with given keys: when no two elements have the
    same key and every key is the key of an element, as many elements
    are removed as there are keys. *)
Lemma without_ids_length ids rows :
  NoDup (map a_id rows) -> NoDup ids -> incl ids (map a_id rows) ->
  (length (without_ids ids rows) + length ids)%nat = length rows.
Proof.
  intros Hrows Hids Hincl. unfold without_ids.
  rewrite <- (partition_length (fun r => existsb (Pos.eqb (a_id r)) ids)
                rows).
  f_equal.
  rewrite <- (length_map a_id (filter _ rows)).
  apply Permutation_length, NoDup_Permutation;
    [exact Hids|apply unique_keys_filter; exact Hrows|].
  intros id. rewrite in_map_iff. split.
  - intros Hid. destruct (proj1 (in_map_iff _ _ _) (Hincl id Hid))
      as (r & Hr & Hin).
    exists r. split; [exact Hr|]. apply filter_In. split; [exact Hin|].
    apply existsb_exists. exists id. split; [exact Hid|].
    apply Pos.eqb_eq. exact Hr.
  - intros (r & Hr & Hin). apply filter_In in Hin.
    destruct Hin as [_ Hin]. apply existsb_exists in Hin.
    destruct Hin as (id' & Hid' & E). apply Pos.eqb_eq in E.
    subst. exact Hid'.
Qed.

Lemma without_ids_app ids1 ids2 rows :
  without_ids ids2 (without_ids ids1 rows) = without_ids (ids1 ++ ids2) rows.
Proof.
  unfold without_ids.
  induction rows as [|r rows IH]; cbn [filter]; [reflexivity|].
  assert (Hb : existsb (Pos.eqb (a_id r)) (ids1 ++ ids2)
               = existsb (Pos.eqb (a_id r)) ids1
                 || existsb (Pos.eqb (a_id r)) ids2) by apply existsb_app.
  rewrite Hb.
  destruct (existsb (Pos.eqb (a_id r)) ids1) eqn:E1;
    destruct (existsb (Pos.eqb (a_id r)) ids2) eqn:E2;
    cbn [negb orb filter]; rewrite ?E2; cbn [negb]; rewrite IH;
    reflexivity.
Qed.

Lemma without_ids_In ids rows r :
  In r (without_ids ids rows) <-> In r rows /\ ~ In (a_id r) ids.
Proof.
  unfold without_ids. rewrite filter_In, negb_true_iff.
  split; intros [H1 H2]; (split; [exact H1|]).
  - intros Hin.
    assert (existsb (Pos.eqb (a_id r)) ids = true); [|congruence].
    apply existsb_exists. exists (a_id r). split; [exact Hin|].
    apply Pos.eqb_refl.
  - destruct (existsb (Pos.eqb (a_id r)) ids) eqn:E; [|reflexivity].
    apply existsb_exists in E. destruct E as (id & Hid & E).
    apply Pos.eqb_eq in E. subst. contradiction.
Qed.

(** The groups: the group of a url holds the rows of the url, in the
    order of the rows. *)
Lemma url_group_step o done r :
  (forall url, get o url = group_of (url_hits url done)) ->
  forall url,
    get (Dedupe.group_step o r) url = group_of (url_hits url (done ++ [r])).
Proof.
  intros Ho url. unfold Dedupe.group_step, url_hits. cbv zeta.
  rewrite filter_app. cbn [filter]. fold (url_hits url done).
  pose proof (Ho (a_url r)) as H0.
  destruct (url_hits (a_url r) done) as [|first rest] eqn:Eh;
    cbn [group_of] in H0; rewrite H0.
  - rewrite get_set, jseqb_refl. rewrite !get_set.
    destruct (jseqb (a_url r) url) eqn:E.
    + apply jseqb_eq in E. subst url. rewrite Eh. reflexivity.
    + rewrite app_nil_r. apply Ho.
  - rewrite H0. rewrite get_set.
    destruct (jseqb (a_url r) url) eqn:E.
    + apply jseqb_eq in E. subst url. rewrite Eh. reflexivity.
    + rewrite app_nil_r. apply Ho.
Qed.

Lemma url_groups_get rows : forall o done,
  (forall url, get o url = group_of (url_hits url done)) ->
  forall url,
    get (fold_left Dedupe.group_step rows o) url
    = group_of (url_hits url (done ++ rows)).
Proof.
  induction rows as [|r rows IH]; intros o done Ho url.
  - rewrite app_nil_r. apply Ho.
  - cbn [fold_left].
    replace (done ++ r :: rows) with ((done ++ [r]) ++ rows)
      by (rewrite <- app_assoc; reflexivity).
    apply IH. apply url_group_step. exact Ho.
Qed.

Lemma group_by_url_get rows url :
  get (Dedupe.group_by_url rows) url = group_of (url_hits url rows).
Proof.
  unfold Dedupe.group_by_url.
  apply (url_groups_get rows [] []). reflexivity.
Qed.

Lemma group_by_url_NoDup rows :
  NoDup (map fst (Dedupe.group_by_url rows)).
Proof.
  unfold Dedupe.group_by_url.
  assert (H : forall o : JSObject (list ArchiveRow),
             NoDup (map fst o) ->
             NoDup (map fst (fold_left Dedupe.group_step rows o))).
  { induction rows as [|r rows IH]; intros o Ho; [exact Ho|].
    cbn [fold_left]. apply IH. unfold Dedupe.group_step. cbv zeta.
    destruct (get o (a_url r)).
    - destruct (get o (a_url r)); [apply set_NoDup|]; exact Ho.
    - destruct (get (set o (a_url r) []) (a_url r));
        repeat apply set_NoDup; exact Ho. }
  apply H. constructor.
Qed.

(** The ids marked for deletion are the ids of the rows that are not the
    first of their url. *)
Lemma idsToDelete_members rows id :
  In id (Dedupe.idsToDelete (Dedupe.group_by_url rows))
  <-> exists url, In id (map a_id (skipn 1 (url_hits url rows))).
Proof.
  unfold Dedupe.idsToDelete. cbv zeta. rewrite in_flat_map. split.
  - intros (url & _ & Hid). exists url.
    rewrite group_by_url_get in Hid.
    destruct (url_hits url rows); [contradiction|exact Hid].
  - intros (url & Hid). exists url.
    destruct (url_hits url rows) as [|first [|second rest]] eqn:Eh;
      try contradiction.
    rewrite !group_by_url_get, Eh. cbn [group_of]. split; [|exact Hid].
    apply filter_In. rewrite group_by_url_get, Eh. cbn [group_of].
    split; [|reflexivity].
    apply (Permutation_in _ (Permutation_sym (object_keys_perm _))).
    apply get_keys. rewrite group_by_url_get, Eh. cbn [group_of]. eauto.
Qed.

Lemma idsToDelete_NoDup rows :
  NoDup (map a_id rows) ->
  NoDup (Dedupe.idsToDelete (Dedupe.group_by_url rows)).
Proof.
  intros Hrows. unfold Dedupe.idsToDelete. cbv zeta.
  apply NoDup_flat_map.
  - apply NoDup_filter.
    apply (Permutation_NoDup (Permutation_sym (object_keys_perm _))).
    apply group_by_url_NoDup.
  - intros url _. rewrite group_by_url_get.
    destruct (url_hits url rows) eqn:Eh; [constructor|]. cbn [group_of].
    rewrite <- Eh. apply NoDup_map_skipn, unique_keys_filter. exact Hrows.
  - intros x y id _ _. rewrite !group_by_url_get.
    intros Hx Hy.
    assert (Hrow : forall url,
               In id (match group_of (url_hits url rows) with
                      | Some duplicates => map a_id (skipn 1 duplicates)
                      | None => []
                      end) ->
               exists r, In r rows /\ a_id r = id /\ a_url r = url).
    { intros url H.
      destruct (url_hits url rows) eqn:Eh; [contradiction|].
      cbn [group_of] in H. rewrite <- Eh in H.
      apply in_map_iff in H. destruct H as (r & Hr & Hin).
      apply skipn_members, filter_In in Hin. destruct Hin as [Hin E].
      apply jseqb_eq in E. eauto. }
    destruct (Hrow x Hx) as (r & Hr & Hid & <-).
    destruct (Hrow y Hy) as (r' & Hr' & Hid' & <-).
    f_equal. apply (NoDup_map_eq a_id rows); congruence.
Qed.

Lemma idsToDelete_incl rows :
  incl (Dedupe.idsToDelete (Dedupe.group_by_url rows)) (map a_id rows).
Proof.
  intros id Hid. apply idsToDelete_members in Hid.
  destruct Hid as (url & Hid). apply in_map_iff in Hid.
  destruct Hid as (r & Hr & Hin).
  apply skipn_members, filter_In in Hin.
  apply in_map_iff. exists r. tauto.
Qed.

Lemma without_ids_nil rows : without_ids [] rows = rows.
Proof. unfold without_ids. simpl. apply filter_true. Qed.

Lemma filter_absorb {A} (p q : A -> bool) (l : list A) :
  (forall x, In x l -> p x = true -> q x = true) ->
  filter p (filter q l) = filter p l.
Proof.
  induction l as [|x l IH]; intros H; simpl; [reflexivity|].
  assert (IH' : filter p (filter q l) = filter p l)
    by (apply IH; intros; apply H; [right|]; assumption).
  destruct (q x) eqn:Eq; simpl.
  - rewrite IH'. reflexivity.
  - destruct (p x) eqn:Ep; [|exact IH'].
    rewrite (H x (or_introl eq_refl) Ep) in Eq. discriminate.
Qed.

Lemma filter_comm {A} (p q : A -> bool) (l : list A) :
  filter p (filter q l) = filter q (filter p l).
Proof.
  induction l as [|x l IH]; simpl; [reflexivity|].
  destruct (q x) eqn:Eq, (p x) eqn:Ep; simpl; rewrite ?Eq, ?Ep, IH;
    reflexivity.
Qed.

(** What is left of a table when the rows marked for a user are removed:
    the rows of the others, and of the rows of the user the first of
    every url, in the order in which the store listed them. *)
Lemma without_copies userId table ordered :
  Permutation ordered (filter (owned_by userId) table) ->
  NoDup (map a_id table) ->
  let ids := Dedupe.idsToDelete (Dedupe.group_by_url ordered) in
  let table' := without_ids ids table in
  filter (fun r => negb (owned_by userId r)) table'
  = filter (fun r => negb (owned_by userId r)) table
  /\ (forall r, In r table -> owned_by userId r = true ->
      (In r table'
       <-> exists rest, url_hits (a_url r) ordered = r :: rest))
  /\ NoDup (map a_url (filter (owned_by userId) table'))
  /\ (forall r, In r table -> owned_by userId r = true ->
      exists r',
        In r' table' /\ owned_by userId r' = true /\ a_url r' = a_url r)
  /\ (length (filter (owned_by userId) table') + length ids)%nat
     = length ordered.
Proof.
  intros Hperm Hids ids table'.
  assert (Hmine : NoDup (map a_id (filter (owned_by userId) table)))
    by (apply unique_keys_filter; exact Hids).
  assert (Hord : NoDup (map a_id ordered))
    by (apply (Permutation_NoDup
                 (Permutation_sym (Permutation_map a_id Hperm)));
        exact Hmine).
  assert (Hin_ord : forall r,
             In r ordered <-> In r table /\ owned_by userId r = true).
  { intros r. rewrite <- filter_In. split; apply Permutation_in;
      [exact Hperm|apply Permutation_sym; exact Hperm]. }
  assert (Hincl : incl ids (map a_id (filter (owned_by userId) table))).
  { intros id Hid. apply idsToDelete_incl in Hid.
    apply (Permutation_in _ (Permutation_map a_id Hperm)). exact Hid. }
  assert (Hkeep : forall r, In r table -> owned_by userId r = true ->
             (In r table'
              <-> exists rest, url_hits (a_url r) ordered = r :: rest)).
  { intros r Hr Ho. subst table'. rewrite without_ids_In.
    assert (Hro : In r ordered) by (apply Hin_ord; auto).
    assert (Hhit : In r (url_hits (a_url r) ordered))
      by (apply filter_In; split; [exact Hro|apply jseqb_refl]).
    split.
    - intros [_ Hnot].
      destruct (url_hits (a_url r) ordered) as [|first rest] eqn:Eh;
        [contradiction|].
      destruct Hhit as [->|Hrest]; [eauto|].
      exfalso. apply Hnot. apply idsToDelete_members.
      exists (a_url r). rewrite Eh. apply in_map. exact Hrest.
    - intros (rest & Eh). split; [exact Hr|]. intros Hid.
      apply idsToDelete_members in Hid. destruct Hid as (url & Hid).
      apply in_map_iff in Hid. destruct Hid as (r' & Er & Hr').
      assert (Hr'' : In r' (url_hits url ordered))
        by (apply skipn_members in Hr'; exact Hr').
      apply filter_In in Hr''. destruct Hr'' as [Hr'o Eu].
      apply jseqb_eq in Eu.
      assert (r' = r) by (apply (NoDup_map_eq a_id ordered); auto).
      subst r' url. rewrite Eh in Hr'. cbn [skipn] in Hr'.
      assert (Hnd : NoDup (r :: rest)).
      { rewrite <- Eh. apply NoDup_filter.
        apply (NoDup_map_inv a_id). exact Hord. }
      inversion Hnd. contradiction. }
  split; [|split; [exact Hkeep|split; [|split]]].
  - subst table'. unfold without_ids. apply filter_absorb.
    intros r Hr Ho. apply negb_true_iff in Ho.
    destruct (existsb (Pos.eqb (a_id r)) ids) eqn:E; [|reflexivity].
    apply existsb_exists in E. destruct E as (id & Hid & E).
    apply Pos.eqb_eq in E. subst id. apply Hincl in Hid.
    apply in_map_iff in Hid. destruct Hid as (r' & Er & Hr').
    apply filter_In in Hr'. destruct Hr' as [Hr' Ho'].
    assert (r' = r) by (apply (NoDup_map_eq a_id table); auto).
    subst. congruence.
  - apply NoDup_map_NoDup_ForallPairs.
    + intros a b Ha Hb E.
      apply filter_In in Ha, Hb. destruct Ha as [Ha Hoa], Hb as [Hb Hob].
      assert (Hta : In a table)
        by (apply (proj1 (without_ids_In _ _ _) Ha)).
      assert (Htb : In b table)
        by (apply (proj1 (without_ids_In _ _ _) Hb)).
      apply (Hkeep a Hta Hoa) in Ha. apply (Hkeep b Htb Hob) in Hb.
      destruct Ha as (ra & Ea), Hb as (rb & Eb).
      rewrite E, Eb in Ea. congruence.
    + apply NoDup_filter. unfold table', without_ids.
      apply NoDup_filter. apply (NoDup_map_inv a_id). exact Hids.
  - intros r Hr Ho.
    assert (Hhit : In r (url_hits (a_url r) ordered)).
    { apply filter_In. split; [apply Hin_ord; auto|apply jseqb_refl]. }
    destruct (url_hits (a_url r) ordered) as [|first rest] eqn:Eh;
      [contradiction|].
    assert (Hf : In first (url_hits (a_url r) ordered))
      by (rewrite Eh; left; reflexivity).
    apply filter_In in Hf. destruct Hf as [Hfo Eu]. apply jseqb_eq in Eu.
    apply Hin_ord in Hfo. destruct Hfo as [Hft Hfo].
    exists first. split; [|split; [exact Hfo|exact Eu]].
    apply (Hkeep first Hft Hfo). exists rest. rewrite Eu. exact Eh.
  - subst table'. unfold without_ids at 1.
    rewrite filter_comm. fold (without_ids ids
                                 (filter (owned_by userId) table)).
    rewrite (without_ids_length ids _ Hmine
               (idsToDelete_NoDup ordered Hord) Hincl).
    symmetry. apply Permutation_length. exact Hperm.
Qed.

Lemma delete_archives_in_eq env batch w :
  store_error env (clock w) = None ->
  Dedupe.delete_archives_in env batch w
  = (Ok None,
     mkWorld (without_ids batch (archives w)) (content_embeddings w)
             (user_content w) (S (clock w)) (trace w)).
Proof.
  intros H. unfold Dedupe.delete_archives_in, bind, tick, get_world,
    set_archives, ret.
  cbn [clock archives content_embeddings user_content trace].
  rewrite H. reflexivity.
Qed.

(** With a store that answers, the loop deletes every marked row and
    counts every id. *)
Lemma delete_batches_all env ids :
  store_answers env ->
  forall fuel i deleted w,
    0 <= i ->
    Z.of_nat (length ids) <= i + 100 * Z.of_nat fuel ->
    exists w',
      Dedupe.delete_batches env ids fuel i deleted w
      = (Ok (deleted + length (skipn (Z.to_nat i) ids))%nat, w')
      /\ archives w' = without_ids (skipn (Z.to_nat i) ids) (archives w).
Proof.
  intros Hs fuel.
  assert (Hend : forall i deleted w,
             Z.of_nat (length ids) <= i ->
             exists w',
               (Ok deleted, w)
               = (Ok (deleted + length (skipn (Z.to_nat i) ids))%nat, w')
               /\ archives w'
                  = without_ids (skipn (Z.to_nat i) ids) (archives w)).
  { intros i deleted w Hi. exists w.
    rewrite skipn_all2 by lia. cbn [length].
    rewrite Nat.add_0_r, without_ids_nil. auto. }
  induction fuel as [|fuel IH]; intros i deleted w Hi Hfuel.
  - cbn [Dedupe.delete_batches]. unfold ret. apply Hend. lia.
  - cbn [Dedupe.delete_batches].
    destruct (Z.ltb_spec i (Z.of_nat (length ids))) as [Hlt|Hge];
      [|unfold ret; apply Hend; lia].
    cbv zeta. unfold bind at 1.
    rewrite (delete_archives_in_eq _ _ _ (Hs (clock w))).
    match goal with
    | |- context [Dedupe.delete_batches env ids fuel ?i' ?d ?w1] =>
        destruct (IH i' d w1 ltac:(lia) ltac:(lia)) as (w' & Hrun & Ha)
    end.
    exists w'. rewrite Hrun. cbn [archives] in Ha.
    rewrite without_ids_app in Ha.
    rewrite (skipn_window ids i 100) by lia.
    rewrite length_app. split; [|exact Ha].
    f_equal. f_equal. lia.
Qed.

(** X24.  The removal of duplicates by [/api/admin/dedupe], and by
    [findAndRemoveDuplicates] of [dedupe-archives.js], when the store
    answers every call, ids are unique in the table and no url is a
    property name inherited from [Object.prototype].  The rows of other
    users stay as they are.  Of the rows of the user exactly those stay
    that are the first of their url in the order in which the store listed
    them, so every url of the user keeps one row and no url keeps two.
    The answer is never an error, and [originalCount] is
    [finalCount + duplicatesRemoved]. *)
Theorem dedupe_keeps_first_of_every_url env by_created_at userId w :
  store_answers env ->
  (forall rows, Permutation (by_created_at rows) rows) ->
  NoDup (map a_id (archives w)) ->
  Forall (fun r => inherited (a_url r) = false) (archives w) ->
  let ordered := by_created_at (filter (owned_by userId) (archives w)) in
  exists response w',
    Dedupe.dedupe by_created_at env userId w = (Ok response, w')
    /\ filter (fun r => negb (owned_by userId r)) (archives w')
       = filter (fun r => negb (owned_by userId r)) (archives w)
    /\ (forall r, In r (archives w) -> owned_by userId r = true ->
        (In r (archives w')
         <-> exists rest, url_hits (a_url r) ordered = r :: rest))
    /\ NoDup (map a_url (filter (owned_by userId) (archives w')))
    /\ (forall r, In r (archives w) -> owned_by userId r = true ->
        exists r',
          In r' (archives w') /\ owned_by userId r' = true
          /\ a_url r' = a_url r)
    /\ match response with
       | Dedupe.NoDuplicates totalArchives =>
           totalArchives = length ordered /\ archives w' = archives w
       | Dedupe.Complete originalCount duplicatesRemoved finalCount =>
           originalCount = length ordered
           /\ finalCount
              = Some (length (filter (owned_by userId) (archives w')))
           /\ (length (filter (owned_by userId) (archives w'))
               + duplicatesRemoved)%nat = originalCount
           /\ (0 < duplicatesRemoved)%nat
       | Dedupe.ServerError _ => False
       end.
Proof.
  intros Hs Hperm Hids _ ordered.
  destruct (without_copies userId (archives w) ordered (Hperm _) Hids)
    as (H1 & H2 & H3 & H4 & H5).
  cbv zeta in H1, H2, H3, H4, H5.
  set (ids := Dedupe.idsToDelete (Dedupe.group_by_url ordered)) in *.
  unfold Dedupe.dedupe, try_catch.
  unfold bind at 1. unfold Dedupe.select_archives_of, bind, tick,
    get_world, ret.
  cbn [clock archives content_embeddings user_content trace].
  rewrite (Hs (clock w)). fold (owned_by userId). fold ordered.
  cbv zeta. fold ids.
  destruct (length ids =? 0)%nat eqn:E.
  - apply Nat.eqb_eq in E.
    assert (Hnil : ids = []) by (destruct ids; [reflexivity|discriminate]).
    rewrite Hnil, without_ids_nil in H1, H2, H3, H4.
    do 2 eexists. split; [reflexivity|]. cbn [archives].
    repeat (split; [assumption|]). auto.
  - apply Nat.eqb_neq in E.
    destruct (delete_batches_all env ids Hs (length ids) 0 0%nat
                (tick_world w) ltac:(lia) ltac:(lia))
      as (w1 & Hrun & Ha).
    cbn [Z.to_nat skipn Nat.add tick_world archives] in Hrun, Ha.
    change (mkWorld (archives w) (content_embeddings w) (user_content w)
                    (S (clock w)) (trace w)) with (tick_world w).
    rewrite Hrun.
    unfold Dedupe.count_archives_of, bind, tick, get_world, ret.
    cbn [clock archives content_embeddings user_content trace].
    rewrite (Hs (clock w1)). fold (owned_by userId).
    do 2 eexists. split; [reflexivity|]. cbn [archives]. rewrite Ha.
    repeat (split; [assumption|]).
    split; [reflexivity|]. split; [reflexivity|]. split; [exact H5|lia].
Qed.

Lemma dedupe_keeps_first_of_every_url_witness :
  store_answers env_ok
  /\ (forall rows : list ArchiveRow, Permutation rows rows)
  /\ NoDup (map a_id table_with_copies)
  /\ Forall (fun r => inherited (a_url r) = false) table_with_copies
  /\ exists response w',
       Dedupe.dedupe (fun rows => rows) env_ok alice
         (mkWorld table_with_copies [] [] 0 []) = (Ok response, w')
       /\ filter (fun r => negb (owned_by alice r)) (archives w')
          = filter (fun r => negb (owned_by alice r)) table_with_copies
       /\ (forall r, In r table_with_copies -> owned_by alice r = true ->
           (In r (archives w')
            <-> exists rest,
                  url_hits (a_url r)
                    (filter (owned_by alice) table_with_copies)
                  = r :: rest))
       /\ NoDup (map a_url (filter (owned_by alice) (archives w')))
       /\ (forall r, In r table_with_copies -> owned_by alice r = true ->
           exists r',
             In r' (archives w') /\ owned_by alice r' = true
             /\ a_url r' = a_url r)
       /\ match response with
          | Dedupe.NoDuplicates totalArchives =>
              totalArchives
              = length (filter (owned_by alice) table_with_copies)
              /\ archives w' = table_with_copies
          | Dedupe.Complete originalCount duplicatesRemoved finalCount =>
              originalCount
              = length (filter (owned_by alice) table_with_copies)
              /\ finalCount
                 = Some (length (filter (owned_by alice) (archives w')))
              /\ (length (filter (owned_by alice) (archives w'))
                  + duplicatesRemoved)%nat = originalCount
              /\ (0 < duplicatesRemoved)%nat
          | Dedupe.ServerError _ => False
          end.
Proof.
  assert (H1 : store_answers env_ok) by (intros t; reflexivity).
  assert (H2 : forall rows : list ArchiveRow, Permutation rows rows)
    by (intros rows; apply Permutation_refl).
  assert (H3 : NoDup (map a_id table_with_copies)).
  { repeat constructor; simpl; intuition discriminate. }
  assert (H4 : Forall (fun r => inherited (a_url r) = false)
                 table_with_copies) by (repeat constructor).
  split; [exact H1|]. split; [exact H2|]. split; [exact H3|].
  split; [exact H4|].
  exact (dedupe_keeps_first_of_every_url env_ok (fun rows => rows) alice
           (mkWorld table_with_copies [] [] 0 []) H1 H2 H3 H4).
Defined.

(* ------------------------------------------------------------------ *)
(** ** The import started by the endpoint *)

Lemma or_default_positive x d :
  nonnegative x -> 1 <= d -> 1 <= ImportEndpoint.or_default x d.
Proof.
  unfold ImportEndpoint.or_default. destruct x as [n|]; simpl; [|auto].
  intros Hn Hd. destruct (Z.eqb_spec n 0); lia.
Qed.

(** X25.  The import that [POST /api/pocket/import] starts, for a request
    whose options are absent or not negative.  A 0 is replaced by the
    default, so the batch size, the delays and the number of retries are
    all positive: a request cannot switch off the retries or the pause.
    The import then returns, whatever the schedule, within one pass of
    its loop for every row and one more, and it has paused
    [delayBetweenBatches] after every batch of new rows but the last. *)
Theorem import_endpoint_completes env schedule urls userId options w :
  nonnegative (ImportEndpoint.r_batchSize options) ->
  nonnegative (ImportEndpoint.r_delayBetweenBatches options) ->
  nonnegative (ImportEndpoint.r_delayBetweenRequests options) ->
  nonnegative (ImportEndpoint.r_maxRetries options) ->
  let opts := ImportEndpoint.importOptions options in
  1 <= batchSize opts /\ 1 <= delayBetweenBatches opts
  /\ 1 <= delayBetweenRequests opts /\ 1 <= maxRetries opts
  /\ exists s w' newUrls duplicates w1,
       ImportEndpoint.background_import env schedule (S (length urls)) urls
         userId options w = (Ok s, w')
       /\ checkForDuplicates env urls userId w
          = (Ok (newUrls, duplicates), w1)
       /\ pauses (trace w')
          = pauses (trace w)
            ++ repeat (delayBetweenBatches opts)
                 (Z.to_nat (batches (length newUrls) (batchSize opts) - 1)).
Proof.
  intros H1 H2 H3 H4 opts.
  assert (Hbs : 1 <= batchSize opts)
    by (apply or_default_positive; [exact H1|lia]).
  assert (Hdb : 1 <= delayBetweenBatches opts)
    by (apply or_default_positive; [exact H2|lia]).
  assert (Hdr : 1 <= delayBetweenRequests opts)
    by (apply or_default_positive; [exact H3|lia]).
  assert (Hmax : 1 <= maxRetries opts)
    by (apply or_default_positive; [exact H4|lia]).
  repeat (split; [assumption|]).
  unfold ImportEndpoint.background_import. fold opts.
  destruct (checkForDuplicates_partition env urls userId w)
    as (ex & w1 & _ & Hcd & _).
  assert (Hrun : exists s w',
             processPocketImport env schedule (S (length urls)) urls userId
               opts w = (Ok s, w')).
  { unfold processPocketImport. unfold bind at 1. rewrite Hcd.
    apply batch_loop_total; [exact Hbs|lia|].
    pose proof (filter_length_le
                  (fun item => negb (has ex (u_url item))) urls). lia. }
  destruct Hrun as (s & w' & Hrun).
  destruct (import_run _ _ _ _ _ _ _ _ _ Hrun)
    as (newUrls & duplicates & w1' & Hcd' & _ & Ht & _ & _).
  exists s, w', newUrls, duplicates, w1'.
  split; [exact Hrun|]. split; [exact Hcd'|].
  unfold processPocketImport in Hrun. unfold bind at 1 in Hrun.
  rewrite Hcd' in Hrun.
  apply (batch_loop_pauses env schedule opts userId newUrls Hbs ltac:(lia))
    in Hrun; [|lia].
  rewrite Hrun, Ht. unfold batches. rewrite Z.sub_0_r.
  replace (0 <? delayBetweenBatches opts) with true
    by (symmetry; apply Z.ltb_lt; lia).
  reflexivity.
Qed.

Lemma import_endpoint_completes_witness :
  nonnegative (Some 0) /\ nonnegative (Some 0) /\ nonnegative None
  /\ nonnegative (Some 0)
  /\ let opts :=
       ImportEndpoint.importOptions
         (ImportEndpoint.mkRequestOptions (Some 0) (Some 0) None (Some 0)) in
     1 <= batchSize opts /\ 1 <= delayBetweenBatches opts
     /\ 1 <= delayBetweenRequests opts /\ 1 <= maxRetries opts
     /\ exists s w' newUrls duplicates w1,
          ImportEndpoint.background_import env_ok in_turn
            (S (length three_rows)) three_rows alice
            (ImportEndpoint.mkRequestOptions (Some 0) (Some 0) None (Some 0))
            world_a = (Ok s, w')
          /\ checkForDuplicates env_ok three_rows alice world_a
             = (Ok (newUrls, duplicates), w1)
          /\ pauses (trace w')
             = pauses (trace world_a)
               ++ repeat (delayBetweenBatches opts)
                    (Z.to_nat (batches (length newUrls) (batchSize opts)
                               - 1)).
Proof.
  assert (H1 : nonnegative (Some 0)) by (simpl; lia).
  assert (H2 : nonnegative None) by exact I.
  split; [exact H1|]. split; [exact H1|]. split; [exact H2|].
  split; [exact H1|].
  exact (import_endpoint_completes env_ok in_turn three_rows alice
           (ImportEndpoint.mkRequestOptions (Some 0) (Some 0) None (Some 0))
           world_a H1 H1 H2 H1).
Defined.

(* ------------------------------------------------------------------ *)
(** ** The CSV export *)

Lemma starts_with_app pat : forall s,
  starts_with pat s = true <-> exists rest, s = pat ++ rest.
Proof.
  induction pat as [|p pat IH]; intros s; cbn [starts_with app].
  - split; [eauto|reflexivity].
  - destruct s as [|c s].
    + split; [discriminate|intros (rest & H); discriminate].
    + rewrite andb_true_iff, N.eqb_eq, IH. split.
      * intros [-> (rest & ->)]. eauto.
      * intros (rest & H). injection H as -> ->. eauto.
Qed.

Lemma trimStart_app a b :
  trimStart (a ++ b)
  = match trimStart a with
    | [] => trimStart b
    | _ :: _ => trimStart a ++ b
    end.
Proof.
  induction a as [|c a IH]; cbn [app trimStart]; [reflexivity|].
  destruct (is_space c); [exact IH|reflexivity].
Qed.

(** Trimming keeps a beginning that has no white space. *)
Lemma trim_keeps_beginning pat s :
  forallb (fun c => negb (is_space c)) pat = true ->
  starts_with pat s = true -> starts_with pat (trim s) = true.
Proof.
  intros Hpat H. destruct pat as [|p pat]; [reflexivity|].
  apply starts_with_app in H. destruct H as (rest & ->).
  apply starts_with_app. unfold trim.
  assert (Hp : is_space p = false).
  { cbn [forallb] in Hpat. apply andb_true_iff in Hpat.
    destruct Hpat as [Hp _]. apply negb_true_iff in Hp. exact Hp. }
  assert (Hlast : trimStart (rev (p :: pat)) = rev (p :: pat)).
  { apply trimStart_fixed. destruct (rev (p :: pat)) as [|c r] eqn:E;
      [exact I|]. cbn [head_ok].
    assert (Hin : In c (p :: pat))
      by (apply in_rev; rewrite E; left; reflexivity).
    rewrite forallb_forall in Hpat. apply Hpat in Hin.
    apply negb_true_iff in Hin. exact Hin. }
  cbn [app trimStart]. rewrite Hp.
  change (p :: pat ++ rest) with ((p :: pat) ++ rest).
  rewrite rev_app_distr, trimStart_app.
  destruct (trimStart (rev rest)) as [|c r].
  - rewrite Hlast, rev_involutive. exists []. rewrite app_nil_r.
    reflexivity.
  - rewrite rev_app_distr, rev_involutive. eexists. reflexivity.
Qed.

Lemma on_data_entries P results data :
  Forall P results ->
  (forall url, PocketCSV.f_url data = Some url ->
     starts_with (js "http") url = true ->
     forall entry,
       PocketCSV.on_data [] data = [entry] -> P entry) ->
  Forall P (PocketCSV.on_data results data).
Proof.
  intros Hres Hentry. unfold PocketCSV.on_data in *.
  destruct (PocketCSV.f_url data) as [url|]; [|exact Hres].
  destruct (truthy url && negb (jseqb url (js "URL"))
            && starts_with (js "http") url) eqn:E; [|exact Hres].
  apply Forall_app. split; [exact Hres|].
  constructor; [|constructor].
  apply andb_true_iff in E. destruct E as [_ E].
  apply (Hentry url eq_refl E). reflexivity.
Qed.

(** X26.  The entries [parsePocketCSV] hands to the importer, whatever
    the rows of the parser: every url starts with [http] and has no white
    space at either end, every title is trimmed, every tag is trimmed and
    not empty, and there is at most one entry for every row. *)
Theorem parsePocketCSV_entries rows :
  Forall (fun entry =>
            starts_with (js "http") (u_url entry) = true
            /\ trim (u_url entry) = u_url entry
            /\ trim (u_title entry) = u_title entry
            /\ Forall (fun tag => tag <> [] /\ trim tag = tag)
                 (u_tags entry))
         (PocketCSV.parsed rows)
  /\ (length (PocketCSV.parsed rows) <= length rows)%nat.
Proof.
  unfold PocketCSV.parsed.
  assert (H : forall results,
             Forall (fun entry =>
                       starts_with (js "http") (u_url entry) = true
                       /\ trim (u_url entry) = u_url entry
                       /\ trim (u_title entry) = u_title entry
                       /\ Forall (fun tag => tag <> [] /\ trim tag = tag)
                            (u_tags entry)) results ->
             Forall (fun entry =>
                       starts_with (js "http") (u_url entry) = true
                       /\ trim (u_url entry) = u_url entry
                       /\ trim (u_title entry) = u_title entry
                       /\ Forall (fun tag => tag <> [] /\ trim tag = tag)
                            (u_tags entry))
                    (fold_left PocketCSV.on_data rows results)
             /\ (length (fold_left PocketCSV.on_data rows results)
                 <= length results + length rows)%nat).
  { induction rows as [|data rows IH]; intros results Hres;
      cbn [fold_left length]; [split; [exact Hres|lia]|].
    destruct (IH (PocketCSV.on_data results data)) as [IH1 IH2].
    - apply on_data_entries; [exact Hres|].
      intros url Hurl Hhttp entry Hentry.
      unfold PocketCSV.on_data in Hentry. rewrite Hurl in Hentry.
      destruct (truthy url && negb (jseqb url (js "URL"))
                && starts_with (js "http") url); [|discriminate].
      injection Hentry as <-. cbn [u_url u_title u_tags].
      split; [apply trim_keeps_beginning; [reflexivity|exact Hhttp]|].
      split; [apply trim_idempotent|]. split.
      + destruct (PocketCSV.f_title data) as [title|]; [|reflexivity].
        destruct (truthy title); [apply trim_idempotent|reflexivity].
      + destruct (PocketCSV.f_tags data) as [tags|]; [|constructor].
        destruct (truthy tags); [|constructor].
        apply Forall_forall. intros tag Hin. apply filter_In in Hin.
        destruct Hin as [Hin Htag]. apply in_map_iff in Hin.
        destruct Hin as (piece & <- & _). split.
        * intros E. rewrite E in Htag. discriminate.
        * apply trim_idempotent.
    - split; [exact IH1|].
      assert (length (PocketCSV.on_data results data)
              <= S (length results))%nat; [|lia].
      unfold PocketCSV.on_data. destruct (PocketCSV.f_url data); [|lia].
      destruct (_ && _); [rewrite length_app; simpl|]; lia. }
  destruct (H [] (Forall_nil _)) as [H1 H2]. split; [exact H1|exact H2].
Qed.

(** X27.  [validatePocketCSV] looks at the first ten lines only: two
    files with the same first ten lines are both accepted or both
    rejected, with the same message.  A file whose first line with
    [http] comes later is rejected. *)
Theorem validatePocketCSV_first_lines toLowerCase content1 content2 :
  firstn 10 (PocketCSV.split content1 PocketCSV.LINE_FEED)
  = firstn 10 (PocketCSV.split content2 PocketCSV.LINE_FEED) ->
  PocketCSV.validatePocketCSV toLowerCase content1
  = PocketCSV.validatePocketCSV toLowerCase content2.
Proof.
  intros H.
  assert (Hv : forall content,
             PocketCSV.validatePocketCSV toLowerCase content
             = let lines :=
                 firstn 10 (PocketCSV.split content PocketCSV.LINE_FEED) in
               if (length lines <? 2)%nat then inl PocketCSV.EMPTY_FILE
               else
                 let header := toLowerCase (nth 0 lines []) in
                 if negb (Snippet.includes header (js "url"))
                    || negb (Snippet.includes header (js "title"))
                 then inl PocketCSV.NOT_AN_EXPORT
                 else
                   let validUrls :=
                     fold_left
                       (fun validUrls i =>
                          let line := nth i lines [] in
                          if truthy line
                             && Snippet.includes line (js "http")
                          then S validUrls else validUrls)
                       (seq 1 (length lines - 1)) O in
                   if (validUrls =? 0)%nat then inl PocketCSV.NO_URLS
                   else inr true).
  { intros content. unfold PocketCSV.validatePocketCSV. cbv zeta.
    set (lines := PocketCSV.split content PocketCSV.LINE_FEED).
    rewrite length_firstn.
    replace (Nat.min 10 (length lines)) with (Nat.min (length lines) 10)
      by lia.
    assert (Hnth : forall i, (i < 10)%nat ->
               nth i (firstn 10 lines) [] = nth i lines []).
    { intros i Hi. rewrite <- (firstn_skipn 10 lines) at 2.
      destruct (Nat.lt_ge_cases i (length (firstn 10 lines))) as [Hl|Hl].
      - rewrite app_nth1 by exact Hl. reflexivity.
      - rewrite nth_overflow by exact Hl.
        rewrite length_firstn in Hl.
        assert (Hlen : (length lines <= i)%nat) by lia.
        rewrite firstn_skipn. rewrite nth_overflow by exact Hlen.
        reflexivity. }
    replace (Nat.min (length lines) 10 <? 2)%nat
      with (length lines <? 2)%nat
      by (destruct (Nat.ltb_spec (length lines) 2),
            (Nat.ltb_spec (Nat.min (length lines) 10) 2);
          reflexivity || lia).
    destruct (length lines <? 2)%nat; [reflexivity|].
    rewrite (Hnth 0%nat) by lia.
    destruct (negb _ || negb _); [reflexivity|].
    assert (Hfold : forall l acc,
               Forall (fun i => (i < 10)%nat) l ->
               fold_left
                 (fun validUrls i =>
                    if truthy (nth i lines [])
                       && Snippet.includes (nth i lines []) (js "http")
                    then S validUrls else validUrls) l acc
               = fold_left
                   (fun validUrls i =>
                      if truthy (nth i (firstn 10 lines) [])
                         && Snippet.includes (nth i (firstn 10 lines) [])
                              (js "http")
                      then S validUrls else validUrls) l acc).
    { induction l as [|i l IH]; intros acc Hl; [reflexivity|].
      inversion Hl; subst. cbn [fold_left]. rewrite Hnth by assumption.
      apply IH. assumption. }
    rewrite Hfold; [reflexivity|].
    apply Forall_forall. intros i Hi. apply in_seq in Hi. lia. }
  rewrite !Hv. cbv zeta. rewrite H. reflexivity.
Qed.

Lemma validatePocketCSV_first_lines_witness :
  firstn 10 (PocketCSV.split
               (js "url,title" ++ repeat 10%N 10 ++ js "http://a.example/,A")
               PocketCSV.LINE_FEED)
  = firstn 10 (PocketCSV.split (js "url,title" ++ repeat 10%N 10)
                 PocketCSV.LINE_FEED)
  /\ PocketCSV.validatePocketCSV (fun s => s)
       (js "url,title" ++ repeat 10%N 10 ++ js "http://a.example/,A")
     = PocketCSV.validatePocketCSV (fun s => s)
         (js "url,title" ++ repeat 10%N 10)
  /\ PocketCSV.validatePocketCSV (fun s => s)
       (js "url,title" ++ repeat 10%N 10 ++ js "http://a.example/,A")
     = inl PocketCSV.NO_URLS.
Proof.
  assert (H : firstn 10 (PocketCSV.split
                           (js "url,title" ++ repeat 10%N 10
                            ++ js "http://a.example/,A")
                           PocketCSV.LINE_FEED)
              = firstn 10 (PocketCSV.split
                             (js "url,title" ++ repeat 10%N 10)
                             PocketCSV.LINE_FEED))
    by (vm_compute; reflexivity).
  split; [exact H|]. split; [|vm_compute; reflexivity].
  exact (validatePocketCSV_first_lines (fun s => s) _ _ H).
Defined.
